(** * Nebula Servers backend poller: a shallow embedding and its properties

    The poller (backend/poller.js) reads a list of server descriptors, checks
    each one (HTTP GET, TCP connect, Minecraft server-list ping), and writes a
    status snapshot.  This development embeds the functions of the poller as
    Rocq definitions that follow the JavaScript source statement by statement,
    and proves the properties the specification states about them.

    Conventions.
    - JavaScript integers that go through the 32-bit operators are [Z], with
      the conversions [ToInt32] and [ToUint32] written out at every operator.
    - A [Buffer] is a [list byte].
    - [null] returned in place of an object is [None].
    - Host built-ins that are not code of the poller ([JSON.parse],
      [Buffer.toString], string-to-number conversion) are fields of the class
      [Host]; the functions of the poller are parametric in it. *)

From Stdlib Require Import ZArith Lia Bool List.
From Stdlib Require Import Strings.Byte Strings.Ascii Floats.SpecFloat.
From Equations Require Import Equations.
From stdpp Require Import gmap strings list relations.

Local Open Scope Z_scope.
Set Warnings "-register-all".

(** ** 32-bit operators of JavaScript *)

Module JsInt.

(** [ToUint32] and [ToInt32] of ECMA-262 on integral numbers. *)
Definition ToUint32 (z : Z) : Z := z mod 2 ^ 32.
Definition ToInt32 (z : Z) : Z := (z + 2 ^ 31) mod 2 ^ 32 - 2 ^ 31.

(** [a & b], [a | b]: both operands to int32, result int32. *)
Definition and (a b : Z) : Z := ToInt32 (Z.land (ToInt32 a) (ToInt32 b)).
Definition or (a b : Z) : Z := ToInt32 (Z.lor (ToInt32 a) (ToInt32 b)).

(** [a << n]: left operand to int32, shift count masked to five bits. *)
Definition shl (a n : Z) : Z :=
  ToInt32 (Z.shiftl (ToInt32 a) (ToUint32 n mod 32)).

(** [a >>> n]: left operand to uint32, zero-filling shift. *)
Definition ushr (a n : Z) : Z :=
  Z.shiftr (ToUint32 a) (ToUint32 n mod 32).

Lemma ToUint32_range (z : Z) : 0 <= ToUint32 z < 2 ^ 32.
Proof. apply Z.mod_pos_bound. lia. Qed.

Lemma ToInt32_range (z : Z) : - 2 ^ 31 <= ToInt32 z < 2 ^ 31.
Proof.
  unfold ToInt32.
  pose proof (Z.mod_pos_bound (z + 2 ^ 31) (2 ^ 32)). lia.
Qed.

Lemma ToUint32_small (z : Z) : 0 <= z < 2 ^ 32 → ToUint32 z = z.
Proof. apply Z.mod_small. Qed.

Lemma ToInt32_small (z : Z) : - 2 ^ 31 <= z < 2 ^ 31 → ToInt32 z = z.
Proof. intros H. unfold ToInt32. rewrite Z.mod_small; lia. Qed.

(** [ToInt32] only looks at the residue modulo [2^32]. *)
Lemma ToInt32_mod (z : Z) : ToInt32 z mod 2 ^ 32 = z mod 2 ^ 32.
Proof.
  unfold ToInt32.
  rewrite Zminus_mod_idemp_l.
  f_equal. lia.
Qed.

Lemma ToInt32_congr (a b : Z) :
  a mod 2 ^ 32 = b mod 2 ^ 32 → ToInt32 a = ToInt32 b.
Proof.
  intros H. unfold ToInt32.
  rewrite <- (Zplus_mod_idemp_l a), <- (Zplus_mod_idemp_l b), H.
  reflexivity.
Qed.

Lemma ToInt32_ToUint32 (z : Z) : ToInt32 (ToUint32 z) = ToInt32 z.
Proof. apply ToInt32_congr. unfold ToUint32. apply Z.mod_mod. lia. Qed.

Lemma ToInt32_idem (z : Z) : ToInt32 (ToInt32 z) = ToInt32 z.
Proof. apply ToInt32_congr, ToInt32_mod. Qed.

Lemma ushr_div (a n : Z) :
  0 <= n < 32 → ushr a n = ToUint32 a / 2 ^ n.
Proof.
  intros Hn. unfold ushr.
  rewrite (ToUint32_small n) by lia.
  rewrite (Z.mod_small n) by lia.
  apply Z.shiftr_div_pow2. lia.
Qed.

(** The test [(v & 0xffffff80) === 0] of the encoder. *)
Lemma and_high_bits (v : Z) :
  0 <= v < 2 ^ 32 → and v 0xffffff80 = 0 ↔ v < 128.
Proof.
  intros Hv. unfold and.
  change (ToInt32 4294967168) with (Z.lnot (Z.ones 7)).
  rewrite <- Z.ldiff_land, Z.ldiff_ones_r by lia.
  split.
  - intros H.
    destruct (Z_lt_dec v 128) as [|Hge]; [assumption|exfalso].
    pose proof (ToInt32_range v) as Hr.
    assert (Hw : ToInt32 v mod 2 ^ 32 = v)
      by (rewrite ToInt32_mod; apply Z.mod_small; assumption).
    rewrite Z.shiftl_mul_pow2, Z.shiftr_div_pow2 in H by lia.
    change (2 ^ 7) with 128 in H.
    pose proof (Z.div_mod (ToInt32 v) 128 ltac:(lia)) as Hdm.
    pose proof (Z.mod_pos_bound (ToInt32 v) 128 ltac:(lia)) as Hmb.
    rewrite ToInt32_small in H by lia.
    rewrite Z.mod_small in Hw by lia. lia.
  - intros Hs. rewrite (ToInt32_small v) by lia.
    rewrite Z.shiftr_div_pow2, Z.div_small by lia. reflexivity.
Qed.

Lemma mod32_lor (a b : Z) :
  Z.lor a b mod 2 ^ 32 = Z.lor (a mod 2 ^ 32) (b mod 2 ^ 32).
Proof.
  rewrite <- !Z.land_ones by lia. apply Z.land_lor_distr_l.
Qed.

Lemma mod32_land (a b : Z) :
  Z.land a b mod 2 ^ 32 = Z.land (a mod 2 ^ 32) (b mod 2 ^ 32).
Proof.
  rewrite <- !Z.land_ones by lia.
  rewrite Z.land_assoc, <- (Z.land_assoc a (Z.ones 32)), (Z.land_comm (Z.ones 32)).
  rewrite Z.land_assoc, <- (Z.land_assoc _ (Z.ones 32)), Z.land_diag.
  reflexivity.
Qed.

(** The bitwise operators may be read on unbounded integers, converting to
    int32 once at the end. *)
Lemma or_unbounded (a b : Z) : or a b = ToInt32 (Z.lor a b).
Proof.
  unfold or. apply ToInt32_congr.
  rewrite mod32_lor, !ToInt32_mod, <- mod32_lor. reflexivity.
Qed.

Lemma and_unbounded (a b : Z) : and a b = ToInt32 (Z.land a b).
Proof.
  unfold and. apply ToInt32_congr.
  rewrite mod32_land, !ToInt32_mod, <- mod32_land. reflexivity.
Qed.

Lemma shl_unbounded (a n : Z) :
  0 <= n < 32 → shl a n = ToInt32 (Z.shiftl a n).
Proof.
  intros Hn. unfold shl.
  rewrite (ToUint32_small n), (Z.mod_small n) by lia.
  apply ToInt32_congr.
  rewrite !Z.shiftl_mul_pow2 by lia.
  rewrite <- Zmult_mod_idemp_l, ToInt32_mod, Zmult_mod_idemp_l.
  reflexivity.
Qed.

Lemma ToInt32_lor_l (a b : Z) :
  ToInt32 (Z.lor (ToInt32 a) b) = ToInt32 (Z.lor a b).
Proof.
  apply ToInt32_congr.
  rewrite mod32_lor, ToInt32_mod, <- mod32_lor. reflexivity.
Qed.

Lemma ToInt32_lor_r (a b : Z) :
  ToInt32 (Z.lor a (ToInt32 b)) = ToInt32 (Z.lor a b).
Proof. rewrite Z.lor_comm, ToInt32_lor_l, Z.lor_comm. reflexivity. Qed.

(** [x & 0x7f] keeps the low seven bits. *)
Lemma and_0x7f (x : Z) : and x 0x7f = x mod 128.
Proof.
  rewrite and_unbounded. change 127 with (Z.ones 7).
  rewrite Z.land_ones by lia. change (2 ^ 7) with 128.
  pose proof (Z.mod_pos_bound x 128 ltac:(lia)).
  apply ToInt32_small. lia.
Qed.

(** [d | 0x80] sets the eighth bit of a seven-bit value. *)
Lemma or_0x80 (d : Z) : 0 <= d < 128 → or d 0x80 = d + 128.
Proof.
  intros Hd. rewrite or_unbounded.
  assert (Hl : Z.land d 128 = 0).
  { rewrite <- (Z.mod_small d (2 ^ 7)) by lia.
    rewrite <- Z.land_ones, <- Z.land_assoc by lia. apply Z.land_0_r. }
  pose proof (Z.add_lor_land d 128) as Ha. rewrite Hl in Ha.
  rewrite ToInt32_small; lia.
Qed.

(** [(b & 0x80) !== 0] tests the eighth bit of a byte. *)
Lemma and_0x80 (b : Z) : 0 <= b < 256 → and b 0x80 = 0 ↔ b < 128.
Proof.
  intros Hb. rewrite and_unbounded.
  destruct (Z_lt_dec b 128) as [Hs|Hs].
  - assert (Hl : Z.land b 128 = 0).
    { rewrite <- (Z.mod_small b (2 ^ 7)) by lia.
      rewrite <- Z.land_ones, <- Z.land_assoc by lia. apply Z.land_0_r. }
    rewrite Hl. split; [lia|reflexivity].
  - assert (Hl : Z.land b 128 = 128).
    { replace b with ((b - 128) + 128) by lia.
      assert (Hd : Z.land (b - 128) 128 = 0).
      { rewrite <- (Z.mod_small (b - 128) (2 ^ 7)) by lia.
        rewrite <- Z.land_ones, <- Z.land_assoc by lia. apply Z.land_0_r. }
      pose proof (Z.add_lor_land (b - 128) 128) as Ha. rewrite Hd in Ha.
      rewrite <- Ha, Z.add_0_r, Z.land_comm, Z.land_lor_distr_r.
      rewrite Z.land_diag, (Z.land_comm 128), Hd. reflexivity. }
    rewrite Hl. split; [discriminate|lia].
Qed.

End JsInt.

(** ** Buffers *)

Module Buf.

Definition to_Z (b : byte) : Z := Z.of_N (Byte.to_N b).

(** A number stored into a [Buffer] keeps its low eight bits. *)
Definition of_Z (z : Z) : byte :=
  match Byte.of_N (Z.to_N (z mod 256)) with
  | Some b => b
  | None => "000"%byte
  end.

(** [Buffer.from(array)]. *)
Definition from (bytes : list Z) : list byte := map of_Z bytes.

(** [buf[i]] for an integral index: [None] is [undefined]. *)
Definition get (buf : list byte) (i : Z) : option byte :=
  if i <? 0 then None else buf !! Z.to_nat i.

(** [buf.length]. *)
Definition length (buf : list byte) : Z := Z.of_nat (List.length buf).

(** [adjustOffset(offset, length)] of Node's buffer module, on integers:
    a negative offset counts from the end, and the result lies within
    [0..length]. *)
Definition adjustOffset (offset len : Z) : Z :=
  if offset =? 0 then 0
  else if offset <? 0 then
    let offset := offset + len in
    if 0 <? offset then offset else 0
  else if offset <? len then offset
  else len.

(** [buf.slice(start, end)]. *)
Definition slice (buf : list byte) (start stop : Z) : list byte :=
  let srcLength := length buf in
  let start := adjustOffset start srcLength in
  let stop := adjustOffset stop srcLength in
  let newLength := if start <? stop then stop - start else 0 in
  take (Z.to_nat newLength) (drop (Z.to_nat start) buf).

Lemma to_Z_range (b : byte) : 0 <= to_Z b < 256.
Proof. unfold to_Z. pose proof (Byte.to_N_bounded b). lia. Qed.

Lemma to_of_Z (z : Z) : to_Z (of_Z z) = z mod 256.
Proof.
  unfold to_Z, of_Z.
  pose proof (Z.mod_pos_bound z 256 ltac:(lia)) as Hz.
  destruct (Byte.of_N (Z.to_N (z mod 256))) as [b|] eqn:E.
  - apply Byte.to_of_N in E. rewrite E. lia.
  - apply Byte.of_N_None_iff in E. lia.
Qed.

Lemma get_app_length (pre post : list byte) (b : byte) :
  get (pre ++ b :: post) (length pre) = Some b.
Proof.
  unfold get, length.
  destruct (Z.ltb_spec (Z.of_nat (List.length pre)) 0) as [H|_]; [lia|].
  rewrite Nat2Z.id. apply list_lookup_middle. reflexivity.
Qed.

Lemma slice_from (pre rest : list byte) (n : Z) :
  0 <= n →
  slice (pre ++ rest) (length pre) (length pre + n) = take (Z.to_nat n) rest.
Proof.
  intros Hn. unfold slice, adjustOffset, length.
  rewrite length_app, Nat2Z.inj_add.
  set (a := Z.of_nat (List.length pre)).
  set (b := Z.of_nat (List.length rest)).
  assert (Ha : 0 <= a) by lia. assert (Hb : 0 <= b) by lia.
  assert (Hstart : (if a =? 0 then 0
                    else if a <? 0
                         then if 0 <? a + (a + b) then a + (a + b) else 0
                         else if a <? a + b then a else a + b) = a).
  { destruct (Z.eqb_spec a 0); [lia|].
    destruct (Z.ltb_spec a 0); [lia|].
    destruct (Z.ltb_spec a (a + b)); lia. }
  rewrite Hstart.
  assert (Hstop : (if a + n =? 0 then 0
                   else if a + n <? 0
                        then if 0 <? a + n + (a + b) then a + n + (a + b)
                             else 0
                        else if a + n <? a + b then a + n else a + b)
                  = a + Z.min n b).
  { destruct (Z.eqb_spec (a + n) 0); [lia|].
    destruct (Z.ltb_spec (a + n) 0); [lia|].
    destruct (Z.ltb_spec (a + n) (a + b)); lia. }
  rewrite Hstop.
  replace (Z.to_nat a) with (List.length pre) by (unfold a; lia).
  rewrite drop_app_length.
  destruct (Z.ltb_spec a (a + Z.min n b)) as [Hlt|Hge].
  - replace (a + Z.min n b - a) with (Z.min n b) by lia.
    destruct (Z.le_ge_cases n b).
    + rewrite Z.min_l by lia. reflexivity.
    + rewrite Z.min_r by lia. unfold b. rewrite Nat2Z.id.
      rewrite !take_ge by lia. reflexivity.
  - assert (Hz : n = 0 ∨ b = 0) by lia.
    destruct Hz as [->|Hz]; [reflexivity|].
    assert (rest = []) as -> by (destruct rest; [reflexivity|simpl in *; lia]).
    rewrite !take_nil. reflexivity.
Qed.

End Buf.

(** ** Variable-length integers (poller.js, writeVarInt / readVarInt) *)

Module Varint.

Import JsInt.

(** The [while (true)] loop of [writeVarInt]; [v] is the loop variable and
    [bytes] the array being filled.  The loop ends because [v >>>= 7]
    removes seven bits of [v] whenever a bit above the low seven is set. *)
Definition more_bits (v : Z) : bool := negb (and v 0xffffff80 =? 0).

Lemma more_bits_false (v : Z) :
  0 <= v < 2 ^ 32 → more_bits v = false ↔ v < 128.
Proof.
  intros Hv. unfold more_bits.
  rewrite negb_false_iff, Z.eqb_eq, and_high_bits by assumption.
  reflexivity.
Qed.

Lemma ushr7_lt (v : Z) :
  more_bits v = true →
  (Z.to_nat (Z.log2 (ToUint32 (ushr v 7))) <
     Z.to_nat (Z.log2 (ToUint32 v)))%nat.
Proof.
  intros H.
  pose proof (ToUint32_range v) as Hu.
  assert (Hm : more_bits (ToUint32 v) = true).
  { unfold more_bits, and in *. now rewrite ToInt32_ToUint32. }
  assert (Hge : ¬ ToUint32 v < 128).
  { rewrite <- more_bits_false by assumption. congruence. }
  rewrite ushr_div by lia.
  change (2 ^ 7) with 128.
  assert (0 <= ToUint32 v / 128 < ToUint32 v)
    by (split; [apply Z.div_pos | apply Z.div_lt_upper_bound]; lia).
  rewrite ToUint32_small by lia.
  change 128 with (2 ^ 7). rewrite <- Z.shiftr_div_pow2 by lia.
  rewrite Z.log2_shiftr by lia.
  assert (7 <= Z.log2 (ToUint32 v))
    by (apply (Z.log2_le_pow2 (ToUint32 v) 7); lia).
  lia.
Qed.

Equations? writeVarInt_loop (bytes : list Z) (v : Z) : list byte
  by wf (Z.to_nat (Z.log2 (ToUint32 v))) lt :=
  writeVarInt_loop bytes v with Sumbool.sumbool_of_bool (more_bits v) := {
    | right _ => Buf.from (bytes ++ [v])
    | left H =>
        writeVarInt_loop (bytes ++ [or (and v 0x7f) 0x80]) (ushr v 7) }.
Proof. apply ushr7_lt; assumption. Qed.

(** [writeVarInt(value)] for an integral [value]: [value >>> 0], then the
    loop. *)
Definition writeVarInt (value : Z) : list byte :=
  writeVarInt_loop [] (ushr value 0).

(** What [readVarInt] returns when it does not return [null]. *)
Record varint := { value : Z; size : Z }.

(** [buf[i]] as the operand of [&]: a byte, or [undefined], which the
    operator reads as [0]. *)
Definition byte_at (buf : list byte) (i : Z) : Z :=
  match Buf.get buf i with
  | Some b => Buf.to_Z b
  | None => 0
  end.

(** [result |= (byte & 0x7f) << (7 * numRead)]. *)
Definition accumulate (result byte numRead : Z) : Z :=
  or result (shl (and byte 0x7f) (7 * numRead)).

(** [(byte & 0x80) !== 0]. *)
Definition continues (byte : Z) : bool := negb (and byte 0x80 =? 0).

(** The [do ... while] loop of [readVarInt].  It ends because [numRead]
    grows by one each round and a round that makes it exceed five
    returns. *)
Equations? readVarInt_loop (buf : list byte) (offset numRead result : Z)
  : option varint by wf (Z.to_nat (6 - numRead)) lt :=
  readVarInt_loop buf offset numRead result
    with (offset + numRead >=? Buf.length buf) := {
    | true => None
    | false with Sumbool.sumbool_of_bool (numRead + 1 >? 5) := {
      | left _ => None
      | right H with continues (byte_at buf (offset + numRead)) := {
        | true =>
            readVarInt_loop buf offset (numRead + 1)
              (accumulate result (byte_at buf (offset + numRead)) numRead)
        | false =>
            Some {| value :=
                      accumulate result (byte_at buf (offset + numRead))
                        numRead;
                    size := numRead + 1 |} } } }.
Proof. lia. Qed.

(** [readVarInt(buf, offset = 0)]; [None] is [null]. *)
Definition readVarInt (buf : list byte) (offset : Z) : option varint :=
  readVarInt_loop buf offset 0 0.

(** *** The encoder as a recursion on base-128 digits *)

Lemma writeVarInt_loop_eq (bytes : list Z) (v : Z) :
  writeVarInt_loop bytes v =
    if more_bits v
    then writeVarInt_loop (bytes ++ [or (and v 0x7f) 0x80]) (ushr v 7)
    else Buf.from (bytes ++ [v]).
Proof.
  funelim (writeVarInt_loop bytes v);
    match goal with H : more_bits _ = _ |- _ => rewrite H end; reflexivity.
Qed.

Lemma readVarInt_loop_eq (buf : list byte) (offset numRead result : Z) :
  readVarInt_loop buf offset numRead result =
    if offset + numRead >=? Buf.length buf then None
    else if numRead + 1 >? 5 then None
    else if continues (byte_at buf (offset + numRead))
    then readVarInt_loop buf offset (numRead + 1)
           (accumulate result (byte_at buf (offset + numRead)) numRead)
    else Some {| value := accumulate result (byte_at buf (offset + numRead)) numRead;
                 size := numRead + 1 |}.
Proof.
  funelim (readVarInt_loop buf offset numRead result).
  all: repeat match goal with
         | H : (_ >=? _) = _ |- _ => rewrite H
         | H : (_ >? _) = _ |- _ => rewrite H
         | H : continues _ = _ |- _ => rewrite H
         end; reflexivity.
Qed.

Lemma writeVarInt_loop_acc (bytes : list Z) (v : Z) :
  writeVarInt_loop bytes v = Buf.from bytes ++ writeVarInt_loop [] v.
Proof.
  remember (Z.to_nat (Z.log2 (ToUint32 v))) as n eqn:Hn.
  revert v bytes Hn.
  induction n as [n IH] using lt_wf_ind. intros v bytes ->.
  rewrite (writeVarInt_loop_eq bytes), (writeVarInt_loop_eq []).
  destruct (more_bits v) eqn:E.
  - rewrite (IH _ (ushr7_lt v E) _ (bytes ++ _) eq_refl).
    rewrite (IH _ (ushr7_lt v E) _ ([] ++ _) eq_refl).
    unfold Buf.from. rewrite map_app, <- app_assoc. reflexivity.
  - unfold Buf.from. rewrite map_app. reflexivity.
Qed.

(** The encoder on a uint32, digit by digit. *)
Lemma writeVarInt_loop_digits (v : Z) :
  0 <= v < 2 ^ 32 →
  writeVarInt_loop [] v =
    if v <? 128 then [Buf.of_Z v]
    else Buf.of_Z (v mod 128 + 128) :: writeVarInt_loop [] (v / 128).
Proof.
  intros Hv. rewrite writeVarInt_loop_eq.
  destruct (Z.ltb_spec v 128) as [Hs|Hs].
  - rewrite (proj2 (more_bits_false v Hv)) by assumption. reflexivity.
  - destruct (more_bits v) eqn:E.
    + rewrite writeVarInt_loop_acc.
      rewrite and_0x7f, or_0x80 by (apply Z.mod_pos_bound; lia).
      rewrite ushr_div, ToUint32_small by lia. reflexivity.
    + apply more_bits_false in E; [lia|assumption].
Qed.

Lemma writeVarInt_eq (value : Z) :
  writeVarInt value = writeVarInt_loop [] (ToUint32 value).
Proof.
  unfold writeVarInt. rewrite ushr_div by lia.
  f_equal. apply Z.div_1_r.
Qed.

(** *** The decoder on an encoder's output *)

Lemma accumulate_unbounded (result byte numRead : Z) :
  0 <= numRead <= 4 →
  accumulate result byte numRead =
    ToInt32 (Z.lor result (Z.shiftl (byte mod 128) (7 * numRead))).
Proof.
  intros Hn. unfold accumulate.
  rewrite or_unbounded, shl_unbounded, and_0x7f by lia.
  apply ToInt32_lor_r.
Qed.

Lemma continues_byte (b : Z) :
  0 <= b < 256 → continues b = negb (b <? 128).
Proof.
  intros Hb. unfold continues. f_equal.
  pose proof (and_0x80 b Hb) as Hi.
  destruct (Z.eqb_spec (and b 128) 0), (Z.ltb_spec b 128);
    try reflexivity; exfalso; intuition lia.
Qed.

Lemma split_low7 (v : Z) :
  0 <= v → v = Z.lor (v mod 128) (Z.shiftl (v / 128) 7).
Proof.
  intros Hv.
  change 128 with (2 ^ 7).
  rewrite <- Z.land_ones, <- Z.shiftr_div_pow2, <- Z.ldiff_ones_r by lia.
  rewrite Z.lor_comm. symmetry. apply Z.lor_ldiff_and.
Qed.

Lemma byte_at_middle (pre post : list byte) (b : byte) :
  byte_at (pre ++ b :: post) (0 + Buf.length pre) = Buf.to_Z b.
Proof.
  unfold byte_at. rewrite Z.add_0_l, Buf.get_app_length. reflexivity.
Qed.

Lemma in_buffer_middle (pre post : list byte) (b : byte) :
  (0 + Buf.length pre >=? Buf.length (pre ++ b :: post)) = false.
Proof.
  unfold Buf.length. rewrite length_app. simpl.
  rewrite Z.geb_leb. apply Z.leb_gt. lia.
Qed.

Lemma readVarInt_loop_encoded (k : nat) :
  ∀ (v numRead result : Z) (pre post : list byte),
    0 <= v < 128 ^ (Z.of_nat k + 1) → v < 2 ^ 32 →
    0 <= numRead → numRead + Z.of_nat k <= 4 →
    Buf.length pre = numRead →
    readVarInt_loop (pre ++ writeVarInt_loop [] v ++ post) 0 numRead result =
      Some {| value := ToInt32 (Z.lor result (Z.shiftl v (7 * numRead)));
              size := numRead + Buf.length (writeVarInt_loop [] v) |}.
Proof.
  induction k as [|k IH]; intros v numRead result pre post Hv Hv32 Hn Hk Hpre.
  all: rewrite writeVarInt_loop_digits by lia.
  all: destruct (Z.ltb_spec v 128) as [Hs|Hs]; [|try (simpl in Hv; lia)].
  1,2: subst numRead; simpl app; rewrite readVarInt_loop_eq;
       rewrite in_buffer_middle, byte_at_middle, Buf.to_of_Z;
       rewrite (Z.mod_small v 256) by lia;
       rewrite continues_byte, (proj2 (Z.ltb_lt v 128) Hs) by lia;
       destruct (Z.gtb_spec (Buf.length pre + 1) 5); [lia|]; simpl;
       rewrite accumulate_unbounded, (Z.mod_small v 128) by lia;
       reflexivity.
  assert (Hd : 0 <= v / 128 < 128 ^ (Z.of_nat k + 1)).
  { split; [apply Z.div_pos; lia|].
    apply Z.div_lt_upper_bound; [lia|].
    replace (Z.of_nat (S k) + 1) with (Z.succ (Z.of_nat k + 1)) in Hv by lia.
    rewrite Z.pow_succ_r in Hv by lia. lia. }
  assert (Hd32 : v / 128 < 2 ^ 32) by (apply Z.div_lt_upper_bound; lia).
  pose proof (Z.mod_pos_bound v 128 ltac:(lia)) as Hm.
  subst numRead. simpl app. rewrite readVarInt_loop_eq.
  rewrite in_buffer_middle, byte_at_middle, Buf.to_of_Z.
  rewrite (Z.mod_small (v mod 128 + 128) 256) by lia.
  rewrite continues_byte by lia.
  destruct (Z.ltb_spec (v mod 128 + 128) 128); [lia|].
  destruct (Z.gtb_spec (Buf.length pre + 1) 5); [lia|]. simpl negb. cbv iota.
  change (pre ++ Buf.of_Z (v mod 128 + 128) :: writeVarInt_loop [] (v / 128) ++ post)
    with (pre ++ [Buf.of_Z (v mod 128 + 128)] ++ writeVarInt_loop [] (v / 128) ++ post).
  rewrite (app_assoc pre).
  rewrite (IH (v / 128) (Buf.length pre + 1)) by
    (try lia; unfold Buf.length; rewrite length_app; simpl; lia).
  f_equal. f_equal.
  - rewrite accumulate_unbounded by lia.
    rewrite ToInt32_lor_l.
    replace ((v mod 128 + 128) mod 128) with (v mod 128)
      by (rewrite <- Zplus_mod_idemp_r; change (128 mod 128) with 0;
          rewrite Z.add_0_r, Z.mod_mod; lia).
    rewrite <- Z.lor_assoc. f_equal. f_equal.
    replace (7 * (Buf.length pre + 1)) with (7 + 7 * Buf.length pre) by lia.
    rewrite <- Z.shiftl_shiftl, <- Z.shiftl_lor by lia.
    f_equal. symmetry. apply split_low7. lia.
  - unfold Buf.length. simpl. lia.
Qed.
Lemma writeVarInt_loop_length (k : nat) (v : Z) :
  0 <= v < 128 ^ (Z.of_nat k + 1) → v < 2 ^ 32 →
  1 <= Buf.length (writeVarInt_loop [] v) <= Z.of_nat k + 1.
Proof.
  revert v. induction k as [|k IH]; intros v Hv Hv32.
  all: rewrite writeVarInt_loop_digits by lia.
  all: destruct (Z.ltb_spec v 128) as [Hs|Hs];
    [unfold Buf.length; simpl; lia|try (simpl in Hv; lia)].
  assert (Hd : 0 <= v / 128 < 128 ^ (Z.of_nat k + 1)).
  { split; [apply Z.div_pos; lia|].
    apply Z.div_lt_upper_bound; [lia|].
    replace (Z.of_nat (S k) + 1) with (Z.succ (Z.of_nat k + 1)) in Hv by lia.
    rewrite Z.pow_succ_r in Hv by lia. lia. }
  assert (Hd32 : v / 128 < 2 ^ 32) by (apply Z.div_lt_upper_bound; lia).
  specialize (IH (v / 128) Hd Hd32).
  unfold Buf.length in *. simpl length. lia.
Qed.

(** Decoding what the encoder wrote, whatever follows it in the buffer:
    the value comes back as an int32. *)
Lemma readVarInt_writeVarInt_int32 (v : Z) (post : list byte) :
  readVarInt (writeVarInt v ++ post) 0 =
    Some {| value := ToInt32 v; size := Buf.length (writeVarInt v) |}
  ∧ 1 <= Buf.length (writeVarInt v) <= 5.
Proof.
  rewrite writeVarInt_eq. unfold readVarInt.
  pose proof (ToUint32_range v) as Hu.
  split.
  - change (writeVarInt_loop [] (ToUint32 v) ++ post)
      with ([] ++ writeVarInt_loop [] (ToUint32 v) ++ post).
    rewrite (readVarInt_loop_encoded 4 (ToUint32 v) 0 0 [] post)
      by (try reflexivity; simpl; lia).
    rewrite Z.lor_0_l, Z.shiftl_0_r, ToInt32_ToUint32. reflexivity.
  - apply (writeVarInt_loop_length 4); simpl; lia.
Qed.

(** *** What a non-null result of the decoder implies *)

Lemma readVarInt_loop_Some (buf : list byte) (offset numRead result : Z) :
  ∀ r, readVarInt_loop buf offset numRead result = Some r →
    numRead + 1 <= size r <= 5
    ∧ offset + size r <= Buf.length buf
    ∧ - 2 ^ 31 <= value r < 2 ^ 31
    ∧ continues (byte_at buf (offset + (size r - 1))) = false
    ∧ ∀ i, numRead <= i < size r - 1 →
        continues (byte_at buf (offset + i)) = true.
Proof.
  remember (Z.to_nat (6 - numRead)) as m eqn:Hm.
  revert numRead result Hm.
  induction m as [m IH] using lt_wf_ind. intros numRead result -> r.
  rewrite readVarInt_loop_eq.
  destruct (Z.geb_spec (offset + numRead) (Buf.length buf)) as [|Hlen];
    [discriminate|].
  destruct (Z.gtb_spec (numRead + 1) 5) as [|Hfive]; [discriminate|].
  destruct (continues (byte_at buf (offset + numRead))) eqn:Hc.
  - intros Hr.
    apply (IH (Z.to_nat (6 - (numRead + 1)))) in Hr; [|lia|reflexivity].
    destruct Hr as (Hs & Hl & Hv & Hlast & Hall).
    repeat split; try lia; try assumption.
    intros i Hi. destruct (Z.eq_dec i numRead) as [->|]; [assumption|].
    apply Hall. lia.
  - intros [= <-]. simpl.
    repeat split; try lia.
    + unfold accumulate. rewrite or_unbounded. apply ToInt32_range.
    + unfold accumulate. rewrite or_unbounded. apply ToInt32_range.
    + replace (numRead + 1 - 1) with numRead by lia. assumption.
Qed.

(** *** Reading at an offset *)

Lemma byte_at_app (pre buf : list byte) (i : Z) :
  0 <= i → byte_at (pre ++ buf) (Buf.length pre + i) = byte_at buf i.
Proof.
  intros Hi. unfold byte_at, Buf.get, Buf.length.
  destruct (Z.ltb_spec (Z.of_nat (length pre) + i) 0); [lia|].
  destruct (Z.ltb_spec i 0); [lia|].
  rewrite Z2Nat.inj_add, Nat2Z.id by lia.
  rewrite lookup_app_r by lia.
  replace (length pre + Z.to_nat i - length pre)%nat with (Z.to_nat i) by lia.
  reflexivity.
Qed.

Lemma readVarInt_loop_app (pre buf : list byte) (offset numRead result : Z) :
  0 <= offset → 0 <= numRead →
  readVarInt_loop (pre ++ buf) (Buf.length pre + offset) numRead result =
    readVarInt_loop buf offset numRead result.
Proof.
  intros Hoff.
  remember (Z.to_nat (6 - numRead)) as m eqn:Hm.
  revert numRead result Hm.
  induction m as [m IH] using lt_wf_ind. intros numRead result -> Hn.
  rewrite (readVarInt_loop_eq (pre ++ buf)), (readVarInt_loop_eq buf).
  replace (Buf.length pre + offset + numRead)
    with (Buf.length pre + (offset + numRead)) by lia.
  rewrite byte_at_app by lia.
  assert (Hlen : (Buf.length pre + (offset + numRead)
                    >=? Buf.length (pre ++ buf)) =
                 (offset + numRead >=? Buf.length buf)).
  { unfold Buf.length. rewrite length_app, !Z.geb_leb.
    destruct (Z.leb_spec (Z.of_nat (length buf)) (offset + numRead)),
      (Z.leb_spec (Z.of_nat (length pre + length buf))
         (Z.of_nat (length pre) + (offset + numRead))); lia. }
  rewrite Hlen.
  destruct (offset + numRead >=? Buf.length buf); [reflexivity|].
  destruct (Z.gtb_spec (numRead + 1) 5); [reflexivity|].
  destruct (continues (byte_at buf (offset + numRead))); [|reflexivity].
  apply (IH (Z.to_nat (6 - (numRead + 1)))); lia.
Qed.

(** A varint that the encoder wrote, read back from the middle of a
    buffer. *)
Lemma readVarInt_encoded_at (pre post : list byte) (v : Z) :
  readVarInt (pre ++ writeVarInt v ++ post) (Buf.length pre) =
    Some {| value := ToInt32 v; size := Buf.length (writeVarInt v) |}.
Proof.
  unfold readVarInt.
  replace (Buf.length pre) with (Buf.length pre + 0) at 1 by lia.
  rewrite readVarInt_loop_app by lia.
  apply (readVarInt_writeVarInt_int32 v post).
Qed.

Lemma readVarInt_at (pre buf : list byte) :
  readVarInt (pre ++ buf) (Buf.length pre) = readVarInt buf 0.
Proof.
  unfold readVarInt.
  replace (Buf.length pre) with (Buf.length pre + 0) at 1 by lia.
  apply readVarInt_loop_app; lia.
Qed.

(** *** Claims on the varint codec *)

(** C4 (as amended): for every integer [v] with [0 <= v < 2^31],
    [readVarInt(writeVarInt(v), 0)] returns the value [v] with a size equal
    to the number of bytes [writeVarInt] produced, which is between one and
    five. *)
Theorem readVarInt_writeVarInt_roundtrip (v : Z) :
  0 <= v < 2 ^ 31 →
  readVarInt (writeVarInt v) 0 =
    Some {| value := v; size := Buf.length (writeVarInt v) |}
  ∧ 1 <= Buf.length (writeVarInt v) <= 5.
Proof.
  intros Hv.
  destruct (readVarInt_writeVarInt_int32 v []) as [Hread Hlen].
  rewrite app_nil_r in Hread.
  rewrite ToInt32_small in Hread by lia.
  split; assumption.
Qed.

Lemma readVarInt_writeVarInt_roundtrip_25565 :
  0 <= 25565 < 2 ^ 31
  ∧ readVarInt (writeVarInt 25565) 0 = Some {| value := 25565; size := 3 |}.
Proof.
  split; [lia|].
  exact (proj1 (readVarInt_writeVarInt_roundtrip 25565 ltac:(lia))).
Defined.

(** C4 as stated fails at its upper bound: [2^31] is encoded in five bytes
    whose decoding is the int32 [-2^31], because the decoder accumulates
    with the 32-bit operators [<<] and [|]. *)
Lemma readVarInt_writeVarInt_2_31 :
  0 <= 2 ^ 31 <= 2 ^ 31
  ∧ map Buf.to_Z (writeVarInt (2 ^ 31)) = [0x80; 0x80; 0x80; 0x80; 0x08]
  ∧ readVarInt (writeVarInt (2 ^ 31)) 0 =
      Some {| value := - 2 ^ 31; size := 5 |}
  ∧ readVarInt (writeVarInt (2 ^ 31)) 0 ≠
      Some {| value := 2 ^ 31; size := Buf.length (writeVarInt (2 ^ 31)) |}.
Proof.
  split; [lia|]. split; [reflexivity|]. split; [reflexivity|].
  vm_compute. discriminate.
Qed.

(** C10: [readVarInt] returns for every buffer and every integral offset
    (the recursion above is well founded), and what it returns is either
    [null] or a record with an int32 value and a size between one and five
    that lies inside the buffer.  It returns [null] whenever every byte from
    [offset] to the end of the buffer carries the continuation flag (the
    buffer ends before the varint does), and whenever the five bytes at
    [offset] all carry the continuation flag (a sixth byte would be
    needed). *)
Theorem readVarInt_null_on_malformed (buf : list byte) (offset : Z) :
  (readVarInt buf offset = None
   ∨ ∃ r, readVarInt buf offset = Some r
          ∧ 1 <= size r <= 5
          ∧ - 2 ^ 31 <= value r < 2 ^ 31
          ∧ offset + size r <= Buf.length buf)
  ∧ (0 <= offset →
     (∀ i, offset <= i < Buf.length buf → continues (byte_at buf i) = true) →
     readVarInt buf offset = None)
  ∧ ((∀ i, 0 <= i < 5 → continues (byte_at buf (offset + i)) = true) →
     readVarInt buf offset = None).
Proof.
  unfold readVarInt.
  destruct (readVarInt_loop buf offset 0 0) as [r|] eqn:E.
  - apply readVarInt_loop_Some in E.
    destruct E as (Hs & Hl & Hv & Hlast & _).
    split; [right; exists r; repeat split; try reflexivity; lia|].
    split.
    + intros Hoff Hall. rewrite Hall in Hlast by lia. discriminate.
    + intros Hall. rewrite Hall in Hlast by lia. discriminate.
  - split; [left; reflexivity|]. split; reflexivity.
Qed.

Lemma readVarInt_null_on_malformed_examples :
  readVarInt (Buf.from [0x80; 0x80]) 0 = None
  ∧ readVarInt (Buf.from [0xff; 0xff; 0xff; 0xff; 0xff; 0x01]) 0 = None.
Proof.
  split.
  - apply (proj1 (proj2 (readVarInt_null_on_malformed
                           (Buf.from [0x80; 0x80]) 0))); [lia|].
    intros i Hi. change (Buf.length (Buf.from [128; 128])) with 2 in Hi.
    assert (Hc : i = 0 ∨ i = 1) by lia.
    destruct Hc as [->| ->]; reflexivity.
  - apply (proj2 (proj2 (readVarInt_null_on_malformed
                           (Buf.from [0xff; 0xff; 0xff; 0xff; 0xff; 0x01])
                           0))).
    intros i Hi.
    assert (Hc : i = 0 ∨ i = 1 ∨ i = 2 ∨ i = 3 ∨ i = 4) by lia.
    destruct Hc as [->|[->|[->|[->| ->]]]]; reflexivity.
Defined.

End Varint.

(** ** JavaScript values and the host built-ins *)

Module Js.

(** A JavaScript number is a binary64 float; [SpecFloat.spec_float] is its
    data, without NaN payloads. *)
Abbreviation number := spec_float.

#[global] Instance number_eq_dec : EqDecision number.
Proof. solve_decision. Defined.

Definition NaN : number := S754_nan.
Definition zero : number := S754_zero false.

(** The number of an integer (rounded to nearest-even when it has more
    than 53 significant bits). *)
Definition num (z : Z) : number := binary_normalize 53 1024 z 0 false.

(** Values that [JSON.parse] can produce, and [undefined].  A string is
    held as the bytes of its UTF-8 form; an object is the list of its own
    properties in insertion order, the first binding of a key being the
    property. *)
Inductive value : Type :=
| VUndefined
| VNull
| VBool (b : bool)
| VNumber (n : number)
| VString (s : string)
| VArray (elems : list value)
| VObject (props : list (string * value)).

(** What a [throw] carries. *)
Inductive error : Type :=
| TypeError
| SyntaxError
| RangeError
| Error (message : string)
| SystemError (code : string).

(** The outcome of evaluating an expression or of a function call. *)
Inductive completion (A : Type) : Type :=
| Return (a : A)
| Throw (e : error).
Arguments Return {A} a.
Arguments Throw {A} e.

#[global] Instance completion_ret : MRet completion := @Return.
#[global] Instance completion_bind : MBind completion :=
  λ A B f c, match c with Return a => f a | Throw e => Throw e end.

Definition returns {A} (c : completion A) : Prop := ∃ a, c = Return a.

(** The built-ins of the host that the poller calls and that are not
    arithmetic on the values above. *)
Class Host := {
  (** [JSON.parse(text)]; [None] when it throws a [SyntaxError]. *)
  JSON_parse : string → option value;
  (** [buf.toString('utf8')]. *)
  Buffer_toString : list byte → string;
  (** The StringToNumber conversion behind [Number(string)]. *)
  StringToNumber : string → number;
  (** The Number::toString conversion behind [String(number)]. *)
  NumberToString : number → string;
  (** [String.prototype.toLowerCase] and [String.prototype.trim]. *)
  String_toLowerCase : string → string;
  String_trim : string → string;
  (** [JSON.stringify(v, null, 2)] of a value other than [undefined]. *)
  JSON_stringify : value → string;
}.

(** *** Own properties *)

Module Obj.

Fixpoint get (props : list (string * value)) (k : string) : value :=
  match props with
  | [] => VUndefined
  | (k', v) :: rest => if String.eqb k' k then v else get rest k
  end.

Definition has (props : list (string * value)) (k : string) : bool :=
  existsb (λ kv, String.eqb (fst kv) k) props.

(** [CreateDataProperty]: replace the binding in place, or append. *)
Fixpoint set (props : list (string * value)) (k : string) (v : value)
  : list (string * value) :=
  match props with
  | [] => [(k, v)]
  | (k', v') :: rest =>
      if String.eqb k' k then (k, v) :: rest else (k', v') :: set rest k v
  end.

(** [delete o[k]]. *)
Fixpoint delete (props : list (string * value)) (k : string)
  : list (string * value) :=
  match props with
  | [] => []
  | (k', v') :: rest =>
      if String.eqb k' k then delete rest k else (k', v') :: delete rest k
  end.

End Obj.

(** *** Operators *)

(** ToBoolean. *)
Definition truthy (v : value) : bool :=
  match v with
  | VUndefined | VNull => false
  | VBool b => b
  | VNumber (S754_zero _) | VNumber S754_nan => false
  | VNumber _ => true
  | VString s => negb (String.eqb s "")
  | VArray _ | VObject _ => true
  end.

(** [a || b] on values. *)
Definition or_else (a b : value) : value := if truthy a then a else b.

Definition is_string (v : value) : bool :=
  match v with VString _ => true | _ => false end.

Definition is_nullish (v : value) : bool :=
  match v with VUndefined | VNull => true | _ => false end.

(** [Number.isFinite(v)]: false on everything that is not a number. *)
Definition Number_isFinite (v : value) : bool :=
  match v with
  | VNumber (S754_zero _) | VNumber (S754_finite _ _ _) => true
  | _ => false
  end.

(** [n > 0] on numbers. *)
Definition gt0 (n : number) : bool := SFltb zero n.

(** The property names the poller reads.  None of them is a property of a
    built-in prototype, so reading one from a value that is not [null] or
    [undefined] yields the own property of an object and [undefined] from
    anything else. *)
Inductive field : Type :=
| f_id | f_enabled | f_ip | f_host | f_port | f_url | f_timeoutMs
| f_online | f_players | f_version | f_max | f_name | f_lastCheckAt.

Definition field_name (f : field) : string :=
  match f with
  | f_id => "id" | f_enabled => "enabled" | f_ip => "ip" | f_host => "host"
  | f_port => "port" | f_url => "url" | f_timeoutMs => "timeoutMs"
  | f_online => "online" | f_players => "players" | f_version => "version"
  | f_max => "max" | f_name => "name" | f_lastCheckAt => "lastCheckAt"
  end.

(** [v.f] where [v] is known not to be [null] or [undefined]. *)
Definition own (v : value) (f : field) : value :=
  match v with
  | VObject props => Obj.get props (field_name f)
  | _ => VUndefined
  end.

(** [v.f]: a [TypeError] on [null] and [undefined]. *)
Definition get (v : value) (f : field) : completion value :=
  if is_nullish v then Throw TypeError else Return (own v f).

(** [v?.f]. *)
Definition get_opt (v : value) (f : field) : value :=
  if is_nullish v then VUndefined else own v f.

Section Conversions.
Context `{Host}.

(** ToString.  An array is joined with commas ([null] and [undefined]
    elements are empty); an object built by [JSON.parse] inherits
    [Object.prototype.toString] unless it has an own property [toString],
    which is then not callable, and neither [valueOf] yields a primitive:
    the conversion throws a [TypeError]. *)
Fixpoint ToString (v : value) : completion string :=
  match v with
  | VUndefined => Return "undefined"
  | VNull => Return "null"
  | VBool true => Return "true"
  | VBool false => Return "false"
  | VNumber n => Return (NumberToString n)
  | VString s => Return s
  | VArray elems =>
      parts ← (fix join (l : list value) : completion (list string) :=
                 match l with
                 | [] => Return []
                 | e :: rest =>
                     s ← (if is_nullish e then Return "" else ToString e);
                     ss ← join rest;
                     Return (s :: ss)
                 end) elems;
      Return (String.concat "," parts)
  | VObject props =>
      if Obj.has props "toString" then Throw TypeError
      else Return "[object Object]"
  end.

(** [Number(v)], that is ToNumber. *)
Definition Number (v : value) : completion number :=
  match v with
  | VUndefined => Return NaN
  | VNull => Return zero
  | VBool true => Return (num 1)
  | VBool false => Return zero
  | VNumber n => Return n
  | VString s => Return (StringToNumber s)
  | VArray _ | VObject _ => s ← ToString v; Return (StringToNumber s)
  end.

End Conversions.

(** Values on which no conversion can throw. *)
Definition scalar (v : value) : bool :=
  match v with VArray _ | VObject _ => false | _ => true end.

Lemma Number_scalar `{Host} (v : value) :
  scalar v = true → returns (Number v).
Proof.
  destruct v as [| |[]| | | |]; try discriminate; intros _; eexists; reflexivity.
Qed.

End Js.

(** ** Target descriptors and the checker router *)

Module Router.

Import Js.

(** What a check returns: [{ online, rttMs?, players?, version?,
    disabled?, skipped? }].  An absent marker is [false], an absent optional
    field [None]. *)
Record CheckResult := {
  online : bool;
  rttMs : option Z;
  players : option value;
  version : option value;
  disabled : bool;
  skipped : bool;
}.

Definition offline : CheckResult :=
  {| online := false; rttMs := None; players := None; version := None;
     disabled := false; skipped := false |}.

Definition DEFAULT_TIMEOUT_MS : number := num 3500.

Section WithHost.
Context `{Host}.

(** [isEnabled(server)]; [server?.enabled] never throws. *)
Definition isEnabled (server : value) : bool :=
  let v := get_opt server f_enabled in
  if is_nullish v then true
  else match v with
       | VBool false => false
       | VString s =>
           if String.eqb (String_toLowerCase s) "false" then false else true
       | VNumber n => if SFeqb n zero then false else true
       | _ => true
       end.

(** [{ host, port }] of [pickHostPort]; [port] is a number or
    [undefined]. *)
Record HostPort := { hp_host : value; hp_port : option number }.

(** [pickHostPort(server)]. *)
Definition pickHostPort (server : value) : completion HostPort :=
  ip ← get server f_ip;
  host ← get server f_host;
  port ← get server f_port;
  let host :=
    or_else (or_else ip host)
      (if truthy port then VString "127.0.0.1" else VUndefined) in
  port ← match port with
         | VUndefined => Return None
         | _ => n ← Number port; Return (Some n)
         end;
  Return {| hp_host := host; hp_port := port |}.

(** [typeof server.url === 'string' && server.url.startsWith('http')]. *)
Definition usable_url (url : value) : bool :=
  match url with
  | VString s => String.prefix "http" s
  | _ => false
  end.

(** [h && Number.isFinite(p) && p > 0] as a boolean. *)
Definition usable_host_port (hp : HostPort) : bool :=
  truthy (hp_host hp) &&
  match hp_port hp with
  | Some p => Number_isFinite (VNumber p) && gt0 p
  | None => false
  end.

(** [shouldSkipPoll(server)]. *)
Definition shouldSkipPoll (server : value) : completion bool :=
  ip ← get server f_ip;
  host ← get server f_host;
  let host := or_else ip host in
  match host with
  | VString "0.0.0.0" => Return true
  | _ =>
      url ← get server f_url;
      let hasUrl := usable_url url in
      hp ← pickHostPort server;
      let hasHostPort := usable_host_port hp in
      Return (negb (hasUrl || hasHostPort))
  end.

(** The three answers of the router. *)
Inductive checker : Type := http | tcp | none.

(** [chooseChecker(server)]. *)
Definition chooseChecker (server : value) : completion checker :=
  url ← get server f_url;
  if usable_url url then Return http
  else
    hp ← pickHostPort server;
    if usable_host_port hp then Return tcp
    else Return none.

(** What [runCheck] does once it has looked at the descriptor: return a
    result at once, or hand over to a checker that opens a connection. *)
Inductive action : Type :=
| Done (r : CheckResult)
| CheckHttp (url : value) (timeoutMs : number)
| CheckTcp (hp : HostPort) (timeoutMs : number).

(** [runCheck(server)] up to the call of a checker. *)
Definition runCheck (server : value) : completion action :=
  t ← get server f_timeoutMs;
  n ← Number t;
  let timeoutMs := if gt0 n then n else DEFAULT_TIMEOUT_MS in
  if negb (isEnabled server) then
    Return (Done {| online := false; rttMs := None; players := None;
                    version := None; disabled := true; skipped := false |})
  else
    skip ← shouldSkipPoll server;
    if (skip : bool) then
      Return (Done {| online := false; rttMs := None; players := None;
                      version := None; disabled := false; skipped := true |})
    else
      c ← chooseChecker server;
      match c with
      | http => url ← get server f_url; Return (CheckHttp url timeoutMs)
      | tcp => hp ← pickHostPort server; Return (CheckTcp hp timeoutMs)
      | none => Return (Done offline)
      end.

End WithHost.

End Router.

(** ** A reference host

    An executable rendering of the built-ins of [Js.Host], used to run the
    embedding on concrete inputs.  No theorem about the poller depends on
    it: they hold for every host.  Strings are UTF-8 bytes; text is decoded
    as the WHATWG decoder does; [toLowerCase] folds the ASCII letters and
    leaves other characters as they are. *)

Module RefHost.

Import Js.

Local Open Scope char_scope.
Local Open Scope Z_scope.

Definition code (c : ascii) : Z := Z.of_N (N_of_ascii c).
Definition char_of (z : Z) : ascii := ascii_of_N (Z.to_N z).

Definition in_range (lo hi : Z) (c : ascii) : bool :=
  (lo <=? code c) && (code c <=? hi).

Definition is_digit : ascii → bool := in_range 48 57.

(** *** Decimal numerals to binary64 *)

(** The binary64 nearest to [m * 10^e10] for [0 <= m], with the sign
    [neg].  A negative exponent is a division: the quotient is taken with at
    least 64 bits and a sticky bit, then rounded once. *)
Definition decimal_to_number (neg : bool) (m e10 : Z) : number :=
  if m =? 0 then S754_zero neg
  else
    let mag :=
      if 0 <=? e10 then binary_normalize 53 1024 (m * 10 ^ e10) 0 false
      else
        let d := 10 ^ (- e10) in
        let s := Z.max 0 (Z.log2 d + 64 - Z.log2 m) in
        let q := (m * 2 ^ s) / d in
        let sticky := if (m * 2 ^ s) mod d =? 0 then 0 else 1 in
        binary_normalize 53 1024 (2 * q + sticky) (- (s + 1)) false in
    if neg then SFopp mag else mag.

(** A run of decimal digits: its value, its length and what follows. *)
Fixpoint scan_digits (l : list ascii) (acc : Z) (n : Z)
  : Z * Z * list ascii :=
  match l with
  | c :: rest =>
      if is_digit c then scan_digits rest (10 * acc + (code c - 48)) (n + 1)
      else (acc, n, l)
  | [] => (acc, n, [])
  end.

(** An optional exponent part [e[+-]digits]; [None] when an [e] is not
    followed by digits. *)
Definition scan_exponent (l : list ascii) : option (Z * list ascii) :=
  match l with
  | ("e" | "E") :: rest =>
      let '(neg, rest) :=
        match rest with
        | "-" :: r => (true, r)
        | "+" :: r => (false, r)
        | _ => (false, rest)
        end in
      let '(e, n, rest) := scan_digits rest 0 0 in
      if n =? 0 then None else Some (if neg then - e else e, rest)
  | _ => Some (0, l)
  end.

(** *** [JSON.parse] *)

Definition is_json_ws (c : ascii) : bool :=
  match c with
  | " " | "009" | "010" | "013" => true
  | _ => false
  end.

Fixpoint skip_ws (l : list ascii) : list ascii :=
  match l with
  | c :: rest => if is_json_ws c then skip_ws rest else l
  | [] => []
  end.

(** A JSON number: an optional minus sign, an integer part without
    leading zeros, an optional fraction and an optional exponent. *)
Definition parse_number (l : list ascii) : option (number * list ascii) :=
  let '(neg, l) := match l with "-" :: r => (true, r) | _ => (false, l) end in
  let '(i, ni, rest) := scan_digits l 0 0 in
  let leading_zero :=
    match l with "0" :: _ => 1 <? ni | _ => false end in
  if (ni =? 0) || leading_zero then None
  else
    let frac :=
      match rest with
      | "." :: r =>
          let '(f, nf, r) := scan_digits r i 0 in
          if nf =? 0 then None else Some (f, nf, r)
      | _ => Some (i, 0, rest)
      end in
    match frac with
    | None => None
    | Some (m, nf, rest) =>
        match scan_exponent rest with
        | None => None
        | Some (e, rest) => Some (decimal_to_number neg m (e - nf), rest)
        end
    end.

Definition hex_digit (c : ascii) : option Z :=
  if is_digit c then Some (code c - 48)
  else if in_range 97 102 c then Some (code c - 87)
  else if in_range 65 70 c then Some (code c - 55)
  else None.

Definition hex4 (a b c d : ascii) : option Z :=
  match hex_digit a, hex_digit b, hex_digit c, hex_digit d with
  | Some a, Some b, Some c, Some d => Some (((a * 16 + b) * 16 + c) * 16 + d)
  | _, _, _, _ => None
  end.

(** The UTF-8 bytes of a code point (a lone surrogate is written in the
    same three-byte form). *)
Definition utf8_encode (cp : Z) : list ascii :=
  if cp <? 0x80 then [char_of cp]
  else if cp <? 0x800 then
    [char_of (0xC0 + cp / 64); char_of (0x80 + cp mod 64)]
  else if cp <? 0x10000 then
    [char_of (0xE0 + cp / 4096); char_of (0x80 + cp / 64 mod 64);
     char_of (0x80 + cp mod 64)]
  else
    [char_of (0xF0 + cp / 262144); char_of (0x80 + cp / 4096 mod 64);
     char_of (0x80 + cp / 64 mod 64); char_of (0x80 + cp mod 64)].

(** The characters of a JSON string after its opening quote. *)
Fixpoint parse_string (l : list ascii) (acc : list ascii)
  : option (string * list ascii) :=
  match l with
  | [] => None
  | "034" :: rest => Some (String.string_of_list_ascii (rev acc), rest)
  | "\" :: "u" :: a :: b :: c :: d :: rest =>
      match hex4 a b c d with
      | None => None
      | Some hi =>
          match rest with
          | "\" :: "u" :: a' :: b' :: c' :: d' :: rest' =>
              match hex4 a' b' c' d' with
              | Some lo =>
                  if (0xD800 <=? hi) && (hi <? 0xDC00)
                     && (0xDC00 <=? lo) && (lo <? 0xE000)
                  then
                    let cp := 0x10000 + (hi - 0xD800) * 1024 + (lo - 0xDC00) in
                    parse_string rest' (rev (utf8_encode cp) ++ acc)
                  else parse_string rest (rev (utf8_encode hi) ++ acc)
              | None => parse_string rest (rev (utf8_encode hi) ++ acc)
              end
          | _ => parse_string rest (rev (utf8_encode hi) ++ acc)
          end
      end
  | "\" :: e :: rest =>
      match e with
      | "034" | "\" | "/" => parse_string rest (e :: acc)
      | "b" => parse_string rest ("008" :: acc)
      | "f" => parse_string rest ("012" :: acc)
      | "n" => parse_string rest ("010" :: acc)
      | "r" => parse_string rest ("013" :: acc)
      | "t" => parse_string rest ("009" :: acc)
      | _ => None
      end
  | c :: rest =>
      if code c <? 32 then None else parse_string rest (c :: acc)
  end.

Definition expect (word : list ascii) (v : value) (l : list ascii)
  : option (value * list ascii) :=
  if decide (take (length word) l = word)
  then Some (v, drop (length word) l) else None.

(** A JSON value at the head of [l] (no leading white space); each
    recursive call consumes a character, so [fuel] above the length of the
    text is never used up. *)
Fixpoint parse_value (fuel : nat) (l : list ascii)
  : option (value * list ascii) :=
  match fuel with
  | O => None
  | S fuel =>
      match l with
      | "n" :: _ => expect ["n"; "u"; "l"; "l"] VNull l
      | "t" :: _ => expect ["t"; "r"; "u"; "e"] (VBool true) l
      | "f" :: _ => expect ["f"; "a"; "l"; "s"; "e"] (VBool false) l
      | "034" :: rest =>
          match parse_string rest [] with
          | Some (s, rest) => Some (VString s, rest)
          | None => None
          end
      | "[" :: rest =>
          match skip_ws rest with
          | "]" :: rest => Some (VArray [], rest)
          | rest => parse_elements fuel rest []
          end
      | "{" :: rest =>
          match skip_ws rest with
          | "}" :: rest => Some (VObject [], rest)
          | rest => parse_members fuel rest []
          end
      | _ =>
          match parse_number l with
          | Some (n, rest) => Some (VNumber n, rest)
          | None => None
          end
      end
  end
with parse_elements (fuel : nat) (l : list ascii) (acc : list value)
  : option (value * list ascii) :=
  match fuel with
  | O => None
  | S fuel =>
      match parse_value fuel l with
      | None => None
      | Some (v, rest) =>
          match skip_ws rest with
          | "," :: rest => parse_elements fuel (skip_ws rest) (v :: acc)
          | "]" :: rest => Some (VArray (rev (v :: acc)), rest)
          | _ => None
          end
      end
  end
with parse_members (fuel : nat) (l : list ascii)
       (acc : list (string * value)) : option (value * list ascii) :=
  match fuel with
  | O => None
  | S fuel =>
      match l with
      | "034" :: rest =>
          match parse_string rest [] with
          | None => None
          | Some (k, rest) =>
              match skip_ws rest with
              | ":" :: rest =>
                  match parse_value fuel (skip_ws rest) with
                  | None => None
                  | Some (v, rest) =>
                      match skip_ws rest with
                      | "," :: rest =>
                          parse_members fuel (skip_ws rest) (Obj.set acc k v)
                      | "}" :: rest => Some (VObject (Obj.set acc k v), rest)
                      | _ => None
                      end
                  end
              | _ => None
              end
          end
      | _ => None
      end
  end.

Definition JSON_parse (text : string) : option value :=
  let l := String.list_ascii_of_string text in
  match parse_value (2 * length l + 2) (skip_ws l) with
  | Some (v, rest) =>
      match skip_ws rest with [] => Some v | _ => None end
  | None => None
  end.

(** *** [String.prototype.trim] and [toLowerCase] *)

(** The UTF-8 forms of the WhiteSpace and LineTerminator code points. *)
Definition white_space : list (list ascii) :=
  [["009"]; ["010"]; ["011"]; ["012"]; ["013"]; [" "];
   ["194"; "160"]; ["225"; "154"; "128"];
   ["226"; "128"; "128"]; ["226"; "128"; "129"]; ["226"; "128"; "130"];
   ["226"; "128"; "131"]; ["226"; "128"; "132"]; ["226"; "128"; "133"];
   ["226"; "128"; "134"]; ["226"; "128"; "135"]; ["226"; "128"; "136"];
   ["226"; "128"; "137"]; ["226"; "128"; "138"]; ["226"; "128"; "168"];
   ["226"; "128"; "169"]; ["226"; "128"; "175"]; ["226"; "129"; "159"];
   ["227"; "128"; "128"]; ["239"; "187"; "191"]].

(** [l] without one leading run of [w], if it starts with it. *)
Definition strip_prefix (w l : list ascii) : option (list ascii) :=
  if decide (take (length w) l = w) then Some (drop (length w) l) else None.

Definition strip_one (ws : list (list ascii)) (l : list ascii)
  : option (list ascii) :=
  fold_right (λ w r, match strip_prefix w l with Some l' => Some l' | None => r end)
    None ws.

Fixpoint strip_leading (fuel : nat) (ws : list (list ascii)) (l : list ascii)
  : list ascii :=
  match fuel with
  | O => l
  | S fuel =>
      match strip_one ws l with
      | Some l' => strip_leading fuel ws l'
      | None => l
      end
  end.

Definition trim_chars (l : list ascii) : list ascii :=
  let l := strip_leading (length l) white_space l in
  rev (strip_leading (length l) (map (@rev ascii) white_space) (rev l)).

Definition String_trim (s : string) : string :=
  String.string_of_list_ascii (trim_chars (String.list_ascii_of_string s)).

Definition lower (c : ascii) : ascii :=
  if in_range 65 90 c then char_of (code c + 32) else c.

Definition String_toLowerCase (s : string) : string :=
  String.string_of_list_ascii (map lower (String.list_ascii_of_string s)).

(** *** StringToNumber *)

Fixpoint scan_radix (radix : Z) (l : list ascii) (acc : Z) (n : Z)
  : option (Z * Z) :=
  match l with
  | [] => Some (acc, n)
  | c :: rest =>
      match hex_digit c with
      | Some d =>
          if d <? radix then scan_radix radix rest (radix * acc + d) (n + 1)
          else None
      | None => None
      end
  end.

Definition non_decimal (radix : Z) (l : list ascii) : number :=
  match scan_radix radix l 0 0 with
  | Some (v, n) => if n =? 0 then NaN else num v
  | None => NaN
  end.

Definition str_decimal (l : list ascii) : number :=
  let '(neg, l) :=
    match l with
    | "-" :: r => (true, r)
    | "+" :: r => (false, r)
    | _ => (false, l)
    end in
  if decide (l = String.list_ascii_of_string "Infinity")
  then S754_infinity neg
  else
    let '(i, ni, rest) := scan_digits l 0 0 in
    let '(m, nf, rest) :=
      match rest with
      | "." :: r => scan_digits r i 0
      | _ => (i, 0, rest)
      end in
    if (ni =? 0) && (nf =? 0) then NaN
    else match scan_exponent rest with
         | Some (e, []) => decimal_to_number neg m (e - nf)
         | _ => NaN
         end.

Definition StringToNumber (s : string) : number :=
  match trim_chars (String.list_ascii_of_string s) with
  | [] => zero
  | "0" :: ("x" | "X") :: l => non_decimal 16 l
  | "0" :: ("o" | "O") :: l => non_decimal 8 l
  | "0" :: ("b" | "B") :: l => non_decimal 2 l
  | l => str_decimal l
  end.

(** *** Number::toString *)

(** The decimal digits of a non-negative integer, most significant first. *)
Fixpoint digits_of (fuel : nat) (z : Z) (acc : list ascii) : list ascii :=
  match fuel with
  | O => acc
  | S fuel =>
      let acc := char_of (48 + z mod 10) :: acc in
      if z <? 10 then acc else digits_of fuel (z / 10) acc
  end.

Definition decimal (z : Z) : list ascii :=
  digits_of (S (Z.to_nat (Z.log2 z))) z [].

(** [m * 2^e] against [10^k]. *)
Definition compare_pow10 (m e k : Z) : comparison :=
  let '(a, b) := (m * 2 ^ Z.max 0 e * 10 ^ Z.max 0 (- k),
                  2 ^ Z.max 0 (- e) * 10 ^ Z.max 0 k) in
  a ?= b.

(** The [n] with [10^(n-1) <= m * 2^e < 10^n], from an estimate that is
    off by at most two. *)
Definition decimal_exponent (m e : Z) : Z :=
  let est := (Z.log2 m + e) * 30103 / 100000 in
  let n := est - 1 in
  let up n := match compare_pow10 m e n with Lt => n | _ => n + 1 end in
  up (up (up (up n))).

(** The shortest digit string [s] of length [k] with [s * 10^(n-k)]
    rounding to [x = m * 2^e]; of two, the one nearer to [x]. *)
Fixpoint shortest (fuel : nat) (k : Z) (x : number) (m e n : Z) : Z * Z :=
  let num := m * 2 ^ Z.max 0 e * 10 ^ Z.max 0 (k - n) in
  let den := 2 ^ Z.max 0 (- e) * 10 ^ Z.max 0 (n - k) in
  let lo := num / den in
  let hi := lo + 1 in
  let ok s := bool_decide (decimal_to_number false s (n - k) = x) in
  let lo_nearer := 2 * num - (2 * lo + 1) * den <? 0 in
  match fuel with
  | O => (lo, k)
  | S fuel =>
      if ok lo && (negb (ok hi) || lo_nearer) then (lo, k)
      else if ok hi then (hi, k)
      else shortest fuel (k + 1) x m e n
  end.

Fixpoint strip_zeros (fuel : nat) (s k : Z) : Z * Z :=
  match fuel with
  | O => (s, k)
  | S fuel =>
      if (1 <? k) && (s mod 10 =? 0) then strip_zeros fuel (s / 10) (k - 1)
      else (s, k)
  end.

Definition zeros (n : Z) : list ascii := repeat "0" (Z.to_nat n).

Definition format_finite (s k n : Z) : list ascii :=
  let ds := decimal s in
  if (k <=? n) && (n <=? 21) then ds ++ zeros (n - k)
  else if (0 <? n) && (n <=? 21) then
    take (Z.to_nat n) ds ++ ["."] ++ drop (Z.to_nat n) ds
  else if (-6 <? n) && (n <=? 0) then ["0"; "."] ++ zeros (- n) ++ ds
  else
    let exponent :=
      (if 0 <=? n - 1 then ["e"; "+"] else ["e"; "-"])
        ++ decimal (Z.abs (n - 1)) in
    if k =? 1 then ds ++ exponent
    else take 1 ds ++ ["."] ++ drop 1 ds ++ exponent.

Definition NumberToString (x : number) : string :=
  match x with
  | S754_nan => "NaN"%string
  | S754_zero _ => "0"%string
  | S754_infinity false => "Infinity"%string
  | S754_infinity true => "-Infinity"%string
  | S754_finite neg m e =>
      let n := decimal_exponent (Z.pos m) e in
      let '(s, k) := shortest 17 1 (S754_finite false m e) (Z.pos m) e n in
      (* a candidate that rounded up to a power of ten has one digit more *)
      let n := if 10 ^ k <=? s then n + 1 else n in
      let k := if 10 ^ k <=? s then k + 1 else k in
      let '(s, k) := strip_zeros 20 s k in
      String.string_of_list_ascii
        ((if neg then ["-"] else []) ++ format_finite s k n)
  end.

(** *** [Buffer.prototype.toString('utf8')] *)

Definition replacement : list ascii := ["239"; "191"; "189"].

(** What a byte starts in the initial state of the decoder: a character of
    its own, a sequence that needs [needed] more bytes, the first within
    [lo..hi], or an error. *)
Definition lead (c : ascii) : option (nat * Z * Z) :=
  if in_range 0xC2 0xDF c then Some (1%nat, 0x80, 0xBF)
  else if in_range 0xE0 0xE0 c then Some (2%nat, 0xA0, 0xBF)
  else if in_range 0xED 0xED c then Some (2%nat, 0x80, 0x9F)
  else if in_range 0xE1 0xEF c then Some (2%nat, 0x80, 0xBF)
  else if in_range 0xF0 0xF0 c then Some (3%nat, 0x90, 0xBF)
  else if in_range 0xF4 0xF4 c then Some (3%nat, 0x80, 0x8F)
  else if in_range 0xF1 0xF3 c then Some (3%nat, 0x80, 0xBF)
  else None.

(** The decoder as a state machine over the bytes: [pending] holds the
    bytes of the sequence being read (in reverse), [needed] how many are
    still to come. *)
Fixpoint utf8_decode (pending : list ascii) (needed : nat) (lo hi : Z)
  (l : list ascii) : list ascii :=
  let start c rest :=
    if code c <? 0x80 then c :: utf8_decode [] 0 0 0 rest
    else match lead c with
         | Some (k, lo, hi) => utf8_decode [c] k lo hi rest
         | None => replacement ++ utf8_decode [] 0 0 0 rest
         end in
  match l with
  | [] => match needed with O => [] | S _ => replacement end
  | c :: rest =>
      match needed with
      | O => start c rest
      | S k =>
          if in_range lo hi c then
            match k with
            | O => rev (c :: pending) ++ utf8_decode [] 0 0 0 rest
            | S _ => utf8_decode (c :: pending) k 0x80 0xBF rest
            end
          else replacement ++ start c rest
      end
  end.

Definition Buffer_toString (buf : list byte) : string :=
  String.string_of_list_ascii
    (utf8_decode [] 0 0 0 (map ascii_of_byte buf)).

(** *** [JSON.stringify(v, null, 2)] *)

Definition hex_char (d : Z) : ascii :=
  if d <? 10 then char_of (48 + d) else char_of (87 + d).

(** A string between double quotes, with the escapes of QuoteJSONString.
    A code unit of the string that is a surrogate on its own is held as
    the three bytes [ED A0..BF 80..BF] ([parse_string] joins a pair into
    one code point); it is written as an escape [\udXXX]. *)
Definition quote_char (c : ascii) : list ascii :=
  match c with
  | "034" => ["\"; "034"]
  | "\" => ["\"; "\"]
  | "008" => ["\"; "b"]
  | "009" => ["\"; "t"]
  | "010" => ["\"; "n"]
  | "012" => ["\"; "f"]
  | "013" => ["\"; "r"]
  | _ =>
      if code c <? 32
      then ["\"; "u"; "0"; "0"; hex_char (code c / 16); hex_char (code c mod 16)]
      else [c]
  end.

Definition quote_surrogate (c2 c3 : ascii) : list ascii :=
  let unit := 0xD000 + (code c2 - 0x80) * 64 + (code c3 - 0x80) in
  ["\"; "u"; hex_char (unit / 4096); hex_char (unit / 256 mod 16);
   hex_char (unit / 16 mod 16); hex_char (unit mod 16)].

Fixpoint quote_chars (l : list ascii) : list ascii :=
  match l with
  | [] => []
  | c1 :: tail =>
      match tail with
      | c2 :: c3 :: rest =>
          if (code c1 =? 0xED) && in_range 0xA0 0xBF c2
             && in_range 0x80 0xBF c3
          then quote_surrogate c2 c3 ++ quote_chars rest
          else quote_char c1 ++ quote_chars tail
      | _ => quote_char c1 ++ quote_chars tail
      end
  end.

Definition quote (s : string) : list ascii :=
  ["034"] ++ quote_chars (String.list_ascii_of_string s) ++ ["034"].

(** An array index as a property key: a canonical numeral below
    [2^32 - 1].  Such keys are enumerated first, in ascending order. *)
Definition array_index (k : string) : option Z :=
  let l := String.list_ascii_of_string k in
  let '(v, n, rest) := scan_digits l 0 0 in
  match rest with
  | [] =>
      if (0 <? n) && (v <? 2 ^ 32 - 1)
         && bool_decide (decimal v = l)
      then Some v else None
  | _ => None
  end.

Fixpoint insert_sorted {T : Type} (i : Z) (x : T) (l : list (Z * T))
  : list (Z * T) :=
  match l with
  | [] => [(i, x)]
  | (j, y) :: rest =>
      if i <? j then (i, x) :: l else (j, y) :: insert_sorted i x rest
  end.

(** The own properties in the order of OrdinaryOwnPropertyKeys. *)
Definition ordered {T : Type} (props : list (string * T)) : list (string * T) :=
  let indexed :=
    fold_left (λ acc kv,
                 match array_index (fst kv) with
                 | Some i => insert_sorted i kv acc
                 | None => acc
                 end) props [] in
  map snd indexed
    ++ filter (λ kv, array_index (fst kv) = None) props.

Definition join_lines (indent : list ascii) (parts : list (list ascii))
  : list ascii :=
  match parts with
  | [] => []
  | p :: ps =>
      p ++ flat_map (λ q, [","; "010"] ++ indent ++ q) ps
  end.

(** The text of a value at the indentation [indent]; [None] is
    [undefined], which an array prints as [null] and an object omits. *)
Fixpoint stringify (indent : list ascii) (v : value) : option (list ascii) :=
  let inner := indent ++ [" "; " "] in
  match v with
  | VUndefined => None
  | VNull => Some ["n"; "u"; "l"; "l"]
  | VBool true => Some ["t"; "r"; "u"; "e"]
  | VBool false => Some ["f"; "a"; "l"; "s"; "e"]
  | VNumber n =>
      if Number_isFinite v
      then Some (String.list_ascii_of_string (NumberToString n))
      else Some ["n"; "u"; "l"; "l"]
  | VString s => Some (quote s)
  | VArray elems =>
      let parts :=
        (fix each (l : list value) : list (list ascii) :=
           match l with
           | [] => []
           | e :: rest =>
               match stringify inner e with
               | Some t => t
               | None => ["n"; "u"; "l"; "l"]
               end :: each rest
           end) elems in
      match parts with
      | [] => Some ["["; "]"]
      | _ =>
          Some (["["; "010"] ++ inner ++ join_lines inner parts
                  ++ ["010"] ++ indent ++ ["]"])
      end
  | VObject props =>
      let texts :=
        (fix each (l : list (string * value))
           : list (string * option (list ascii)) :=
           match l with
           | [] => []
           | (k, e) :: rest => (k, stringify inner e) :: each rest
           end) props in
      let parts :=
        omap (λ kt, match snd kt with
                    | Some t => Some (quote (fst kt) ++ [":"; " "] ++ t)
                    | None => None
                    end) (ordered texts) in
      match parts with
      | [] => Some ["{"; "}"]
      | _ =>
          Some (["{"; "010"] ++ inner ++ join_lines inner parts
                  ++ ["010"] ++ indent ++ ["}"])
      end
  end.

Definition JSON_stringify (v : value) : string :=
  match stringify [] v with
  | Some t => String.string_of_list_ascii t
  | None => "undefined"%string
  end.

Definition host : Host :=
  {| Js.JSON_parse := JSON_parse;
     Js.Buffer_toString := Buffer_toString;
     Js.StringToNumber := StringToNumber;
     Js.NumberToString := NumberToString;
     Js.String_toLowerCase := String_toLowerCase;
     Js.String_trim := String_trim;
     Js.JSON_stringify := JSON_stringify |}.

End RefHost.

(** ** Properties of the router and of [runCheck] *)

Module RouterFacts.

Import Js Router.

Section WithHost.
Context `{Host}.

Lemma get_object (server : value) (f : field) :
  is_nullish server = false → get server f = Return (own server f).
Proof. intros Hn. unfold get. rewrite Hn. reflexivity. Qed.

Lemma get_nullish (server : value) (f : field) :
  is_nullish server = true → get server f = Throw TypeError.
Proof. intros Hn. unfold get. rewrite Hn. reflexivity. Qed.

(** The host and port that [pickHostPort] picks from a descriptor whose
    port converts to the number [n]. *)
Definition picked (server : value) (n : number) : HostPort :=
  {| hp_host :=
       or_else (or_else (own server f_ip) (own server f_host))
         (if truthy (own server f_port) then VString "127.0.0.1"
          else VUndefined);
     hp_port :=
       match own server f_port with VUndefined => None | _ => Some n end |}.

Lemma pickHostPort_object (server : value) (n : number) :
  is_nullish server = false →
  Number (own server f_port) = Return n →
  pickHostPort server = Return (picked server n).
Proof.
  intros Hn Hp. unfold pickHostPort, picked.
  rewrite !get_object by assumption. simpl.
  destruct (own server f_port); try (rewrite Hp; reflexivity).
  reflexivity.
Qed.

Lemma pickHostPort_throws (server : value) (e : error) :
  is_nullish server = false →
  Number (own server f_port) = Throw e →
  pickHostPort server = Throw e.
Proof.
  intros Hn Hp. unfold pickHostPort.
  rewrite !get_object by assumption. simpl.
  destruct (own server f_port); try (rewrite Hp; reflexivity).
  discriminate.
Qed.

Lemma chooseChecker_object (server : value) (n : number) :
  is_nullish server = false →
  Number (own server f_port) = Return n →
  chooseChecker server =
    Return (if usable_url (own server f_url) then http
            else if usable_host_port (picked server n) then tcp
            else none).
Proof.
  intros Hn Hp. unfold chooseChecker.
  rewrite get_object by assumption. simpl.
  destruct (usable_url (own server f_url)); [reflexivity|].
  rewrite (pickHostPort_object server n) by assumption. simpl.
  destruct (usable_host_port (picked server n)); reflexivity.
Qed.

Lemma shouldSkipPoll_object (server : value) (n : number) :
  is_nullish server = false →
  Number (own server f_port) = Return n →
  shouldSkipPoll server =
    Return
      (match or_else (own server f_ip) (own server f_host) with
       | VString "0.0.0.0" => true
       | _ => negb (usable_url (own server f_url)
                    || usable_host_port (picked server n))
       end).
Proof.
  intros Hn Hp. unfold shouldSkipPoll.
  rewrite !get_object, (pickHostPort_object server n) by assumption. simpl.
  destruct (or_else (own server f_ip) (own server f_host)) as [| | | |s| |];
    try reflexivity.
  repeat (match goal with
          | |- context [match ?x with _ => _ end] =>
              is_var x; destruct x; try reflexivity
          end).
Qed.

Lemma shouldSkipPoll_wildcard (server : value) :
  is_nullish server = false →
  or_else (own server f_ip) (own server f_host) = VString "0.0.0.0" →
  shouldSkipPoll server = Return true.
Proof.
  intros Hn Hw. unfold shouldSkipPoll.
  rewrite !get_object by assumption. simpl. rewrite Hw. reflexivity.
Qed.

Lemma runCheck_timeout (server : value) (n : number) :
  is_nullish server = false →
  Number (own server f_timeoutMs) = Return n →
  runCheck server =
    let timeoutMs := if gt0 n then n else DEFAULT_TIMEOUT_MS in
    if negb (isEnabled server) then
      Return (Done {| online := false; rttMs := None; players := None;
                      version := None; disabled := true; skipped := false |})
    else
      skip ← shouldSkipPoll server;
      if (skip : bool) then
        Return (Done {| online := false; rttMs := None; players := None;
                        version := None; disabled := false; skipped := true |})
      else
        c ← chooseChecker server;
        match c with
        | http => url ← get server f_url; Return (CheckHttp url timeoutMs)
        | tcp => hp ← pickHostPort server; Return (CheckTcp hp timeoutMs)
        | none => Return (Done offline)
        end.
Proof.
  intros Hn Ht. unfold runCheck.
  rewrite (get_object server f_timeoutMs) by assumption. simpl.
  rewrite Ht. reflexivity.
Qed.

Lemma usable_url_spec (url : value) :
  usable_url url = true ↔ ∃ s, url = VString s ∧ String.prefix "http" s = true.
Proof.
  unfold usable_url. split.
  - destruct url; try discriminate. eauto.
  - intros (s & -> & Hs). exact Hs.
Qed.

Lemma usable_url_false (url : value) :
  (∀ s, url = VString s → String.prefix "http" s = false) →
  usable_url url = false.
Proof.
  intros Hno. destruct url; try reflexivity. apply Hno. reflexivity.
Qed.

Lemma usable_host_port_spec (server : value) (n : number) :
  usable_host_port (picked server n) = true ↔
  truthy (hp_host (picked server n)) = true
  ∧ own server f_port ≠ VUndefined
  ∧ Number_isFinite (VNumber n) = true
  ∧ gt0 n = true.
Proof.
  unfold usable_host_port, picked. cbn [hp_host hp_port]. split.
  - intros Hu. apply andb_true_iff in Hu as [Hh Hp].
    split; [exact Hh|].
    destruct (own server f_port); try discriminate;
      apply andb_true_iff in Hp as [Hf Hg];
      (split; [discriminate|split; assumption]).
  - intros (Hh & Hdef & Hf & Hg). rewrite Hh.
    destruct (own server f_port); try contradiction;
      rewrite Hf, Hg; reflexivity.
Qed.

Lemma shouldSkipPoll_other (server : value) :
  is_nullish server = false →
  or_else (own server f_ip) (own server f_host) ≠ VString "0.0.0.0" →
  shouldSkipPoll server =
    (hp ← pickHostPort server;
     Return (negb (usable_url (own server f_url) || usable_host_port hp))).
Proof.
  intros Hn Hw. unfold shouldSkipPoll.
  rewrite !get_object by assumption. cbn [mbind completion_bind]. cbv zeta.
  destruct (or_else (own server f_ip) (own server f_host)) as [| | | |s| |];
    try reflexivity.
  repeat (match goal with
          | |- context [match ?x with _ => _ end] =>
              is_var x; destruct x; try reflexivity
          end).
  exfalso. apply Hw. reflexivity.
Qed.

(** C7 (as amended): [chooseChecker] is a function of the descriptor
    alone.  It throws a [TypeError] on [null] and [undefined].  On every
    other descriptor: when [url] is a string that starts with [http] it
    returns the HTTP checker, whatever the rest holds; otherwise, when
    [port] converts to a number, it returns the TCP checker if the host
    ([ip], else [host], else the loopback address when [port] is truthy)
    is truthy and the port is present, finite and above zero, and no
    checker if not; and otherwise (no such [url], and a [port] whose
    conversion raises) it throws what the conversion raised. *)
Theorem chooseChecker_total (server : value) :
  (is_nullish server = true → chooseChecker server = Throw TypeError)
  ∧ (is_nullish server = false →
     let url := own server f_url in
     let port := own server f_port in
     let host :=
       or_else (or_else (own server f_ip) (own server f_host))
         (if truthy port then VString "127.0.0.1" else VUndefined) in
     ((∃ s, url = VString s ∧ String.prefix "http" s = true) →
      chooseChecker server = Return http)
     ∧ ((∀ s, url = VString s → String.prefix "http" s = false) →
        (∀ n,
           Number port = Return n →
           pickHostPort server =
             Return {| hp_host := host;
                       hp_port := match port with
                                  | VUndefined => None
                                  | _ => Some n
                                  end |}
           ∧ (truthy host = true
              ∧ port ≠ VUndefined
              ∧ Number_isFinite (VNumber n) = true
              ∧ gt0 n = true →
              chooseChecker server = Return tcp)
           ∧ (¬ (truthy host = true
                 ∧ port ≠ VUndefined
                 ∧ Number_isFinite (VNumber n) = true
                 ∧ gt0 n = true) →
              chooseChecker server = Return none))
        ∧ (∀ e, Number port = Throw e → chooseChecker server = Throw e))).
Proof.
  split.
  - intros Hn. unfold chooseChecker.
    rewrite (get_nullish server f_url) by assumption. reflexivity.
  - intros Hn. cbv zeta. split.
    + intros Hurl. apply usable_url_spec in Hurl.
      unfold chooseChecker. rewrite (get_object server f_url) by assumption.
      cbn [mbind completion_bind]. rewrite Hurl. reflexivity.
    + intros Hurl. apply usable_url_false in Hurl. split.
      * intros n Hp.
        split; [apply (pickHostPort_object server n); assumption|].
        rewrite (chooseChecker_object server n), Hurl by assumption.
        split.
        -- intros Huse. apply (usable_host_port_spec server n) in Huse.
           rewrite Huse. reflexivity.
        -- intros Hno.
           destruct (usable_host_port (picked server n)) eqn:Huse;
             [|reflexivity].
           apply (usable_host_port_spec server n) in Huse. contradiction.
      * intros e Hp. unfold chooseChecker.
        rewrite (get_object server f_url) by assumption.
        cbn [mbind completion_bind]. rewrite Hurl.
        rewrite (pickHostPort_throws server e) by assumption. reflexivity.
Qed.

(** C8 (as amended): [runCheck] converts [timeoutMs] before it looks at
    anything else.  It throws a [TypeError] on [null] and [undefined], and
    what the conversion raised when [timeoutMs] does not convert to a
    number, disabled descriptors included.  Otherwise it returns
    [{online:false, disabled:true}] when the descriptor is disabled, and,
    when it is enabled, [{online:false, skipped:true}] if its host ([ip],
    else [host]) is ["0.0.0.0"]; if not, it throws what the conversion of
    [port] raised when there is one, and returns
    [{online:false, skipped:true}] when [url] is not a string that starts
    with [http] and the host and port are not usable.  Whenever it returns
    one of these two results, no checker has been called. *)
Theorem runCheck_short_circuits (server : value) :
  (is_nullish server = true → runCheck server = Throw TypeError)
  ∧ (is_nullish server = false →
     (∀ e,
        Number (own server f_timeoutMs) = Throw e →
        runCheck server = Throw e)
     ∧ (∀ t,
          Number (own server f_timeoutMs) = Return t →
          (isEnabled server = false →
           runCheck server =
             Return (Done {| online := false; rttMs := None;
                             players := None; version := None;
                             disabled := true; skipped := false |}))
          ∧ (isEnabled server = true →
             (or_else (own server f_ip) (own server f_host) =
                VString "0.0.0.0" →
              runCheck server =
                Return (Done {| online := false; rttMs := None;
                                players := None; version := None;
                                disabled := false; skipped := true |}))
             ∧ (or_else (own server f_ip) (own server f_host) ≠
                  VString "0.0.0.0" →
                (∀ e,
                   Number (own server f_port) = Throw e →
                   runCheck server = Throw e)
                ∧ (∀ n,
                     Number (own server f_port) = Return n →
                     (∀ s, own server f_url = VString s →
                           String.prefix "http" s = false) →
                     ¬ (truthy
                          (or_else
                             (or_else (own server f_ip) (own server f_host))
                             (if truthy (own server f_port)
                              then VString "127.0.0.1" else VUndefined))
                        = true
                        ∧ own server f_port ≠ VUndefined
                        ∧ Number_isFinite (VNumber n) = true
                        ∧ gt0 n = true) →
                     runCheck server =
                       Return (Done {| online := false; rttMs := None;
                                       players := None; version := None;
                                       disabled := false;
                                       skipped := true |})))))).
Proof.
  split.
  - intros Hn. unfold runCheck.
    rewrite (get_nullish server f_timeoutMs) by assumption. reflexivity.
  - intros Hn. split.
    + intros e Ht. unfold runCheck.
      rewrite (get_object server f_timeoutMs) by assumption.
      cbn [mbind completion_bind]. rewrite Ht. reflexivity.
    + intros t Ht.
      rewrite (runCheck_timeout server t) by assumption. cbv zeta.
      split; [intros He; rewrite He; reflexivity|].
      intros He. rewrite He. cbn [negb]. split.
      * intros Hw. rewrite shouldSkipPoll_wildcard by assumption.
        reflexivity.
      * intros Hw. rewrite (shouldSkipPoll_other server) by assumption.
        split.
        -- intros e Hp. rewrite (pickHostPort_throws server e) by assumption.
           reflexivity.
        -- intros n Hp Hurl Hno.
           rewrite (pickHostPort_object server n) by assumption.
           cbn [mbind completion_bind].
           rewrite (usable_url_false _ Hurl).
           destruct (usable_host_port (picked server n)) eqn:Huse.
           ++ apply (usable_host_port_spec server n) in Huse.
              contradiction.
           ++ reflexivity.
Qed.

End WithHost.

(** *** Concrete descriptors, run on the reference host *)

(** A descriptor with a non-string [url] and a string [port]. *)
Definition port_only : value :=
  VObject [("url", VNumber (num 5)); ("port", VString "25565")].

Example chooseChecker_port_only :
  chooseChecker (H := RefHost.host) port_only = Return tcp
  ∧ pickHostPort (H := RefHost.host) port_only =
      Return {| hp_host := VString "127.0.0.1";
                hp_port := Some (num 25565) |}.
Proof. split; reflexivity. Qed.

Example chooseChecker_primitives :
  chooseChecker (H := RefHost.host) (VNumber (num 5)) = Return none
  ∧ chooseChecker (H := RefHost.host) (VString "http://x") = Return none
  ∧ chooseChecker (H := RefHost.host) (VBool true) = Return none
  ∧ chooseChecker (H := RefHost.host)
      (VObject [("url", VString "https://example.org");
                ("host", VString "h"); ("port", VNumber (num 80))])
    = Return http.
Proof. repeat split; reflexivity. Qed.

(** A descriptor with a usable [url] and a [port] that does not
    convert. *)
Definition url_and_bad_port : value :=
  VObject [("url", VString "http://x");
           ("port", VObject [("toString", VNumber zero)])].

Lemma chooseChecker_total_port_only :
  chooseChecker (H := RefHost.host) port_only = Return tcp
  ∧ chooseChecker (H := RefHost.host) url_and_bad_port = Return http.
Proof.
  split.
  - pose proof (proj2 (chooseChecker_total (H := RefHost.host) port_only)
                  eq_refl) as Hobj.
    cbv zeta in Hobj. destruct Hobj as [_ Hother].
    destruct Hother as [Hnum _]; [intros s [=]|].
    destruct (Hnum (num 25565) eq_refl) as (_ & Htcp & _).
    apply Htcp. repeat split; try reflexivity. discriminate.
  - pose proof (proj2 (chooseChecker_total (H := RefHost.host)
                         url_and_bad_port) eq_refl) as Hobj.
    cbv zeta in Hobj. apply (proj1 Hobj).
    eexists. split; reflexivity.
Defined.

(** C7 as stated fails on [null] (and [undefined]): reading [server.url]
    raises a [TypeError].  It also raises when [port] is an object with an
    own property [toString], which [Number] cannot convert. *)
Lemma chooseChecker_throws_on_null :
  chooseChecker (H := RefHost.host) VNull = Throw TypeError
  ∧ chooseChecker (H := RefHost.host) VUndefined = Throw TypeError
  ∧ chooseChecker (H := RefHost.host)
      (VObject [("port", VObject [("toString", VNumber zero)])])
    = Throw TypeError.
Proof. repeat split; reflexivity. Qed.

Definition disabled_target : value :=
  VObject [("id", VString "a"); ("enabled", VString "False");
           ("host", VString "example.org"); ("port", VNumber (num 80))].

Definition wildcard_target : value :=
  VObject [("id", VString "b"); ("ip", VString "0.0.0.0");
           ("port", VNumber (num 25565))].

Definition unaddressable_target : value :=
  VObject [("id", VString "c"); ("url", VString "ftp://example.org")].

Lemma runCheck_short_circuits_examples :
  runCheck (H := RefHost.host) disabled_target =
    Return (Done {| online := false; rttMs := None; players := None;
                    version := None; disabled := true; skipped := false |})
  ∧ runCheck (H := RefHost.host) wildcard_target =
      Return (Done {| online := false; rttMs := None; players := None;
                      version := None; disabled := false;
                      skipped := true |})
  ∧ runCheck (H := RefHost.host) unaddressable_target =
      Return (Done {| online := false; rttMs := None; players := None;
                      version := None; disabled := false;
                      skipped := true |}).
Proof.
  split; [|split].
  - destruct (proj2 (proj2 (runCheck_short_circuits (H := RefHost.host)
                              disabled_target) eq_refl) NaN eq_refl)
      as [Hdisabled _].
    apply Hdisabled. reflexivity.
  - destruct (proj2 (proj2 (runCheck_short_circuits (H := RefHost.host)
                              wildcard_target) eq_refl) NaN eq_refl)
      as [_ Henabled].
    apply (proj1 (Henabled eq_refl)). reflexivity.
  - destruct (proj2 (proj2 (runCheck_short_circuits (H := RefHost.host)
                              unaddressable_target) eq_refl) NaN eq_refl)
      as [_ Henabled].
    destruct (Henabled eq_refl) as [_ Hother].
    destruct Hother as [_ Hport]; [discriminate|].
    apply (Hport NaN eq_refl).
    + intros s [= <-]. reflexivity.
    + intros (Hhost & _). discriminate.
Defined.

(** A disabled descriptor whose [timeoutMs] does not convert, and an
    enabled one without address whose [port] does not convert. *)
Definition disabled_bad_timeout : value :=
  VObject [("enabled", VBool false);
           ("timeoutMs", VObject [("toString", VNumber zero)])].

Definition unaddressable_bad_port : value :=
  VObject [("id", VString "c");
           ("port", VObject [("toString", VNumber zero)])].

(** C8 as stated fails on these two: the descriptor is disabled, or is
    enabled with neither a usable URL nor a usable host and port, and
    [runCheck] rejects with the [TypeError] of the conversion instead of
    returning the disabled or the skipped result. *)
Lemma runCheck_throws_before_short_circuit :
  isEnabled (H := RefHost.host) disabled_bad_timeout = false
  ∧ runCheck (H := RefHost.host) disabled_bad_timeout = Throw TypeError
  ∧ isEnabled (H := RefHost.host) unaddressable_bad_port = true
  ∧ usable_url (own unaddressable_bad_port f_url) = false
  ∧ own unaddressable_bad_port f_ip = VUndefined
  ∧ own unaddressable_bad_port f_host = VUndefined
  ∧ runCheck (H := RefHost.host) unaddressable_bad_port = Throw TypeError.
Proof. repeat split; reflexivity. Qed.

End RouterFacts.

(** ** The Minecraft status checker (poller.js, checkMinecraft) *)

Module Minecraft.

Import Js Router Varint.

(** [Buffer.from(str, 'utf8')]: the bytes of the string. *)
Definition Buffer_from_string (str : string) : list byte :=
  map byte_of_ascii (String.list_ascii_of_string str).

(** [writeString(str)]. *)
Definition writeString (str : string) : list byte :=
  let strBuf := Buffer_from_string str in
  writeVarInt (Buf.length strBuf) ++ strBuf.

(** [buf.writeUInt16BE(value, 0)] on a two-byte buffer: a [RangeError]
    outside [0..65535]. *)
Definition writeUInt16BE (v : Z) : completion (list byte) :=
  if (0 <=? v) && (v <=? 65535)
  then Return [Buf.of_Z (v / 256); Buf.of_Z v]
  else Throw RangeError.

(** [buildMcHandshakePacket({ host, port, protocolVersion })]. *)
Definition buildMcHandshakePacket (host : string) (port : Z)
  (protocolVersion : Z) : completion (list byte) :=
  let packetId := writeVarInt 0x00 in
  let pv := writeVarInt protocolVersion in
  let hostStr := writeString host in
  portBuf ← writeUInt16BE port;
  let nextState := writeVarInt 0x01 in
  let data := packetId ++ pv ++ hostStr ++ portBuf ++ nextState in
  Return (writeVarInt (Buf.length data) ++ data).

(** [buildMcStatusRequestPacket()]. *)
Definition buildMcStatusRequestPacket : list byte :=
  let packetId := writeVarInt 0x00 in
  let data := packetId in
  writeVarInt (Buf.length data) ++ data.

Section WithHost.
Context `{Host}.

(** The object [out] that the ['close'] handler builds from the parsed
    status document. *)
Definition status_of (parsed : Js.value) : CheckResult :=
  let playersOnline := get_opt (get_opt parsed f_players) f_online in
  let playersMax := get_opt (get_opt parsed f_players) f_max in
  let versionName := get_opt (get_opt parsed f_version) f_name in
  {| online := true;
     rttMs := None;
     players :=
       if Number_isFinite playersOnline && Number_isFinite playersMax
       then Some (VObject [("online", playersOnline); ("max", playersMax)])
       else None;
     version := if is_string versionName then Some versionName else None;
     disabled := false;
     skipped := false |}.

(** The body of the ['close'] handler: what it passes to [finish].  The
    [try ... catch] around it turns the [SyntaxError] of [JSON.parse] into
    [{ online: false }]; nothing else in it can throw. *)
Definition on_close (chunks : list (list byte)) : CheckResult :=
  let buf := concat chunks in
  match readVarInt buf 0 with
  | None => offline
  | Some lenInfo =>
      let offset := size lenInfo in
      match readVarInt buf offset with
      | None => offline
      | Some packetIdInfo =>
          let offset := offset + size packetIdInfo in
          let packetId := value packetIdInfo in
          if negb (packetId =? 0x00) then offline
          else
            match readVarInt buf offset with
            | None => offline
            | Some jsonLenInfo =>
                let offset := offset + size jsonLenInfo in
                let jsonLen := value jsonLenInfo in
                let jsonStr :=
                  Buffer_toString (Buf.slice buf offset (offset + jsonLen)) in
                match JSON_parse jsonStr with
                | None => offline
                | Some parsed => status_of parsed
                end
            end
      end
  end.

(** The events that reach the promise of [checkMinecraft], each with the
    value of [Date.now()] when it fires: the socket's events, and the
    timer of [withTimeout]. *)
Inductive event : Type :=
| Connect
| Data (d : list byte)
| SocketError
| SocketTimeout
| Close
| GuardTimeout.

(** The state of one call: the received chunks, what was written to the
    socket, and the settlement of the promise once there is one. *)
Record call := {
  chunks : list (list byte);
  written : list (list byte);
  settled : option (completion CheckResult);
}.

(** [finish(result)]: resolve with [{ ...result, rttMs }]; a promise
    settles once, later calls change nothing. *)
Definition finish (start now : Z) (result : CheckResult) (c : call) : call :=
  match settled c with
  | Some _ => c
  | None =>
      {| chunks := chunks c; written := written c;
         settled :=
           Some (Return {| online := online result;
                           rttMs := Some (now - start);
                           players := players result;
                           version := version result;
                           disabled := disabled result;
                           skipped := skipped result |}) |}
  end.

(** One event of a call started at time [start] for [host] and [port]. *)
Definition on_event (host : string) (port start now : Z) (ev : event)
  (c : call) : call :=
  match ev with
  | Connect =>
      match buildMcHandshakePacket host port 758 with
      | Return handshake =>
          {| chunks := chunks c;
             written :=
               written c ++ [handshake; buildMcStatusRequestPacket];
             settled := settled c |}
      | Throw _ => finish start now offline c
      end
  | Data d =>
      {| chunks := chunks c ++ [d]; written := written c;
         settled := settled c |}
  | SocketError | SocketTimeout => finish start now offline c
  | Close => finish start now (on_close (chunks c)) c
  | GuardTimeout =>
      match settled c with
      | Some _ => c
      | None =>
          {| chunks := chunks c; written := written c;
             settled := Some (Throw (Error "minecraft-timeout")) |}
      end
  end.

(** [socket.setTimeout(timeoutMs, callback)]: Node checks the duration
    before anything else and throws a [TypeError] when it is not a number,
    a [RangeError] when it is negative, [NaN] or infinite. *)
Definition setTimeout_error (timeoutMs : Js.value) : option error :=
  match timeoutMs with
  | VNumber n =>
      if Number_isFinite (VNumber n) && negb (SFltb n zero) then None
      else Some RangeError
  | _ => Some TypeError
  end.

(** [socket.connect(port, host, callback)]: a [RangeError] for an
    integral port outside [0..65535]. *)
Definition connect_error (port : Z) : option error :=
  if (0 <=? port) && (port <=? 65535) then None else Some RangeError.

(** The executor of the promise runs [socket.setTimeout] and then
    [socket.connect] outside any [try]: what either throws rejects the
    promise at once, before the handlers of ['data'] and ['close'] are
    installed. *)
Definition executor_error (timeoutMs : Js.value) (port : Z) : option error :=
  match setTimeout_error timeoutMs with
  | Some err => Some err
  | None => connect_error port
  end.

(** [checkMinecraft({ host, port, timeoutMs })] against the events the
    socket and the timer deliver, in order, each with its time. *)
Definition checkMinecraft (host : string) (port : Z) (timeoutMs : Js.value)
  (start : Z) (events : list (Z * event)) : call :=
  match executor_error timeoutMs port with
  | Some err => {| chunks := []; written := []; settled := Some (Throw err) |}
  | None =>
      fold_left (λ c e, on_event host port start (fst e) (snd e) c) events
        {| chunks := []; written := []; settled := None |}
  end.

End WithHost.

End Minecraft.

(** ** Properties of the status-response parser *)

Module MinecraftFacts.

Import JsInt Js Router Varint Minecraft.

(** A finite number, as [Number.isFinite] sees it. *)
Definition finite (n : number) : bool := Number_isFinite (VNumber n).

Section WithHost.
Context `{Host}.

(** The parser on a buffer that starts with three encoded varints. *)
Lemma on_close_frame (chunks : list (list byte)) (len pid n : Z)
  (rest : list byte) :
  concat chunks = writeVarInt len ++ writeVarInt pid ++ writeVarInt n ++ rest →
  0 <= ToInt32 n →
  on_close chunks =
    if negb (ToInt32 pid =? 0) then offline
    else match JSON_parse
                 (Buffer_toString (take (Z.to_nat (ToInt32 n)) rest)) with
         | None => offline
         | Some parsed => status_of parsed
         end.
Proof.
  intros Hbuf Hn. unfold on_close. cbv zeta. rewrite Hbuf.
  rewrite (proj1 (readVarInt_writeVarInt_int32 len _)).
  cbn [Varint.size Varint.value].
  rewrite (readVarInt_encoded_at (writeVarInt len) _ pid).
  cbn [Varint.size Varint.value].
  destruct (negb (ToInt32 pid =? 0)); [reflexivity|].
  replace (Buf.length (writeVarInt len) + Buf.length (writeVarInt pid))
    with (Buf.length (writeVarInt len ++ writeVarInt pid))
    by (unfold Buf.length; rewrite length_app; lia).
  rewrite (app_assoc (writeVarInt len) (writeVarInt pid)).
  rewrite (readVarInt_encoded_at _ rest n).
  cbn [Varint.size Varint.value].
  replace (Buf.length (writeVarInt len ++ writeVarInt pid)
           + Buf.length (writeVarInt n))
    with (Buf.length ((writeVarInt len ++ writeVarInt pid) ++ writeVarInt n))
    by (unfold Buf.length; rewrite !length_app; lia).
  rewrite (app_assoc _ (writeVarInt n)).
  rewrite Buf.slice_from by assumption.
  reflexivity.
Qed.

Lemma on_close_offline_or_status (chunks : list (list byte)) :
  on_close chunks = offline ∨ ∃ parsed, on_close chunks = status_of parsed.
Proof.
  unfold on_close.
  repeat match goal with
         | |- context [match ?x with _ => _ end] =>
             destruct x; try (left; reflexivity)
         end.
  right. eexists. reflexivity.
Qed.

(** What [status_of] puts into the result. *)
Lemma status_of_fields (parsed : Js.value) :
  online (status_of parsed) = true
  ∧ (∀ p, players (status_of parsed) = Some p ↔
       ∃ a b, get_opt (get_opt parsed f_players) f_online = VNumber a
              ∧ get_opt (get_opt parsed f_players) f_max = VNumber b
              ∧ finite a = true ∧ finite b = true
              ∧ p = VObject [("online", VNumber a); ("max", VNumber b)])
  ∧ (∀ v, version (status_of parsed) = Some v ↔
       ∃ s, get_opt (get_opt parsed f_version) f_name = VString s
            ∧ v = VString s)
  ∧ disabled (status_of parsed) = false
  ∧ skipped (status_of parsed) = false.
Proof.
  unfold status_of. cbn [online players version disabled skipped].
  split; [reflexivity|]. split; [|split; [|split; reflexivity]].
  - intros p. split.
    + destruct (get_opt (get_opt parsed f_players) f_online) as [| | |a| | |];
        try discriminate.
      destruct (get_opt (get_opt parsed f_players) f_max) as [| | |b| | |];
        try (rewrite andb_false_r; discriminate).
      destruct (Number_isFinite (VNumber a)) eqn:Ha; [|discriminate].
      destruct (Number_isFinite (VNumber b)) eqn:Hb; [|discriminate].
      intros [= <-]. exists a, b. repeat split; assumption.
    + intros (a & b & -> & -> & Ha & Hb & ->).
      unfold finite in Ha, Hb. rewrite Ha, Hb. reflexivity.
  - intros v. split.
    + destruct (get_opt (get_opt parsed f_version) f_name) as [| | | |s| |];
        try discriminate.
      intros [= <-]. exists s. split; reflexivity.
    + intros (s & -> & ->). reflexivity.
Qed.

(** C3 (as amended): the ['close'] handler never raises; on every
    buffer it passes to [finish] a result that follows from the three
    varints it reads at consecutive offsets.  The result is
    [{online:false}] when one of the three varints cannot be read, when
    the second (the packet type), however it is encoded, is not [0], and
    when the text of the bytes that [slice] yields from the end of the
    third varint, over as many bytes as its value says, is not JSON;
    otherwise it is built from the parsed document: [online:true],
    [players] exactly when both counts are finite numbers, [version]
    exactly when [version.name] is a string.  The first varint (the packet
    length) is not used, so on a response that holds any length prefix,
    the packet type [0x00], the byte length of a document and the
    document, followed by anything, the result is that of the document;
    and the length of the document is not compared with the bytes
    received, so when fewer bytes follow than it announces and their text
    parses, the result has [online:true]. *)
Theorem on_close_status (chunks : list (list byte)) :
  (on_close chunks = offline ∨ ∃ parsed, on_close chunks = status_of parsed)
  ∧ (readVarInt (concat chunks) 0 = None → on_close chunks = offline)
  ∧ (∀ r1,
       readVarInt (concat chunks) 0 = Some r1 →
       (readVarInt (concat chunks) (size r1) = None →
        on_close chunks = offline)
       ∧ ∀ r2,
           readVarInt (concat chunks) (size r1) = Some r2 →
           (value r2 ≠ 0 → on_close chunks = offline)
           ∧ (value r2 = 0 →
              (readVarInt (concat chunks) (size r1 + size r2) = None →
               on_close chunks = offline)
              ∧ ∀ r3,
                  readVarInt (concat chunks) (size r1 + size r2) = Some r3 →
                  let start := size r1 + size r2 + size r3 in
                  let document :=
                    Buffer_toString
                      (Buf.slice (concat chunks) start (start + value r3)) in
                  (JSON_parse document = None → on_close chunks = offline)
                  ∧ ∀ parsed,
                      JSON_parse document = Some parsed →
                      on_close chunks = status_of parsed))
  ∧ (∀ parsed,
       online (status_of parsed) = true
       ∧ (∀ p, players (status_of parsed) = Some p ↔
            ∃ a b, get_opt (get_opt parsed f_players) f_online = VNumber a
                   ∧ get_opt (get_opt parsed f_players) f_max = VNumber b
                   ∧ finite a = true ∧ finite b = true
                   ∧ p = VObject [("online", VNumber a); ("max", VNumber b)])
       ∧ (∀ v, version (status_of parsed) = Some v ↔
            ∃ s, get_opt (get_opt parsed f_version) f_name = VString s
                 ∧ v = VString s))
  ∧ (∀ len doc extra,
       concat chunks =
         writeVarInt len ++ writeVarInt 0x00
           ++ writeVarInt (Buf.length doc) ++ doc ++ extra →
       Buf.length doc < 2 ^ 31 →
       on_close chunks =
         match JSON_parse (Buffer_toString doc) with
         | Some parsed => status_of parsed
         | None => offline
         end)
  ∧ (∀ len n part,
       concat chunks =
         writeVarInt len ++ writeVarInt 0x00 ++ writeVarInt n ++ part →
       0 <= n < 2 ^ 31 →
       Buf.length part <= n →
       on_close chunks =
         match JSON_parse (Buffer_toString part) with
         | Some parsed => status_of parsed
         | None => offline
         end).
Proof.
  split; [apply on_close_offline_or_status|].
  split; [|split; [|split; [|split]]].
  - intros Hbad. unfold on_close. cbv zeta. rewrite Hbad. reflexivity.
  - intros r1 H1. unfold on_close. cbv zeta. rewrite H1. split.
    + intros H2. rewrite H2. reflexivity.
    + intros r2 H2. rewrite H2. split.
      * intros Hpid.
        destruct (Z.eqb_spec (value r2) 0); [contradiction|reflexivity].
      * intros Hpid. rewrite Hpid. cbn [Z.eqb negb]. split.
        -- intros H3. rewrite H3. reflexivity.
        -- intros r3 H3. rewrite H3. split.
           ++ intros Hdoc. rewrite Hdoc. reflexivity.
           ++ intros parsed Hdoc. rewrite Hdoc. reflexivity.
  - intros parsed.
    destruct (status_of_fields parsed) as (Ho & Hp & Hv & _).
    split; [exact Ho|]. split; [exact Hp|exact Hv].
  - intros len doc extra Hbuf Hlen.
    assert (Hpos : 0 <= Buf.length doc) by (unfold Buf.length; lia).
    rewrite (on_close_frame chunks len 0 (Buf.length doc) (doc ++ extra))
      by (try assumption; rewrite ToInt32_small; lia).
    rewrite (ToInt32_small (Buf.length doc)) by lia.
    change (negb (ToInt32 0 =? 0)) with false. cbv iota.
    unfold Buf.length at 1. rewrite Nat2Z.id, take_app_length.
    destruct (JSON_parse (Buffer_toString doc)); reflexivity.
  - intros len n part Hbuf Hn Hshort.
    rewrite (on_close_frame chunks len 0 n part)
      by (try assumption; rewrite ToInt32_small; lia).
    rewrite (ToInt32_small n) by lia.
    change (negb (ToInt32 0 =? 0)) with false. cbv iota.
    rewrite take_ge by (unfold Buf.length in Hshort; lia).
    destruct (JSON_parse (Buffer_toString part)); reflexivity.
Qed.

End WithHost.

(** *** The round trip of the specification, on the reference host *)

(** The double quote, and a string between double quotes. *)
Definition dq : string := String "034" "".
Definition quoted (s : string) : string := dq ++ s ++ dq.

(** The status document
    [{"players":{"online":3,"max":20},"version":{"name":"1.20"}}]. *)
Definition status_document : string :=
  "{" ++ quoted "players" ++ ":{" ++ quoted "online" ++ ":3,"
    ++ quoted "max" ++ ":20}," ++ quoted "version" ++ ":{"
    ++ quoted "name" ++ ":" ++ quoted "1.20" ++ "}}".

(** A response packet: the length of the payload, the packet type, and the
    document as a length-prefixed string. *)
Definition response_packet (document : string) : list byte :=
  let payload := writeVarInt 0x00 ++ writeString document in
  writeVarInt (Buf.length payload) ++ payload.

Example handshake_and_status_request :
  buildMcHandshakePacket "h" 25565 758 =
    Return (Buf.from [0x08; 0x00; 0xf6; 0x05; 0x01; 0x68; 0x63; 0xdd; 0x01])
  ∧ buildMcStatusRequestPacket = Buf.from [0x01; 0x00].
Proof. split; reflexivity. Qed.

Example status_document_parsed :
  JSON_parse (Host := RefHost.host)
    (Buffer_toString (Host := RefHost.host)
       (Buffer_from_string status_document)) =
    Some (VObject
            [("players", VObject [("online", VNumber (num 3));
                                  ("max", VNumber (num 20))]);
             ("version", VObject [("name", VString "1.20")])]).
Proof. reflexivity. Qed.

(** The whole call: connect, receive the response in two chunks, close
    after 42 ms. *)
Example checkMinecraft_round_trip :
  let response := response_packet status_document in
  let c := checkMinecraft (H := RefHost.host) "h" 25565 (VNumber (num 3500))
             1000
             [(1005, Connect); (1030, Data (take 10 response));
              (1031, Data (drop 10 response)); (1042, Close)] in
  settled c =
    Some (Return {| online := true; rttMs := Some 42;
                    players := Some (VObject [("online", VNumber (num 3));
                                              ("max", VNumber (num 20))]);
                    version := Some (VString "1.20");
                    disabled := false; skipped := false |})
  ∧ written c =
      [Buf.from [0x08; 0x00; 0xf6; 0x05; 0x01; 0x68; 0x63; 0xdd; 0x01];
       Buf.from [0x01; 0x00]].
Proof. split; reflexivity. Qed.

Lemma on_close_status_round_trip :
  on_close (H := RefHost.host) [response_packet status_document] =
    {| online := true; rttMs := None;
       players := Some (VObject [("online", VNumber (num 3));
                                 ("max", VNumber (num 20))]);
       version := Some (VString "1.20");
       disabled := false; skipped := false |}
  ∧ on_close (H := RefHost.host)
      [Buf.from [0x00; 0x81; 0x00; 0x01; 0x31]] = offline
  ∧ on_close (H := RefHost.host)
      [writeVarInt 5 ++ writeVarInt 0x00 ++ writeVarInt 3
         ++ Buffer_from_string "{]}"] = offline.
Proof.
  split; [|split].
  - destruct (on_close_status (H := RefHost.host)
                [response_packet status_document])
      as (_ & _ & _ & _ & Hfull & _).
    rewrite (Hfull (Buf.length (writeVarInt 0x00
                                  ++ writeString status_document))
               (Buffer_from_string status_document) [] eq_refl eq_refl).
    reflexivity.
  - destruct (on_close_status (H := RefHost.host)
                [Buf.from [0x00; 0x81; 0x00; 0x01; 0x31]])
      as (_ & _ & Hreads & _).
    destruct (Hreads {| Varint.value := 0; size := 1 |} eq_refl)
      as [_ Hsecond].
    destruct (Hsecond {| Varint.value := 1; size := 2 |} eq_refl)
      as [Htype _].
    apply Htype. discriminate.
  - destruct (on_close_status (H := RefHost.host)
                [writeVarInt 5 ++ writeVarInt 0x00 ++ writeVarInt 3
                   ++ Buffer_from_string "{]}"])
      as (_ & _ & _ & _ & _ & Hshort).
    rewrite (Hshort 5 3 (Buffer_from_string "{]}") eq_refl ltac:(lia)
               ltac:(vm_compute; discriminate)).
    reflexivity.
Defined.

(** C3 as stated fails on truncated buffers: of the response to the
    document [12], whose packet length prefix announces four bytes and
    whose string length prefix announces two, only the first is received;
    the remaining text [1] is a JSON document, and the result is
    [{online:true}]. *)
Lemma on_close_truncated_online :
  let full := response_packet "12" in
  let truncated := take 4 full in
  full = Buf.from [0x04; 0x00; 0x02; 0x31; 0x32]
  ∧ truncated = Buf.from [0x04; 0x00; 0x02; 0x31]
  ∧ option_map Varint.value (readVarInt truncated 0) = Some 4
  ∧ Buf.length truncated - 1 < 4
  ∧ option_map Varint.value (readVarInt truncated 2) = Some 2
  ∧ Buf.length truncated - 3 < 2
  ∧ on_close (H := RefHost.host) [truncated] =
      {| online := true; rttMs := None; players := None; version := None;
         disabled := false; skipped := false |}
  ∧ on_close (H := RefHost.host) [truncated] ≠ offline.
Proof.
  cbv zeta. repeat split; try reflexivity; try (vm_compute; congruence).
Qed.

End MinecraftFacts.

(** ** The concurrency pool (poller.js, mapWithConcurrency) *)

Module Pool.

Import Js.

Local Open Scope nat_scope.

Section Pool.
Context {A B : Type}.

(** How the promise [mapper(items[idx], idx)] settles. *)
Inductive outcome : Type :=
| Resolved (b : B)
| Rejected (e : error).

(** An element of [results] once it is assigned: the value the mapper
    resolved with, or the marker [{ __error: err }]. *)
Inductive cell : Type :=
| Value (b : B)
| ErrorMarker (e : error).

(** The [try { results[idx] = await ... } catch (err) { results[idx] =
    { __error: err } }] of a worker. *)
Definition cell_of (o : outcome) : cell :=
  match o with
  | Resolved b => Value b
  | Rejected e => ErrorMarker e
  end.

(** A worker is suspended at its [await] for the item [idx], or its
    promise is fulfilled, or (for [Promise.all]) rejected. *)
Inductive worker : Type :=
| Awaiting (idx : nat)
| Finished
| Failed (e : error).

(** The variables the workers share: the counter [i], the array
    [results] ([None] is a hole left by [new Array(n)]), and the state of
    each worker. *)
Record pool : Type := {
  cursor : nat;
  results : list (option cell);
  workers : list worker;
}.

Variable items : list A.
Variable limit : nat.

(** The settlements the environment may deliver for the call of the
    mapper on an item and its index. *)
Variable mapper : A → nat → outcome → Prop.

(** The head of the [while (true)] loop, run without suspension:
    [const idx = i++; if (idx >= items.length) return;] and the call of the
    mapper, at which the worker suspends. *)
Definition loop_head (i : nat) : nat * worker :=
  (S i, if length items <=? i then Finished else Awaiting i).

(** One element of [new Array(...).fill(0).map(async () => ...)]: the
    async function runs up to its first [await]. *)
Definition spawn_one (s : pool) : pool :=
  let '(i, w) := loop_head (cursor s) in
  {| cursor := i; results := results s; workers := workers s ++ [w] |}.

(** The state when [Promise.all(workers)] starts to wait. *)
Definition init : pool :=
  Nat.iter (min limit (length items)) spawn_one
    {| cursor := 0; results := replicate (length items) None;
       workers := [] |}.

(** The worker [w] is resumed with the settlement [o] of its [await]: it
    stores the cell and goes through the head of the loop again. *)
Definition resume (w : nat) (o : outcome) (s : pool) : option pool :=
  match workers s !! w with
  | Some (Awaiting idx) =>
      let '(i, st) := loop_head (cursor s) in
      Some {| cursor := i;
              results := <[idx := Some (cell_of o)]> (results s);
              workers := <[w := st]> (workers s) |}
  | _ => None
  end.

(** One turn of the event loop inside the pool: the promise some worker
    awaits settles, in any order the environment likes. *)
Inductive step : pool → pool → Prop :=
| step_resume (w idx : nat) (a : A) (o : outcome) (s s' : pool) :
    workers s !! w = Some (Awaiting idx) →
    items !! idx = Some a →
    mapper a idx o →
    resume w o s = Some s' →
    step s s'.

Definition is_finished (w : worker) : bool :=
  match w with Finished => true | _ => false end.

Definition failure (w : worker) : option error :=
  match w with Failed e => Some e | _ => None end.

(** [await Promise.all(workers); return results;], seen from the caller:
    nothing yet while a worker is pending and none has failed, a rejection
    if one has, else the array. *)
Definition returned (s : pool) : option (completion (list (option cell))) :=
  match omap failure (workers s) with
  | e :: _ => Some (Throw e)
  | [] =>
      if forallb is_finished (workers s) then Some (Return (results s))
      else None
  end.

(** *** Running the pool against a completion order *)

(** The positions of the suspended workers. *)
Definition awaiting (s : pool) : list (nat * nat) :=
  omap (λ p, match p.2 with Awaiting idx => Some (p.1, idx) | _ => None end)
    (imap (λ w st, (w, st)) (workers s)).

(** [choices] picks, turn after turn, which of the suspended workers is
    resumed next (the [n]-th of them, counting cyclically); [settle] is the
    settlement delivered for an index. *)
Fixpoint run (settle : nat → outcome) (choices : list nat) (s : pool)
  : pool :=
  match choices with
  | [] => s
  | n :: choices =>
      match awaiting s with
      | [] => s
      | p :: ps =>
          let '(w, idx) := nth (n mod length (p :: ps)) (p :: ps) p in
          match resume w (settle idx) s with
          | Some s' => run settle choices s'
          | None => s
          end
      end
  end.

(** [mapWithConcurrency(items, limit, mapper)] as its caller sees it,
    when the promises of the mapper settle in the order of [choices]:
    [None] while the call has not settled. *)
Definition mapWithConcurrency (settle : nat → outcome) (choices : list nat)
  : option (completion (list (option cell))) :=
  returned (run settle choices init).

End Pool.

Arguments outcome : clear implicits.
Arguments cell : clear implicits.
Arguments pool : clear implicits.

End Pool.

(** ** Properties of the concurrency pool *)

Module PoolFacts.

Import Js Pool.

Local Open Scope nat_scope.

Section Pool.
Context {A B : Type}.
Variable items : list A.
Variable limit : nat.
Variable mapper : A → nat → outcome B → Prop.

Local Abbreviation step := (Pool.step items mapper).
Local Abbreviation init := (Pool.init items limit).
Local Abbreviation loop_head := (Pool.loop_head items).

(** What holds of the shared variables whenever control is in the event
    loop. *)
Record inv (s : pool B) : Prop := {
  inv_length : length (results s) = length items;
  inv_awaiting : ∀ w idx, workers s !! w = Some (Awaiting idx) →
    idx < cursor s ∧ idx < length items ∧ results s !! idx = Some None;
  inv_unique : ∀ w w' idx, workers s !! w = Some (Awaiting idx) →
    workers s !! w' = Some (Awaiting idx) → w = w';
  inv_pending : ∀ idx, idx < cursor s → idx < length items →
    results s !! idx = Some None →
    ∃ w, workers s !! w = Some (Awaiting idx);
  inv_done : ∀ idx c, results s !! idx = Some (Some c) →
    ∃ a o, items !! idx = Some a ∧ mapper a idx o ∧ c = cell_of o;
  inv_finished : ∀ w, workers s !! w = Some Finished →
    length items ≤ cursor s;
  inv_fresh : ∀ idx, cursor s ≤ idx → idx < length items →
    results s !! idx = Some None;
  inv_no_failure : ∀ w e, workers s !! w ≠ Some (Failed e);
}.

Lemma inv_start :
  inv {| cursor := 0; results := replicate (length items) None;
         workers := [] |}.
Proof.
  split; simpl.
  - apply length_replicate.
  - intros w idx Hw. rewrite lookup_nil in Hw. discriminate.
  - intros w w' idx Hw. rewrite lookup_nil in Hw. discriminate.
  - intros idx Hlt. lia.
  - intros idx c Hc. apply lookup_replicate in Hc as [Hc _]. discriminate.
  - intros w Hw. rewrite lookup_nil in Hw. discriminate.
  - intros idx _ Hlt. apply lookup_replicate. split; [reflexivity|assumption].
  - intros w e Hw. rewrite lookup_nil in Hw. discriminate.
Qed.

Lemma loop_head_cases (i : nat) :
  (length items ≤ i ∧ loop_head i = (S i, Finished))
  ∨ (i < length items ∧ loop_head i = (S i, Awaiting i)).
Proof.
  unfold Pool.loop_head.
  destruct (Nat.leb_spec (length items) i); [left|right]; split;
    (lia || reflexivity).
Qed.

Lemma inv_spawn_one (s : pool B) : inv s → inv (spawn_one items s).
Proof.
  intros [Hlen Haw Huniq Hpend Hdone Hfin Hfresh Hfail].
  unfold spawn_one.
  destruct (loop_head_cases (cursor s)) as [[Hge ->]|[Hlt ->]]; split; simpl.
  - assumption.
  - intros w idx Hw. apply lookup_app_Some in Hw as [Hw|[_ Hw]].
    + destruct (Haw w idx Hw) as (? & ? & ?). repeat split; (lia || assumption).
    + apply list_lookup_singleton_Some in Hw as [_ Hw]. discriminate.
  - intros w w' idx Hw Hw'.
    apply lookup_app_Some in Hw as [Hw|[_ Hw]];
      [|apply list_lookup_singleton_Some in Hw as [_ Hw]; discriminate].
    apply lookup_app_Some in Hw' as [Hw'|[_ Hw']];
      [|apply list_lookup_singleton_Some in Hw' as [_ Hw']; discriminate].
    eauto.
  - intros idx Hidx Hn Hhole.
    destruct (Hpend idx ltac:(lia) Hn Hhole) as [w Hw].
    exists w. apply lookup_app_Some. left. assumption.
  - assumption.
  - intros w Hw. lia.
  - intros idx Hidx Hn. apply Hfresh; lia.
  - intros w e Hw. apply lookup_app_Some in Hw as [Hw|[_ Hw]].
    + exact (Hfail w e Hw).
    + apply list_lookup_singleton_Some in Hw as [_ Hw]. discriminate.
  - assumption.
  - intros w idx Hw. apply lookup_app_Some in Hw as [Hw|[_ Hw]].
    + destruct (Haw w idx Hw) as (? & ? & ?). repeat split; (lia || assumption).
    + apply list_lookup_singleton_Some in Hw as [_ [= <-]].
      repeat split; try lia. apply Hfresh; lia.
  - intros w w' idx Hw Hw'.
    apply lookup_app_Some in Hw as [Hw|[Hwl Hw]];
      apply lookup_app_Some in Hw' as [Hw'|[Hwl' Hw']].
    + eauto.
    + apply list_lookup_singleton_Some in Hw' as [_ [= <-]].
      destruct (Haw w _ Hw). lia.
    + apply list_lookup_singleton_Some in Hw as [_ [= <-]].
      destruct (Haw w' _ Hw'). lia.
    + apply list_lookup_singleton_Some in Hw as [Hw _].
      apply list_lookup_singleton_Some in Hw' as [Hw' _]. lia.
  - intros idx Hidx Hn Hhole.
    destruct (decide (idx = cursor s)) as [->|Hne].
    + exists (length (workers s)). apply lookup_app_Some. right.
      split; [lia|]. rewrite Nat.sub_diag. reflexivity.
    + destruct (Hpend idx ltac:(lia) Hn Hhole) as [w Hw].
      exists w. apply lookup_app_Some. left. assumption.
  - assumption.
  - intros w Hw. apply lookup_app_Some in Hw as [Hw|[_ Hw]].
    + specialize (Hfin w Hw). lia.
    + apply list_lookup_singleton_Some in Hw as [_ Hw]. discriminate.
  - intros idx Hidx Hn. apply Hfresh; lia.
  - intros w e Hw. apply lookup_app_Some in Hw as [Hw|[_ Hw]].
    + exact (Hfail w e Hw).
    + apply list_lookup_singleton_Some in Hw as [_ Hw]. discriminate.
Qed.

Lemma inv_init : inv init.
Proof.
  unfold Pool.init.
  induction (min limit (length items)) as [|k IH]; simpl.
  - apply inv_start.
  - apply inv_spawn_one, IH.
Qed.

Lemma inv_resume (s s' : pool B) (w idx : nat) (a : A) (o : outcome B) :
  inv s →
  workers s !! w = Some (Awaiting idx) →
  items !! idx = Some a →
  mapper a idx o →
  resume items w o s = Some s' →
  inv s'.
Proof.
  intros [Hlen Haw Huniq Hpend Hdone Hfin Hfresh Hfail] Hw Ha Hm Hres.
  unfold resume in Hres. rewrite Hw in Hres.
  destruct (Haw w idx Hw) as (Hic & Hin & Hhole).
  assert (Hwl : w < length (workers s)) by (eapply lookup_lt_Some; eassumption).
  assert (Hother : ∀ w' idx', w' ≠ w →
            workers s !! w' = Some (Awaiting idx') → idx' ≠ idx).
  { intros w' idx' Hne Hw' ->. apply Hne. eauto. }
  destruct (loop_head_cases (cursor s)) as [[Hge Hh]|[Hlt Hh]];
    rewrite Hh in Hres; injection Hres as <-; split; simpl.
  - rewrite length_insert. assumption.
  - intros w' idx' Hw'.
    destruct (decide (w' = w)) as [->|Hne].
    + rewrite list_lookup_insert_eq in Hw' by assumption. discriminate.
    + rewrite list_lookup_insert_ne in Hw' by congruence.
      destruct (Haw w' idx' Hw') as (? & ? & ?).
      repeat split; try lia.
      rewrite list_lookup_insert_ne; [assumption|].
      intros Heq. exact (Hother w' idx' Hne Hw' (eq_sym Heq)).
  - intros w1 w2 idx' H1 H2.
    destruct (decide (w1 = w)) as [->|Hne1];
      [rewrite list_lookup_insert_eq in H1 by assumption; discriminate|].
    destruct (decide (w2 = w)) as [->|Hne2];
      [rewrite list_lookup_insert_eq in H2 by assumption; discriminate|].
    rewrite list_lookup_insert_ne in H1, H2 by congruence. eauto.
  - intros idx' Hidx Hn Hh'.
    destruct (decide (idx' = idx)) as [->|Hne].
    + rewrite list_lookup_insert_eq in Hh' by lia. discriminate.
    + rewrite list_lookup_insert_ne in Hh' by congruence.
      destruct (Hpend idx' ltac:(lia) Hn Hh') as [w' Hw'].
      exists w'. rewrite list_lookup_insert_ne; [assumption|].
      intros ->. rewrite Hw in Hw'. congruence.
  - intros idx' c Hc.
    destruct (decide (idx' = idx)) as [->|Hne].
    + rewrite list_lookup_insert_eq in Hc by lia.
      injection Hc as <-. eauto.
    + rewrite list_lookup_insert_ne in Hc by congruence. eauto.
  - intros w' Hw'. lia.
  - intros idx' Hidx Hn. lia.
  - intros w' e Hw'.
    destruct (decide (w' = w)) as [->|Hne].
    + rewrite list_lookup_insert_eq in Hw' by assumption. discriminate.
    + rewrite list_lookup_insert_ne in Hw' by congruence.
      exact (Hfail w' e Hw').
  - rewrite length_insert. assumption.
  - intros w' idx' Hw'.
    destruct (decide (w' = w)) as [->|Hne].
    + rewrite list_lookup_insert_eq in Hw' by assumption.
      injection Hw' as <-. repeat split; try lia.
      rewrite list_lookup_insert_ne by lia. apply Hfresh; lia.
    + rewrite list_lookup_insert_ne in Hw' by congruence.
      destruct (Haw w' idx' Hw') as (? & ? & ?).
      repeat split; try lia.
      rewrite list_lookup_insert_ne; [assumption|].
      intros Heq. exact (Hother w' idx' Hne Hw' (eq_sym Heq)).
  - intros w1 w2 idx' H1 H2.
    destruct (decide (w1 = w)) as [->|Hne1];
      destruct (decide (w2 = w)) as [->|Hne2]; try reflexivity.
    + rewrite list_lookup_insert_eq in H1 by assumption.
      rewrite list_lookup_insert_ne in H2 by congruence.
      injection H1 as <-. destruct (Haw w2 _ H2). lia.
    + rewrite list_lookup_insert_eq in H2 by assumption.
      rewrite list_lookup_insert_ne in H1 by congruence.
      injection H2 as <-. destruct (Haw w1 _ H1). lia.
    + rewrite list_lookup_insert_ne in H1, H2 by congruence. eauto.
  - intros idx' Hidx Hn Hh'.
    destruct (decide (idx' = idx)) as [->|Hne].
    + rewrite list_lookup_insert_eq in Hh' by lia. discriminate.
    + rewrite list_lookup_insert_ne in Hh' by congruence.
      destruct (decide (idx' = cursor s)) as [->|Hnc].
      * exists w. apply list_lookup_insert_eq. assumption.
      * destruct (Hpend idx' ltac:(lia) Hn Hh') as [w' Hw'].
        exists w'. rewrite list_lookup_insert_ne; [assumption|].
        intros ->. rewrite Hw in Hw'. congruence.
  - intros idx' c Hc.
    destruct (decide (idx' = idx)) as [->|Hne].
    + rewrite list_lookup_insert_eq in Hc by lia.
      injection Hc as <-. eauto.
    + rewrite list_lookup_insert_ne in Hc by congruence. eauto.
  - intros w' Hw'.
    destruct (decide (w' = w)) as [->|Hne].
    + rewrite list_lookup_insert_eq in Hw' by assumption. discriminate.
    + rewrite list_lookup_insert_ne in Hw' by congruence.
      specialize (Hfin w' Hw'). lia.
  - intros idx' Hidx Hn.
    rewrite list_lookup_insert_ne by lia. apply Hfresh; lia.
  - intros w' e Hw'.
    destruct (decide (w' = w)) as [->|Hne].
    + rewrite list_lookup_insert_eq in Hw' by assumption. discriminate.
    + rewrite list_lookup_insert_ne in Hw' by congruence.
      exact (Hfail w' e Hw').
Qed.

Lemma inv_step (s s' : pool B) : inv s → step s s' → inv s'.
Proof. intros Hinv Hstep. destruct Hstep. eapply inv_resume; eassumption. Qed.

Lemma inv_reachable (s : pool B) : rtc step init s → inv s.
Proof.
  revert s. apply (rtc_ind_r inv init).
  - apply inv_init.
  - intros y z _ Hstep Hy. eapply inv_step; eassumption.
Qed.

(** *** The number of workers *)

Lemma workers_spawn_one (s : pool B) :
  length (workers (spawn_one items s)) = S (length (workers s)).
Proof.
  unfold spawn_one, Pool.loop_head. simpl. rewrite length_app. simpl. lia.
Qed.

Lemma workers_spawn (k : nat) (s : pool B) :
  length (workers (Nat.iter k (spawn_one items) s)) = k + length (workers s).
Proof.
  induction k as [|k IH]; [reflexivity|].
  change (Nat.iter (S k) (spawn_one items) s)
    with (spawn_one items (Nat.iter k (spawn_one items) s)).
  rewrite workers_spawn_one, IH. reflexivity.
Qed.

Lemma workers_step (s s' : pool B) :
  step s s' → length (workers s') = length (workers s).
Proof.
  intros [w idx a o s1 s2 Hw _ _ Hres].
  unfold resume, Pool.loop_head in Hres. rewrite Hw in Hres.
  injection Hres as <-. simpl. apply length_insert.
Qed.

Lemma workers_reachable (s : pool B) :
  rtc step init s → length (workers s) = min limit (length items).
Proof.
  revert s. apply (rtc_ind_r _ init).
  - unfold Pool.init. rewrite workers_spawn. simpl. lia.
  - intros y z _ Hstep Hy. rewrite (workers_step y z Hstep). assumption.
Qed.

(** *** What the caller receives *)

Lemma forallb_false_elem {T : Type} (f : T → bool) (l : list T) :
  forallb f l = false → ∃ x, x ∈ l ∧ f x = false.
Proof.
  induction l as [|x l IH]; simpl; [discriminate|].
  destruct (f x) eqn:E; simpl.
  - intros Hl. destruct (IH Hl) as (y & Hy & Hf).
    exists y. split; [right; assumption|assumption].
  - intros _. exists x. split; [left|assumption].
Qed.

Lemma returned_cases (s : pool B) :
  inv s →
  (returned s = None ∧ ∃ w idx, workers s !! w = Some (Awaiting idx))
  ∨ (returned s = Some (Return (results s))
     ∧ ∀ w st, workers s !! w = Some st → st = Finished).
Proof.
  intros Hinv. unfold returned.
  assert (Hnone : omap failure (workers s) = []).
  { destruct (omap failure (workers s)) as [|e l] eqn:E; [reflexivity|].
    assert (He : e ∈ omap failure (workers s)) by (rewrite E; left).
    apply list_elem_of_omap in He as (st & Hst & Hf).
    apply list_elem_of_lookup in Hst as [w Hw].
    destruct st; try discriminate. injection Hf as ->.
    destruct (inv_no_failure s Hinv w e Hw). }
  rewrite Hnone.
  destruct (forallb is_finished (workers s)) eqn:E.
  - right. split; [reflexivity|]. intros w st Hw.
    rewrite forallb_forall in E.
    assert (Hin : In st (workers s)).
    { apply list_elem_of_In, list_elem_of_lookup. eauto. }
    specialize (E st Hin). destruct st; (reflexivity || discriminate).
  - left. split; [reflexivity|].
    apply forallb_false_elem in E as (st & Hin & Hst).
    apply list_elem_of_lookup in Hin as [w Hw].
    destruct st as [idx| |e]; try discriminate.
    + eauto.
    + destruct (inv_no_failure s Hinv w e Hw).
Qed.

(** When the call returns, every index holds the cell of a settlement of
    the mapper on the item of that index. *)
Lemma returned_results (s : pool B) (r : list (option (cell B))) :
  1 ≤ limit →
  rtc step init s →
  returned s = Some (Return r) →
  r = results s
  ∧ length r = length items
  ∧ ∀ i a, items !! i = Some a →
      ∃ o, mapper a i o ∧ r !! i = Some (Some (cell_of o)).
Proof.
  intros Hlimit Hreach Hret.
  pose proof (inv_reachable s Hreach) as Hinv.
  destruct (returned_cases s Hinv) as [[Hn _]|[Hr Hall]]; [congruence|].
  rewrite Hr in Hret. injection Hret as <-.
  split; [reflexivity|]. split; [apply (inv_length s Hinv)|].
  intros i a Ha.
  assert (Hi : i < length items) by (eapply lookup_lt_Some; eassumption).
  assert (Hw0 : ∃ st, workers s !! 0 = Some st).
  { apply lookup_lt_is_Some. rewrite (workers_reachable s Hreach). lia. }
  destruct Hw0 as [st Hst]. pose proof (Hall 0 st Hst) as ->.
  pose proof (inv_finished s Hinv 0 Hst) as Hcur.
  destruct (results s !! i) as [[c|]|] eqn:Hc.
  - destruct (inv_done s Hinv i c Hc) as (a' & o & Ha' & Hm & ->).
    exists o. split; [congruence|reflexivity].
  - destruct (inv_pending s Hinv i ltac:(lia) Hi Hc) as [w Hw].
    pose proof (Hall w _ Hw). discriminate.
  - apply lookup_ge_None in Hc. rewrite (inv_length s Hinv) in Hc. lia.
Qed.

(** *** Every run is finite *)

(** The indexes whose element is still a hole. *)
Fixpoint holes (r : list (option (cell B))) : nat :=
  match r with
  | [] => 0
  | None :: r => S (holes r)
  | Some _ :: r => holes r
  end.

Lemma holes_replicate (n : nat) : holes (replicate n None) = n.
Proof. induction n as [|n IH]; simpl; congruence. Qed.

Lemma holes_fill (r : list (option (cell B))) (idx : nat) (c : cell B) :
  r !! idx = Some None → holes r = S (holes (<[idx := Some c]> r)).
Proof.
  revert idx. induction r as [|x r IH]; intros idx Hidx.
  - rewrite lookup_nil in Hidx. discriminate.
  - destruct idx as [|idx]; simpl in *.
    + injection Hidx as ->. reflexivity.
    + destruct x; simpl; rewrite (IH idx Hidx); reflexivity.
Qed.

Lemma results_spawn (k : nat) (s : pool B) :
  results (Nat.iter k (spawn_one items) s) = results s.
Proof.
  induction k as [|k IH]; [reflexivity|].
  change (Nat.iter (S k) (spawn_one items) s)
    with (spawn_one items (Nat.iter k (spawn_one items) s)).
  unfold spawn_one at 1, Pool.loop_head. simpl. assumption.
Qed.

Lemma holes_step (s s' : pool B) :
  inv s → step s s' → holes (results s) = S (holes (results s')).
Proof.
  intros Hinv Hstep. revert Hinv.
  destruct Hstep as [w idx a o s1 s2 Hw _ _ Hres]. intros Hinv.
  destruct (inv_awaiting s1 Hinv w idx Hw) as (_ & _ & Hhole).
  unfold resume, Pool.loop_head in Hres. rewrite Hw in Hres.
  injection Hres as <-. simpl. apply holes_fill. assumption.
Qed.

Lemma nsteps_holes (n : nat) (s : pool B) :
  nsteps step n init s → n + holes (results s) = length items.
Proof.
  intros Hn.
  assert (Hgen : ∀ s0, inv s0 → nsteps step n s0 s →
            n + holes (results s) = holes (results s0)).
  { clear Hn. intros s0 Hinv Hn. induction Hn as [|n x y z Hxy Hyz IH].
    - reflexivity.
    - rewrite (holes_step x y Hinv Hxy).
      rewrite <- IH by (eapply inv_step; eassumption). lia. }
  rewrite (Hgen init inv_init Hn).
  unfold Pool.init. rewrite results_spawn. simpl. apply holes_replicate.
Qed.

(** *** A pending call can always go on *)

Lemma step_possible (s : pool B) :
  inv s →
  (∀ a i, ∃ o, mapper a i o) →
  returned s = None →
  ∃ s', step s s'.
Proof.
  intros Hinv Htotal Hret.
  destruct (returned_cases s Hinv) as [[_ (w & idx & Hw)]|[Hr _]];
    [|congruence].
  destruct (inv_awaiting s Hinv w idx Hw) as (_ & Hidx & _).
  destruct (lookup_lt_is_Some_2 items idx Hidx) as [a Ha].
  destruct (Htotal a idx) as [o Ho].
  destruct (resume items w o s) as [s'|] eqn:Hres.
  - exists s'. econstructor; eassumption.
  - unfold resume in Hres. rewrite Hw in Hres.
    destruct (loop_head _); discriminate.
Qed.

(** *** The runs that [run] performs *)

Lemma awaiting_elem (s : pool B) (w idx : nat) :
  (w, idx) ∈ awaiting s ↔ workers s !! w = Some (Awaiting idx).
Proof.
  unfold awaiting. rewrite list_elem_of_omap. split.
  - intros ([w' st] & Hin & Hst).
    apply elem_of_lookup_imap in Hin as (i & y & Heq & Hy).
    injection Heq as -> ->. simpl in Hst.
    destruct y; try discriminate. injection Hst as <- <-. assumption.
  - intros Hw. exists (w, Awaiting idx). split; [|reflexivity].
    apply elem_of_lookup_imap. eauto.
Qed.

Lemma nth_mod_elem {T : Type} (n : nat) (p : T) (ps : list T) :
  nth (n mod length (p :: ps)) (p :: ps) p ∈ p :: ps.
Proof.
  apply list_elem_of_In, nth_In, Nat.mod_upper_bound. simpl. lia.
Qed.

Lemma holes_positive (r : list (option (cell B))) (idx : nat) :
  r !! idx = Some None → 1 ≤ holes r.
Proof.
  revert idx. induction r as [|x r IH]; intros idx Hidx.
  - rewrite lookup_nil in Hidx. discriminate.
  - destruct idx as [|idx]; simpl in *.
    + injection Hidx as ->. lia.
    + specialize (IH idx Hidx). destruct x; lia.
Qed.

Section Run.
Variable settle : nat → outcome B.
Hypothesis settle_mapper : ∀ a i, items !! i = Some a → mapper a i (settle i).

Lemma run_step (s : pool B) (w idx : nat) :
  inv s →
  workers s !! w = Some (Awaiting idx) →
  ∃ s', resume items w (settle idx) s = Some s' ∧ step s s'.
Proof.
  intros Hinv Hw.
  destruct (inv_awaiting s Hinv w idx Hw) as (_ & Hidx & _).
  destruct (lookup_lt_is_Some_2 items idx Hidx) as [a Ha].
  destruct (resume items w (settle idx) s) as [s'|] eqn:Hres.
  - exists s'. split; [reflexivity|].
    econstructor; eauto.
  - unfold resume in Hres. rewrite Hw in Hres.
    destruct (loop_head _); discriminate.
Qed.

Lemma run_reachable (choices : list nat) (s : pool B) :
  inv s → rtc step s (run items settle choices s).
Proof.
  revert s. induction choices as [|n choices IH]; intros s Hinv; cbn [run].
  - apply rtc_refl.
  - destruct (awaiting s) as [|p ps] eqn:Haw; [apply rtc_refl|].
    assert (Hin : nth (n mod length (p :: ps)) (p :: ps) p ∈ awaiting s)
      by (rewrite Haw; apply nth_mod_elem).
    destruct (nth (n mod length (p :: ps)) (p :: ps) p) as [w idx].
    apply awaiting_elem in Hin.
    destruct (run_step s w idx Hinv Hin) as (s' & -> & Hstep).
    eapply rtc_l; [exact Hstep|]. apply IH. eapply inv_step; eassumption.
Qed.

Lemma run_complete (choices : list nat) (s : pool B) :
  inv s →
  holes (results s) ≤ length choices →
  awaiting (run items settle choices s) = [].
Proof.
  revert s. induction choices as [|n choices IH]; intros s Hinv Hle; cbn [run].
  - destruct (awaiting s) as [|[w idx] ps] eqn:Haw; [reflexivity|].
    assert (Hin : (w, idx) ∈ awaiting s) by (rewrite Haw; left).
    apply awaiting_elem in Hin.
    destruct (inv_awaiting s Hinv w idx Hin) as (_ & _ & Hhole).
    apply holes_positive in Hhole. simpl in Hle. lia.
  - destruct (awaiting s) as [|p ps] eqn:Haw; [assumption|].
    assert (Hin : nth (n mod length (p :: ps)) (p :: ps) p ∈ awaiting s)
      by (rewrite Haw; apply nth_mod_elem).
    destruct (nth (n mod length (p :: ps)) (p :: ps) p) as [w idx].
    apply awaiting_elem in Hin.
    destruct (run_step s w idx Hinv Hin) as (s' & -> & Hstep).
    apply IH; [eapply inv_step; eassumption|].
    pose proof (holes_step s s' Hinv Hstep). simpl in Hle. lia.
Qed.

(** With at least as many turns as there are items, the call returns. *)
Lemma mapWithConcurrency_returns (choices : list nat) :
  length items ≤ length choices →
  ∃ s, rtc step init s
       ∧ mapWithConcurrency items limit settle choices
         = Some (Return (results s))
       ∧ returned s = Some (Return (results s)).
Proof.
  intros Hlen. exists (run items settle choices init).
  pose proof (run_reachable choices init inv_init) as Hreach.
  split; [assumption|].
  pose proof (inv_reachable _ Hreach) as Hinv.
  assert (Hholes : holes (results init) ≤ length choices).
  { unfold Pool.init. rewrite results_spawn. simpl.
    rewrite holes_replicate. assumption. }
  pose proof (run_complete choices init inv_init Hholes) as Hdone.
  unfold mapWithConcurrency.
  destruct (returned_cases _ Hinv) as [[_ (w & idx & Hw)]|[Hr _]].
  - apply awaiting_elem in Hw. rewrite Hdone in Hw. inversion Hw.
  - split; assumption.
Qed.

End Run.

(** C1: for every list of items and every limit of at least one, in
    every order in which the calls of the mapper settle: the call of
    [mapWithConcurrency] never rejects; it returns only once every worker
    has finished; the array it returns has the length of the input and
    holds at each index [i] what the mapper made of the item of that
    index: the value [b] when the call of the mapper on [items[i]]
    resolved with [b], the marker [{ __error: err }] when it rejected with
    [err]; a call that has not returned can go on as long as the mapper
    settles; and no run takes more turns than there are items.  In
    particular, when the mapper settles at index [i] with [settle i], every
    completion order of at least as many turns as items returns the array
    that holds at each index the value or the marker of [settle i], in
    input order. *)
Theorem mapWithConcurrency_ordered :
  1 ≤ limit →
  (∀ s, rtc step init s →
     (returned s = None ∨ returned s = Some (Return (results s)))
     ∧ (returned s ≠ None →
        ∀ w st, workers s !! w = Some st → st = Finished)
     ∧ (∀ r, returned s = Some (Return r) →
          length r = length items
          ∧ ∀ i a, items !! i = Some a →
              (∃ b, mapper a i (Resolved b)
                    ∧ r !! i = Some (Some (Value b)))
              ∨ (∃ err, mapper a i (Rejected err)
                        ∧ r !! i = Some (Some (ErrorMarker err))))
     ∧ ((∀ a i, ∃ o, mapper a i o) → returned s = None → ∃ s', step s s'))
  ∧ (∀ n s, nsteps step n init s → n ≤ length items)
  ∧ (∀ settle choices,
       (∀ a i o, items !! i = Some a → mapper a i o ↔ o = settle i) →
       length items ≤ length choices →
       ∃ r, mapWithConcurrency items limit settle choices = Some (Return r)
            ∧ length r = length items
            ∧ ∀ i, i < length items →
                match settle i with
                | Resolved b => r !! i = Some (Some (Value b))
                | Rejected err => r !! i = Some (Some (ErrorMarker err))
                end).
Proof.
  intros Hlimit. split; [|split].
  - intros s Hreach.
    pose proof (inv_reachable s Hreach) as Hinv.
    split; [|split; [|split]].
    + destruct (returned_cases s Hinv) as [[Hn _]|[Hr _]]; auto.
    + intros Hret.
      destruct (returned_cases s Hinv) as [[Hn _]|[_ Hall]];
        [contradiction|assumption].
    + intros r Hr.
      destruct (returned_results s r Hlimit Hreach Hr) as (_ & Hlen & Hcells).
      split; [assumption|].
      intros i a Ha. destruct (Hcells i a Ha) as (o & Ho & Hri).
      destruct o as [b|err]; [left|right]; eauto.
    + intros Htotal Hret. apply step_possible; assumption.
  - intros n s Hn. pose proof (nsteps_holes n s Hn). lia.
  - intros settle choices Hsettle Hlen.
    destruct (mapWithConcurrency_returns settle
                (λ a i Ha, proj2 (Hsettle a i (settle i) Ha) eq_refl)
                choices Hlen) as (s & Hreach & Hmap & Hret).
    destruct (returned_results s _ Hlimit Hreach Hret) as (_ & Hl & Hcells).
    exists (results s). split; [assumption|]. split; [assumption|].
    intros i Hi.
    destruct (lookup_lt_is_Some_2 items i Hi) as [a Ha].
    destruct (Hcells i a Ha) as (o & Ho & Hri).
    apply (Hsettle a i o Ha) in Ho. subst o.
    destruct (settle i); assumption.
Qed.

End Pool.

(** With a mapper that settles at index [i] with [settle i], the call
    returns the cells of [settle 0], [settle 1], ... whatever the order of
    completion. *)
Lemma mapWithConcurrency_eq {A B : Type} (items : list A) (limit : nat)
  (settle : nat → outcome B) (choices : list nat) :
  1 ≤ limit →
  length items ≤ length choices →
  mapWithConcurrency items limit settle choices =
    Some (Return (map (λ i, Some (cell_of (settle i)))
                    (seq 0 (length items)))).
Proof.
  intros Hlimit Hlen.
  pose (mapper := λ (_ : A) (i : nat) (o : outcome B), o = settle i).
  destruct (mapWithConcurrency_returns items limit mapper settle
              (λ a i _, eq_refl) choices Hlen) as (s & Hreach & Hmap & Hret).
  destruct (returned_results items limit mapper s _ Hlimit Hreach Hret)
    as (_ & Hl & Hcells).
  rewrite Hmap. do 2 f_equal.
  apply list_eq. intros i.
  destruct (decide (i < length items)) as [Hi|Hi].
  - destruct (lookup_lt_is_Some_2 items i Hi) as [a Ha].
    destruct (Hcells i a Ha) as (o & -> & ->).
    rewrite list_lookup_fmap, lookup_seq_lt by assumption. reflexivity.
  - rewrite lookup_ge_None_2 by lia.
    rewrite lookup_ge_None_2; [reflexivity|].
    rewrite length_map, length_seq. lia.
Qed.

(** *** A pool of two workers over three items *)

(** The mapper resolves with ten times the index, except at index 1,
    where it rejects. *)
Definition settle_demo (i : nat) : outcome nat :=
  match i with
  | 1 => Rejected (Error "boom")
  | _ => Resolved (10 * i)
  end.

Example mapWithConcurrency_demo :
  let expected :=
    Some (Return [Some (Value 0); Some (ErrorMarker (Error "boom"));
                  Some (Value 20)]) in
  mapWithConcurrency ["a"; "b"; "c"] 2 settle_demo [0; 0; 0] = expected
  ∧ mapWithConcurrency ["a"; "b"; "c"] 2 settle_demo [1; 0; 0] = expected
  ∧ mapWithConcurrency ["a"; "b"; "c"] 2 settle_demo [1; 1; 7] = expected
  ∧ mapWithConcurrency ["a"; "b"; "c"] 2 settle_demo [1; 1] = None.
Proof. repeat split; reflexivity. Qed.

Lemma mapWithConcurrency_ordered_demo :
  (∀ n s,
      nsteps (Pool.step ["a"; "b"; "c"]
                (λ (_ : string) (i : nat) (o : outcome nat),
                   o = settle_demo i))
        n (Pool.init ["a"; "b"; "c"] 2) s →
      n ≤ 3)
  ∧ ∃ r,
      mapWithConcurrency ["a"; "b"; "c"] 2 settle_demo [1; 0; 5] =
        Some (Return r)
      ∧ length r = 3
      ∧ r !! 0 = Some (Some (Value 0))
      ∧ r !! 1 = Some (Some (ErrorMarker (Error "boom")))
      ∧ r !! 2 = Some (Some (Value 20)).
Proof.
  destruct (mapWithConcurrency_ordered ["a"; "b"; "c"] 2
              (λ (_ : string) (i : nat) (o : outcome nat), o = settle_demo i)
              ltac:(lia))
    as (_ & Hturns & Hrun).
  split; [exact Hturns|].
  destruct (Hrun settle_demo [1; 0; 5]) as (r & Hr & Hlen & Hcells).
  - intros a i o _. reflexivity.
  - simpl. lia.
  - exists r. split; [exact Hr|]. split; [exact Hlen|].
    split; [|split].
    + apply (Hcells 0). simpl. lia.
    + apply (Hcells 1). simpl. lia.
    + apply (Hcells 2). simpl. lia.
Defined.

End PoolFacts.

(** ** One tick (poller.js, main) *)

Module Tick.

Import Js Router Pool.

Definition CONCURRENCY : nat := 10.

(** *** The checkers that open a connection *)

(** What the network does to the request of [checkHttp]: a response with a
    status code, or no response (an error, or the timer of [withTimeout]
    fires first). *)
Inductive http_outcome : Type :=
| HttpStatus (status : Z)
| HttpFailed.

(** [checkHttp({ url, timeoutMs })], [rtt] being [Date.now() - start] when
    it returns.  It catches everything. *)
Definition checkHttp (o : http_outcome) (rtt : Z) : CheckResult :=
  match o with
  | HttpStatus status =>
      {| online := (200 <=? status)%Z && (status <? 400)%Z;
         rttMs := Some rtt; players := None; version := None;
         disabled := false; skipped := false |}
  | HttpFailed =>
      {| online := false; rttMs := Some rtt; players := None;
         version := None; disabled := false; skipped := false |}
  end.

(** What happens to the socket of [checkTcp]: one of its events
    [connect], [error], [timeout]; or the timer of [withTimeout] fires
    first and rejects; or the executor of its promise throws at once
    ([socket.setTimeout] on an infinite timeout, [socket.connect] on a
    port outside [0..65535]). *)
Inductive tcp_outcome : Type :=
| TcpConnected
| TcpError
| TcpSocketTimeout
| TcpGuardTimeout
| TcpThrew (e : error).

(** [checkTcp({ host, port, timeoutMs })]: it has no [catch]. *)
Definition checkTcp (o : tcp_outcome) (rtt : Z) : completion CheckResult :=
  let result online :=
    {| online := online; rttMs := Some rtt; players := None;
       version := None; disabled := false; skipped := false |} in
  match o with
  | TcpConnected => Return (result true)
  | TcpError | TcpSocketTimeout => Return (result false)
  | TcpGuardTimeout => Throw (Error "tcp-check-timeout")
  | TcpThrew e => Throw e
  end.

(** *** The environment of a tick *)

(** [fsp.readFile(path)]: the bytes, or the [code] of the error. *)
Inductive read_outcome : Type :=
| ReadOk (buf : list byte)
| ReadError (code : string).

(** What a tick does to the file system. *)
Inductive effect : Type :=
| WriteFile (path text : string)
| Rename (src dst : string).

Record env : Type := {
  (** [CONFIG_PATH], [STATUS_PATH] and the temporary name that
      [atomicWriteJson] builds from the process id and the clock. *)
  CONFIG_PATH : string;
  STATUS_PATH : string;
  tmpPath : string;
  (** What reading the two files yields. *)
  config_file : read_outcome;
  status_file : read_outcome;
  (** [nowIso()]. *)
  now : string;
  (** What the network does for the check of each index, and how long the
      check takes. *)
  http : nat → http_outcome;
  tcp : nat → tcp_outcome;
  rtt : nat → Z;
  (** The order in which the checks complete. *)
  completion_order : list nat;
  (** The errors of [fsp.writeFile] and [fsp.rename], if any. *)
  write_error : option error;
  rename_error : option error;
  (** What a failing [fsp.writeFile] leaves behind: nothing when it could
      not create the file, else the number of characters of the text
      that reached the file. *)
  write_left : option nat;
}.

(** What a tick leaves behind: its effects on the file system, the value
    of [process.exitCode] if it set one, and how the promise of [main]
    settled ([None] if it did not, the pool waiting for a check). *)
Record outcome : Type := {
  effects : list effect;
  exitCode : option Z;
  settled : option (completion unit);
}.

Section WithHost.
Context `{Host}.

(** [readJsonIfExists(filePath, fallbackValue)]. *)
Definition readJsonIfExists (file : read_outcome) (fallbackValue : value)
  : completion value :=
  match file with
  | ReadOk buf =>
      match JSON_parse (Buffer_toString buf) with
      | Some v => Return v
      | None => Throw SyntaxError
      end
  | ReadError code =>
      if String.eqb code "ENOENT" || String.eqb code "ENOTDIR"
      then Return fallbackValue
      else Throw (SystemError code)
  end.

(** [atomicWriteJson(filePath, data)]: its effects and its completion.
    A [fsp.writeFile] that fails may have created the temporary file and
    written a part of the text to it. *)
Definition atomicWriteJson (e : env) (filePath : string) (data : value)
  : list effect * completion unit :=
  let json := (JSON_stringify data ++ String "010" "")%string in
  match write_error e with
  | Some err =>
      (match write_left e with
       | Some n => [WriteFile (tmpPath e) (String.substring 0 n json)]
       | None => []
       end,
       Throw err)
  | None =>
      match rename_error e with
      | Some err => ([WriteFile (tmpPath e) json], Throw err)
      | None =>
          ([WriteFile (tmpPath e) json; Rename (tmpPath e) filePath],
           Return tt)
      end
  end.

(** [normalizeStatusArray(maybe)]. *)
Definition normalizeStatusArray (maybe : value) : list value :=
  match maybe with
  | VArray elems => elems
  | _ => []
  end.

(** [makeStatusIndex(statusArr)]: a [Map] from the string ids to the
    items. *)
Definition makeStatusIndex (statusArr : list value) : gmap string value :=
  fold_left
    (λ map item,
       if truthy item then
         match own item f_id with
         | VString id => <[id := item]> map
         | _ => map
         end
       else map)
    statusArr ∅.

(** [statusIndex.get(id)]: every key of the map is a string. *)
Definition Map_get (map : gmap string value) (id : value) : value :=
  match id with
  | VString k => default VUndefined (map !! k)
  | _ => VUndefined
  end.

(** The own properties that [{ ...o }] copies. *)
Definition spread (o : value) : list (string * value) :=
  match o with
  | VObject props => props
  | _ => []
  end.

(** [runCheck(server)] with the checkers it calls, for the check of index
    [idx]. *)
Definition runCheck_io (e : env) (idx : nat) (server : value)
  : completion CheckResult :=
  a ← runCheck server;
  match a with
  | Done r => Return r
  | CheckHttp _ _ => Return (checkHttp (http e idx) (rtt e idx))
  | CheckTcp _ _ => checkTcp (tcp e idx) (rtt e idx)
  end.

(** [next.f = v] if [v] is given, else [delete next.f]. *)
Definition set_or_delete (next : list (string * value)) (k : string)
  (v : option value) : list (string * value) :=
  match v with
  | Some v => Obj.set next k v
  | None => Obj.delete next k
  end.

(** The object [next] that the mapper builds from the stored record
    [base] (or [{ id }]), the id and the result of the check:
    [{ ...base, id, online: Boolean(result.online), lastCheckAt }], then
    [players] and [version] set from the result or deleted. *)
Definition merge (base id : value) (result : CheckResult)
  (checkedAt : string) : value :=
  let next :=
    Obj.set (Obj.set (Obj.set (spread base) "id" id)
               "online" (VBool (online result)))
      "lastCheckAt" (VString checkedAt) in
  let next := set_or_delete next "players" (players result) in
  let next := set_or_delete next "version" (version result) in
  VObject next.

(** The mapper that [main] hands to the pool, for the item [server] at
    index [idx]: what its promise settles to. *)
Definition mapper (e : env) (statusIndex : gmap string value)
  (checkedAt : string) (server : value) (idx : nat) : completion value :=
  id ← get server f_id;
  let base := or_else (Map_get statusIndex id) (VObject [("id", id)]) in
  match id with
  | VString s =>
      if negb (truthy (VString (String_trim s))) then Return VNull
      else
        result ← runCheck_io e idx server;
        Return (merge base id result checkedAt)
  | _ => Return VNull
  end.

Definition settle (e : env) (statusIndex : gmap string value)
  (checkedAt : string) (config : list value) (idx : nat)
  : Pool.outcome value :=
  match mapper e statusIndex checkedAt (default VUndefined (config !! idx)) idx with
  | Return v => Resolved v
  | Throw err => Rejected err
  end.

(** [o[k] = v] on an object created by [{}]: the key [__proto__] is the
    accessor of [Object.prototype], whose setter changes the prototype and
    creates no own property. *)
Definition assign (o : list (string * value)) (k : string) (v : value)
  : list (string * value) :=
  if String.eqb k "__proto__" then o else Obj.set o k v.

(** [o[k].f = v] when [v] is not [undefined]; [o[k]] is the own property
    just assigned, except for [__proto__], which reads the prototype. *)
Definition assign_member (o : list (string * value)) (k f : string)
  (v : value) : list (string * value) :=
  match v with
  | VUndefined => o
  | _ =>
      if String.eqb k "__proto__" then o
      else Obj.set o k (VObject (Obj.set (spread (Obj.get o k)) f v))
  end.

(** One round of the loop [for (const item of results)] of [main]. *)
Definition add_status (nextStatus : list (string * value))
  (item : option (cell value)) : completion (list (string * value)) :=
  match item with
  | None => Return nextStatus
  | Some (ErrorMarker _) => Return nextStatus
  | Some (Value item) =>
      if negb (truthy item) then Return nextStatus
      else if negb (truthy (own item f_id)) then Return nextStatus
      else
        let id := own item f_id in
        let online := own item f_online in
        let lastCheckAt := own item f_lastCheckAt in
        let players := own item f_players in
        let version := own item f_version in
        key ← ToString id;
        let nextStatus :=
          assign nextStatus key
            (VObject [("online", online); ("lastCheckAt", lastCheckAt)]) in
        let nextStatus := assign_member nextStatus key "players" players in
        let nextStatus := assign_member nextStatus key "version" version in
        Return nextStatus
  end.

Fixpoint build_status (results : list (option (cell value)))
  (nextStatus : list (string * value))
  : completion (list (string * value)) :=
  match results with
  | [] => Return nextStatus
  | item :: results =>
      nextStatus ← add_status nextStatus item;
      build_status results nextStatus
  end.

(** The parts of [array.join(sep)]: [null] and [undefined] give the empty
    string, the other elements are converted by ToString. *)
Fixpoint join_parts (l : list value) : completion (list string) :=
  match l with
  | [] => Return []
  | v :: rest =>
      s ← (if is_nullish v then Return "" else ToString v);
      ss ← join_parts rest;
      Return (s :: ss)
  end.

(** The text that [main] prints after [Disabled in config:] once the
    snapshot is written:
    [disabledCount ? config.filter(s => !isEnabled(s)).map(s => s.id).join(", ") : "none"]. *)
Definition disabled_names (config : list value) : completion string :=
  let disabled := List.filter (λ s, negb (isEnabled s)) config in
  if Nat.eqb (length disabled) 0 then Return "none"
  else
    parts ← join_parts (map (λ s, own s f_id) disabled);
    Return (String.concat ", " parts).

(** [main()]: the reads, the pool, the snapshot and its write, then the
    two lines it prints, of which only the completion is kept. *)
Definition main (e : env) : outcome :=
  let stop code :=
    {| effects := []; exitCode := Some code; settled := Some (Return tt) |} in
  let reject err :=
    {| effects := []; exitCode := None; settled := Some (Throw err) |} in
  match readJsonIfExists (config_file e) VNull with
  | Throw err => reject err
  | Return config =>
      if negb (truthy config) then stop 2%Z
      else
        match config with
        | VArray config =>
            match readJsonIfExists (status_file e) (VArray []) with
            | Throw err => reject err
            | Return existingStatusRaw =>
                let existingStatus := normalizeStatusArray existingStatusRaw in
                let statusIndex := makeStatusIndex existingStatus in
                let checkedAt := now e in
                match mapWithConcurrency config CONCURRENCY
                        (settle e statusIndex checkedAt config)
                        (completion_order e) with
                | None =>
                    {| effects := []; exitCode := None; settled := None |}
                | Some (Throw err) => reject err
                | Some (Return results) =>
                    match build_status results [] with
                    | Throw err => reject err
                    | Return nextStatus =>
                        let '(effs, c) :=
                          atomicWriteJson e (STATUS_PATH e)
                            (VObject nextStatus) in
                        {| effects := effs; exitCode := None;
                           settled :=
                             Some (_ ← c;
                                   _ ← disabled_names config;
                                   Return tt) |}
                    end
                end
            end
        | _ => stop 2%Z
        end
  end.

(** The handler [.catch((err) => { ...; process.exitCode = 1; })] that the
    entry point attaches to the promise of a tick. *)
Definition with_catch (o : outcome) : outcome :=
  match settled o with
  | Some (Throw _) =>
      {| effects := effects o; exitCode := Some 1%Z;
         settled := Some (Return tt) |}
  | _ => o
  end.

(** [runOnce()] with the handler of the entry point: one tick as the
    process sees it. *)
Definition runOnce (e : env) : outcome := with_catch (main e).

End WithHost.

End Tick.

(** ** Properties of a tick *)

Module TickFacts.

Import Js Router Pool Tick RouterFacts.

(** *** Own properties *)

Lemma get_set_eq (o : list (string * value)) (k : string) (v : value) :
  Obj.get (Obj.set o k v) k = v.
Proof.
  induction o as [|[k' v'] o IH]; simpl.
  - rewrite String.eqb_refl. reflexivity.
  - destruct (String.eqb_spec k' k) as [->|Hne]; simpl.
    + rewrite String.eqb_refl. reflexivity.
    + rewrite (proj2 (String.eqb_neq k' k) Hne). assumption.
Qed.

Lemma get_set_ne (o : list (string * value)) (k k' : string) (v : value) :
  k ≠ k' → Obj.get (Obj.set o k v) k' = Obj.get o k'.
Proof.
  intros Hne. induction o as [|[k0 v0] o IH]; simpl.
  - rewrite (proj2 (String.eqb_neq k k') Hne). reflexivity.
  - destruct (String.eqb_spec k0 k) as [->|Hne0]; simpl.
    + rewrite (proj2 (String.eqb_neq k k') Hne). reflexivity.
    + rewrite IH. reflexivity.
Qed.

Lemma get_delete_eq (o : list (string * value)) (k : string) :
  Obj.get (Obj.delete o k) k = VUndefined.
Proof.
  induction o as [|[k' v'] o IH]; simpl; [reflexivity|].
  destruct (String.eqb_spec k' k) as [->|Hne]; simpl; [assumption|].
  rewrite (proj2 (String.eqb_neq k' k) Hne). assumption.
Qed.

Lemma get_delete_ne (o : list (string * value)) (k k' : string) :
  k ≠ k' → Obj.get (Obj.delete o k) k' = Obj.get o k'.
Proof.
  intros Hne. induction o as [|[k0 v0] o IH]; simpl; [reflexivity|].
  destruct (String.eqb_spec k0 k) as [->|Hne0]; simpl.
  - rewrite (proj2 (String.eqb_neq k k') Hne). assumption.
  - rewrite IH. reflexivity.
Qed.

Lemma set_set (o : list (string * value)) (k : string) (v v' : value) :
  Obj.set (Obj.set o k v) k v' = Obj.set o k v'.
Proof.
  induction o as [|[k0 v0] o IH]; simpl.
  - rewrite String.eqb_refl. reflexivity.
  - destruct (String.eqb_spec k0 k) as [->|Hne0]; simpl.
    + rewrite String.eqb_refl. reflexivity.
    + rewrite (proj2 (String.eqb_neq k0 k) Hne0), IH. reflexivity.
Qed.

Lemma has_set (o : list (string * value)) (k k' : string) (v : value) :
  Obj.has (Obj.set o k v) k' = String.eqb k k' || Obj.has o k'.
Proof.
  unfold Obj.has. induction o as [|[k0 v0] o IH]; simpl.
  - reflexivity.
  - destruct (String.eqb_spec k0 k) as [->|Hne0]; simpl.
    + destruct (String.eqb k k'); reflexivity.
    + rewrite IH. destruct (String.eqb k0 k'), (String.eqb k k'); reflexivity.
Qed.

Lemma has_get (o : list (string * value)) (k : string) :
  Obj.has o k = false → Obj.get o k = VUndefined.
Proof.
  unfold Obj.has. induction o as [|[k0 v0] o IH]; simpl; [reflexivity|].
  destruct (String.eqb k0 k); simpl; [discriminate|assumption].
Qed.

(** *** The merge *)

(** What the result of a check supplies for an optional field. *)
Definition supplied (v : option value) : value := default VUndefined v.

Lemma get_set_or_delete_eq (o : list (string * value)) (k : string)
  (v : option value) :
  Obj.get (set_or_delete o k v) k = supplied v.
Proof.
  destruct v; simpl; [apply get_set_eq|apply get_delete_eq].
Qed.

Lemma get_set_or_delete_ne (o : list (string * value)) (k k' : string)
  (v : option value) :
  k ≠ k' → Obj.get (set_or_delete o k v) k' = Obj.get o k'.
Proof.
  intros Hne. destruct v; simpl; [apply get_set_ne|apply get_delete_ne];
    assumption.
Qed.

(** The five properties that [main] reads from the merged object do not
    depend on the stored record. *)
Lemma merge_fields (base id : value) (result : CheckResult)
  (checkedAt : string) :
  let next := merge base id result checkedAt in
  truthy next = true
  ∧ own next f_id = id
  ∧ own next f_online = VBool (online result)
  ∧ own next f_lastCheckAt = VString checkedAt
  ∧ own next f_players = supplied (players result)
  ∧ own next f_version = supplied (version result).
Proof.
  unfold merge. cbn [own field_name truthy].
  repeat split.
  - rewrite !get_set_or_delete_ne, !get_set_ne, get_set_eq by discriminate.
    reflexivity.
  - rewrite !get_set_or_delete_ne, !get_set_ne, get_set_eq by discriminate.
    reflexivity.
  - rewrite !get_set_or_delete_ne, get_set_eq by discriminate. reflexivity.
  - rewrite get_set_or_delete_ne, get_set_or_delete_eq by discriminate.
    reflexivity.
  - rewrite get_set_or_delete_eq. reflexivity.
Qed.

(** *** The record written for a target *)

(** A property that is written only when its value is not [undefined]. *)
Definition entries (k : string) (v : value) : list (string * value) :=
  match v with
  | VUndefined => []
  | _ => [(k, v)]
  end.

(** The record of the snapshot for a result: [online], [lastCheckAt], and
    [players] and [version] when the result supplies them. *)
Definition record_of (result : CheckResult) (checkedAt : string) : value :=
  VObject ([("online", VBool (online result));
            ("lastCheckAt", VString checkedAt)]
             ++ entries "players" (supplied (players result))
             ++ entries "version" (supplied (version result))).

Section WithHost.
Context `{Host}.

Lemma assign_member_proto (o : list (string * value)) (f : string)
  (v : value) :
  assign_member o "__proto__" f v = o.
Proof. destruct v; reflexivity. Qed.

Lemma assign_member_set (o props : list (string * value)) (k f : string)
  (v : value) :
  String.eqb k "__proto__" = false →
  assign_member (Obj.set o k (VObject props)) k f v =
    Obj.set o k (VObject (match v with
                          | VUndefined => props
                          | _ => Obj.set props f v
                          end)).
Proof.
  intros Hk. unfold assign_member. rewrite Hk, get_set_eq, set_set.
  destruct v; reflexivity.
Qed.

(** A round of the loop of [main] on an object built by [merge] whose id
    is a non-empty string. *)
Lemma add_status_merge (nextStatus : list (string * value)) (base : value)
  (s : string) (result : CheckResult) (checkedAt : string) :
  s ≠ "" →
  add_status nextStatus
    (Some (Value (merge base (VString s) result checkedAt))) =
    Return (assign nextStatus s (record_of result checkedAt)).
Proof.
  intros Hs. unfold add_status.
  destruct (merge_fields base (VString s) result checkedAt)
    as (Ht & Hid & Hon & Hat & Hpl & Hve).
  cbv zeta in *. rewrite Ht, Hid, Hon, Hat, Hpl, Hve.
  cbn [truthy negb ToString].
  rewrite (proj2 (String.eqb_neq s "") Hs). cbn [negb mbind completion_bind].
  unfold assign, record_of.
  destruct (String.eqb s "__proto__") eqn:Hk.
  - apply String.eqb_eq in Hk. subst s.
    rewrite !assign_member_proto. reflexivity.
  - rewrite assign_member_set by assumption.
    rewrite assign_member_set by assumption.
    do 3 f_equal.
    destruct (supplied (players result)), (supplied (version result));
      reflexivity.
Qed.

(** What the target at index [idx] contributes to the snapshot: nothing
    when the descriptor is [null] or [undefined], when its id is not a
    non-blank string, or when its check raises; else its id and the record
    of the result of its check. *)
Definition emitted (e : env) (server : value) (idx : nat)
  : option (string * value) :=
  if is_nullish server then None
  else match own server f_id with
       | VString s =>
           if negb (truthy (VString (String_trim s))) then None
           else match runCheck_io e idx server with
                | Return result =>
                    if String.eqb s "" then None
                    else Some (s, record_of result (now e))
                | Throw _ => None
                end
       | _ => None
       end.

Definition add_emitted (nextStatus : list (string * value))
  (entry : option (string * value)) : list (string * value) :=
  match entry with
  | Some (k, record) => assign nextStatus k record
  | None => nextStatus
  end.

Lemma add_status_settle (e : env) (statusIndex : gmap string value)
  (config : list value) (nextStatus : list (string * value)) (idx : nat) :
  add_status nextStatus
    (Some (cell_of (settle e statusIndex (now e) config idx))) =
    Return (add_emitted nextStatus
              (emitted e (default VUndefined (config !! idx)) idx)).
Proof.
  unfold settle, mapper, emitted.
  set (server := default VUndefined (config !! idx)).
  unfold get. destruct (is_nullish server); [reflexivity|].
  cbn [mbind completion_bind].
  destruct (own server f_id) as [| | | |s| |]; try reflexivity.
  destruct (negb (truthy (VString (String_trim s)))); [reflexivity|].
  destruct (runCheck_io e idx server) as [result|err]; [|reflexivity].
  cbn [mbind completion_bind cell_of].
  destruct (String.eqb_spec s "") as [->|Hs].
  - unfold add_status.
    destruct (merge_fields
                (or_else (Map_get statusIndex (VString ""))
                   (VObject [("id", VString "")]))
                (VString "") result (now e)) as (Ht & Hid & _).
    cbv zeta in *. rewrite Ht, Hid. reflexivity.
  - apply add_status_merge. assumption.
Qed.

Lemma build_status_settle (e : env) (statusIndex : gmap string value)
  (config : list value) (l : list nat) (nextStatus : list (string * value)) :
  build_status
    (map (λ i, Some (cell_of (settle e statusIndex (now e) config i))) l)
    nextStatus =
    Return (fold_left
              (λ acc i,
                 add_emitted acc
                   (emitted e (default VUndefined (config !! i)) i))
              l nextStatus).
Proof.
  revert nextStatus. induction l as [|i l IH]; intros nextStatus.
  - reflexivity.
  - cbn [map build_status fold_left].
    rewrite add_status_settle. cbn [mbind completion_bind]. apply IH.
Qed.

(** *** The snapshot as a function of the targets *)

Definition snapshot (e : env) (config : list value)
  : list (string * value) :=
  fold_left
    (λ acc i,
       add_emitted acc (emitted e (default VUndefined (config !! i)) i))
    (seq 0 (length config)) [].

(** The same environment with another previous snapshot file. *)
Definition with_status (e : env) (file : read_outcome) : env :=
  {| CONFIG_PATH := CONFIG_PATH e; STATUS_PATH := STATUS_PATH e;
     tmpPath := tmpPath e; config_file := config_file e;
     status_file := file; now := now e; http := http e; tcp := tcp e;
     rtt := rtt e; completion_order := completion_order e;
     write_error := write_error e; rename_error := rename_error e;
     write_left := write_left e |}.

Lemma snapshot_with_status (e : env) (file : read_outcome)
  (config : list value) :
  snapshot (with_status e file) config = snapshot e config.
Proof. reflexivity. Qed.

(** A tick that reads both files, whose checks all complete and whose
    write succeeds. *)
Lemma main_writes (e : env) (config : list value) :
  readJsonIfExists (config_file e) VNull = Return (VArray config) →
  returns (readJsonIfExists (status_file e) (VArray [])) →
  (length config ≤ length (completion_order e))%nat →
  write_error e = None →
  rename_error e = None →
  main e =
    {| effects :=
         [WriteFile (tmpPath e)
            (JSON_stringify (VObject (snapshot e config))
               ++ String "010" "")%string;
          Rename (tmpPath e) (STATUS_PATH e)];
       exitCode := None;
       settled := Some (_ ← disabled_names config; Return tt) |}.
Proof.
  intros Hconfig [raw Hstatus] Hlen Hw Hr.
  unfold main. rewrite Hconfig, Hstatus. cbn [truthy negb].
  rewrite PoolFacts.mapWithConcurrency_eq
    by (try assumption; unfold CONCURRENCY; lia).
  rewrite build_status_settle.
  unfold atomicWriteJson. rewrite Hw, Hr. reflexivity.
Qed.

(** *** Looking an id up in the snapshot *)

Lemma has_assign (o : list (string * value)) (k id : string) (v : value) :
  id ≠ "__proto__" →
  Obj.has (assign o k v) id = String.eqb k id || Obj.has o id.
Proof.
  intros Hid. unfold assign.
  destruct (String.eqb_spec k "__proto__") as [->|Hk].
  - rewrite (proj2 (String.eqb_neq "__proto__" id)) by congruence.
    reflexivity.
  - apply has_set.
Qed.

Lemma get_assign_eq (o : list (string * value)) (id : string) (v : value) :
  id ≠ "__proto__" → Obj.get (assign o id v) id = v.
Proof.
  intros Hid. unfold assign.
  rewrite (proj2 (String.eqb_neq id "__proto__") Hid). apply get_set_eq.
Qed.

Lemma get_assign_ne (o : list (string * value)) (k id : string) (v : value) :
  k ≠ id → Obj.get (assign o k v) id = Obj.get o id.
Proof.
  intros Hne. unfold assign.
  destruct (String.eqb k "__proto__"); [reflexivity|].
  apply get_set_ne. assumption.
Qed.

(** The id under which an entry is written. *)
Definition key_is (id : string) (entry : option (string * value)) : bool :=
  match entry with
  | Some (k, _) => String.eqb k id
  | None => false
  end.

Lemma has_fold (f : nat → option (string * value)) (l : list nat)
  (o : list (string * value)) (id : string) :
  id ≠ "__proto__" →
  Obj.has (fold_left (λ acc i, add_emitted acc (f i)) l o) id =
    Obj.has o id || existsb (λ i, key_is id (f i)) l.
Proof.
  intros Hid. revert o. induction l as [|i l IH]; intros o; simpl.
  - rewrite orb_false_r. reflexivity.
  - rewrite IH. unfold add_emitted, key_is.
    destruct (f i) as [[k v]|]; simpl.
    + rewrite has_assign by assumption.
      destruct (String.eqb k id), (Obj.has o id); reflexivity.
    + reflexivity.
Qed.

Lemma get_fold_none (f : nat → option (string * value)) (l : list nat)
  (o : list (string * value)) (id : string) :
  (∀ j, j ∈ l → key_is id (f j) = false) →
  Obj.get (fold_left (λ acc i, add_emitted acc (f i)) l o) id = Obj.get o id.
Proof.
  revert o. induction l as [|i l IH]; intros o Hnone; simpl; [reflexivity|].
  rewrite IH by (intros j Hj; apply Hnone; right; assumption).
  specialize (Hnone i ltac:(left)). unfold add_emitted, key_is in *.
  destruct (f i) as [[k v]|]; [|reflexivity].
  apply get_assign_ne. apply String.eqb_neq. assumption.
Qed.

Lemma get_fold_unique (f : nat → option (string * value)) (l : list nat)
  (o : list (string * value)) (id : string) (i : nat) (record : value) :
  id ≠ "__proto__" →
  i ∈ l →
  f i = Some (id, record) →
  (∀ j, j ∈ l → j ≠ i → key_is id (f j) = false) →
  Obj.get (fold_left (λ acc i, add_emitted acc (f i)) l o) id = record.
Proof.
  intros Hid. revert o. induction l as [|j l IH]; intros o Hin Hfi Hothers.
  - inversion Hin.
  - simpl. destruct (decide (j = i)) as [->|Hne].
    + destruct (decide (i ∈ l)) as [Hil|Hil].
      * apply IH; [assumption|assumption|].
        intros j Hj Hji. apply Hothers; [right; assumption|assumption].
      * rewrite get_fold_none.
        -- rewrite Hfi. simpl. apply get_assign_eq. assumption.
        -- intros j Hj. apply Hothers; [right; assumption|].
           intros ->. contradiction.
    + apply IH; [|assumption|].
      * apply elem_of_cons in Hin as [->|Hin]; [contradiction|assumption].
      * intros j' Hj' Hji. apply Hothers; [right; assumption|assumption].
Qed.

(** *** Which targets get a record *)

(** The target at index [i] carries the non-blank string [id], and its
    check returned [result]. *)
Definition checked (e : env) (config : list value) (i : nat) (id : string)
  (result : CheckResult) : Prop :=
  ∃ server,
    config !! i = Some server
    ∧ own server f_id = VString id
    ∧ id ≠ ""
    ∧ String_trim id ≠ ""
    ∧ runCheck_io e i server = Return result.

Lemma own_string_object (server : value) (f : field) (s : string) :
  own server f = VString s → is_nullish server = false.
Proof. destruct server; simpl; congruence. Qed.

Lemma truthy_string (s : string) :
  truthy (VString s) = negb (String.eqb s "").
Proof. destruct s; reflexivity. Qed.

Lemma emitted_Some (e : env) (server : value) (i : nat) (id : string)
  (record : value) :
  emitted e server i = Some (id, record) ↔
  own server f_id = VString id
  ∧ id ≠ ""
  ∧ String_trim id ≠ ""
  ∧ ∃ result,
      runCheck_io e i server = Return result
      ∧ record = record_of result (now e).
Proof.
  unfold emitted. split.
  - destruct (is_nullish server); [discriminate|].
    destruct (own server f_id) as [| | | |s| |]; try discriminate.
    rewrite truthy_string, negb_involutive.
    destruct (String.eqb_spec (String_trim s) ""); [discriminate|].
    destruct (runCheck_io e i server) as [result|]; [|discriminate].
    destruct (String.eqb_spec s ""); [discriminate|].
    intros [= <- <-]. eauto 6.
  - intros (Hid & Hne & Htrim & result & Hr & ->).
    rewrite (own_string_object _ _ _ Hid), Hid.
    rewrite truthy_string, negb_involutive.
    rewrite (proj2 (String.eqb_neq _ _) Htrim), Hr.
    rewrite (proj2 (String.eqb_neq _ _) Hne). reflexivity.
Qed.

Lemma emitted_checked (e : env) (config : list value) (i : nat)
  (id : string) (record : value) :
  emitted e (default VUndefined (config !! i)) i = Some (id, record) ↔
  ∃ result, checked e config i id result ∧ record = record_of result (now e).
Proof.
  unfold checked. destruct (config !! i) as [server|].
  - change (default VUndefined (Some server)) with server.
    rewrite emitted_Some. split.
    + intros (Hid & Hne & Htrim & result & Hr & ->).
      exists result. split; [|reflexivity]. exists server. auto.
    + intros [result [[server' (Hi & Hid & Hne & Htrim & Hr)] ->]].
      injection Hi as <-. eauto 7.
  - split; [discriminate|].
    intros [result [[server (Hi & _)] _]]. discriminate.
Qed.

Lemma key_is_checked (e : env) (config : list value) (i : nat)
  (id : string) :
  key_is id (emitted e (default VUndefined (config !! i)) i) = true ↔
  ∃ result, checked e config i id result.
Proof.
  split.
  - destruct (emitted e _ i) as [[k record]|] eqn:He; simpl; [|discriminate].
    intros Hk. apply String.eqb_eq in Hk as ->.
    apply emitted_checked in He as [result [Hc _]]. eauto.
  - intros [result Hc].
    rewrite (proj2 (emitted_checked e config i id _)
               (ex_intro _ result (conj Hc eq_refl))).
    simpl. apply String.eqb_refl.
Qed.

Lemma checked_index (e : env) (config : list value) (i : nat) (id : string)
  (result : CheckResult) :
  checked e config i id result → i ∈ seq 0 (length config).
Proof.
  intros [server [Hi _]]. apply elem_of_seq.
  apply lookup_lt_Some in Hi. lia.
Qed.

Lemma has_snapshot (e : env) (config : list value) (id : string) :
  id ≠ "__proto__" →
  Obj.has (snapshot e config) id = true ↔
  ∃ i result, checked e config i id result.
Proof.
  intros Hid. unfold snapshot.
  rewrite (has_fold
             (λ i, emitted e (default VUndefined (config !! i)) i))
    by assumption.
  simpl. rewrite existsb_exists. split.
  - intros [i [_ Hk]]. apply key_is_checked in Hk as [result Hc]. eauto.
  - intros [i [result Hc]]. exists i. split.
    + apply list_elem_of_In. apply (checked_index _ _ _ _ _ Hc).
    + apply key_is_checked. eauto.
Qed.

Lemma get_snapshot (e : env) (config : list value) (id : string) (i : nat)
  (result : CheckResult) :
  id ≠ "__proto__" →
  checked e config i id result →
  (∀ j server,
      config !! j = Some server → own server f_id = VString id → j = i) →
  Obj.get (snapshot e config) id = record_of result (now e).
Proof.
  intros Hid Hc Hunique. unfold snapshot.
  apply (get_fold_unique
           (λ i, emitted e (default VUndefined (config !! i)) i)
           _ _ id i).
  - assumption.
  - apply (checked_index _ _ _ _ _ Hc).
  - apply emitted_checked. eauto.
  - intros j _ Hne. apply not_true_is_false. intros Hk.
    apply key_is_checked in Hk as [r [server (Hj & Hsid & _)]].
    apply Hne. apply (Hunique j server); assumption.
Qed.

(** *** Targets that are not polled *)

Lemma runCheck_io_not_polled (e : env) (i : nat) (server : value) :
  is_nullish server = false →
  returns (Number (own server f_timeoutMs)) →
  isEnabled server = false ∨ shouldSkipPoll server = Return true →
  ∃ result,
    runCheck_io e i server = Return result
    ∧ online result = false
    ∧ players result = None
    ∧ version result = None.
Proof.
  intros Hn [t Ht] Hcase. unfold runCheck_io.
  rewrite (RouterFacts.runCheck_timeout server t) by assumption. cbv zeta.
  destruct (isEnabled server) eqn:He; simpl.
  - destruct Hcase as [|Hs]; [discriminate|]. rewrite Hs. simpl. eauto.
  - eauto.
Qed.

(** No check that [runCheck] makes supplies [players] or [version]. *)
Lemma runCheck_io_plain (e : env) (i : nat) (server : value)
  (result : CheckResult) :
  runCheck_io e i server = Return result →
  players result = None ∧ version result = None.
Proof.
  unfold runCheck_io. destruct (runCheck server) as [a|] eqn:Ha;
    simpl; [|discriminate].
  destruct a as [r|url t|hp t].
  - intros [= <-]. revert Ha. unfold runCheck. cbv zeta.
    unfold mbind, completion_bind.
    repeat (match goal with
            | |- context [match ?x with _ => _ end] => destruct x eqn:?
            end);
      intros Hr; inversion Hr; split; reflexivity.
  - intros [= <-]. destruct (http e i); split; reflexivity.
  - destruct (tcp e i); simpl; try discriminate;
      intros [= <-]; split; reflexivity.
Qed.

(** C5 (as amended): a tick that reads the target list and the previous
    snapshot, whose checks all complete and whose write succeeds, writes
    one snapshot [nextStatus] (to the temporary file, then renamed to the
    destination), and the result is the same whatever previous snapshot
    was read.  For every id other than [__proto__], the snapshot has a
    record under that id exactly when some target of the list carries it
    as a non-blank string and the check of that target returned, a target
    whose check rejected getting no record; when one target only carries
    the id, the record is [online] and the timestamp of the tick, plus
    [players] and [version] when the result of the check supplies them
    (no check that [runCheck] makes does).  A disabled target, and one
    that is not to be polled, has a check that returns, with the record
    [{online:false, lastCheckAt}] and no other key. *)
Theorem snapshot_postcondition (e : env) (config : list value) :
  readJsonIfExists (config_file e) VNull = Return (VArray config) →
  returns (readJsonIfExists (status_file e) (VArray [])) →
  (length config ≤ length (completion_order e))%nat →
  write_error e = None →
  rename_error e = None →
  ∃ nextStatus,
    effects (main e) =
      [WriteFile (tmpPath e)
         (JSON_stringify (VObject nextStatus) ++ String "010" "")%string;
       Rename (tmpPath e) (STATUS_PATH e)]
    ∧ (∀ file,
         returns (readJsonIfExists file (VArray [])) →
         main (with_status e file) = main e)
    ∧ (∀ id,
         id ≠ "__proto__" →
         (Obj.has nextStatus id = true ↔
          ∃ i result, checked e config i id result)
         ∧ (∀ i result,
              checked e config i id result →
              (∀ j server,
                  config !! j = Some server →
                  own server f_id = VString id → j = i) →
              Obj.get nextStatus id = record_of result (now e)
              ∧ players result = None
              ∧ version result = None))
    ∧ (∀ i server,
         config !! i = Some server →
         is_nullish server = false →
         returns (Number (own server f_timeoutMs)) →
         isEnabled server = false ∨ shouldSkipPoll server = Return true →
         ∃ result,
           runCheck_io e i server = Return result
           ∧ record_of result (now e) =
               VObject [("online", VBool false);
                        ("lastCheckAt", VString (now e))]).
Proof.
  intros Hconfig Hstatus Hlen Hw Hr.
  exists (snapshot e config). split; [|split; [|split]].
  - rewrite (main_writes e config) by assumption. reflexivity.
  - intros file Hfile.
    rewrite (main_writes e config) by assumption.
    rewrite (main_writes (with_status e file) config) by assumption.
    reflexivity.
  - intros id Hid. split.
    + apply has_snapshot. assumption.
    + intros i result Hc Hunique. split.
      * apply (get_snapshot e config id i); assumption.
      * destruct Hc as [server (_ & _ & _ & _ & Hrun)].
        apply (runCheck_io_plain e i server). assumption.
  - intros i server _ Hn Ht Hcase.
    destruct (runCheck_io_not_polled e i server Hn Ht Hcase)
      as [result (Hrun & Ho & Hp & Hv)].
    exists result. split; [assumption|].
    unfold record_of. rewrite Ho, Hp, Hv. reflexivity.
Qed.

(** *** A previous snapshot that does not parse *)

Lemma readJsonIfExists_unparsable (buf : list byte) (fallbackValue : value) :
  JSON_parse (Buffer_toString buf) = None →
  readJsonIfExists (ReadOk buf) fallbackValue = Throw SyntaxError.
Proof. intros Hp. unfold readJsonIfExists. rewrite Hp. reflexivity. Qed.

(** C9: when the previous snapshot file is read and its text is not JSON,
    the tick writes nothing and renames nothing, and the process exit
    code is set to 1 or 2; when the target list was read as an array, the
    promise of [main] rejects with the error of [JSON.parse], and the
    handler of the entry point sets the exit code to 1. *)
Theorem unparsable_snapshot_aborts (e : env) (buf : list byte) :
  status_file e = ReadOk buf →
  JSON_parse (Buffer_toString buf) = None →
  effects (runOnce e) = []
  ∧ (exitCode (runOnce e) = Some 1%Z ∨ exitCode (runOnce e) = Some 2%Z)
  ∧ (∀ config,
       readJsonIfExists (config_file e) VNull = Return (VArray config) →
       main e =
         {| effects := []; exitCode := None;
            settled := Some (Throw SyntaxError) |}
       ∧ runOnce e =
           {| effects := []; exitCode := Some 1%Z;
              settled := Some (Return tt) |}).
Proof.
  intros Hs Hp.
  assert (Hmain : ∀ config,
             readJsonIfExists (config_file e) VNull = Return (VArray config) →
             main e =
               {| effects := []; exitCode := None;
                  settled := Some (Throw SyntaxError) |}).
  { intros config Hc. unfold main. rewrite Hc. cbn [truthy negb].
    rewrite Hs, (readJsonIfExists_unparsable buf) by assumption.
    reflexivity. }
  split; [|split].
  - unfold runOnce.
    destruct (readJsonIfExists (config_file e) VNull) as [config|err] eqn:Hc.
    + destruct config as [| | | | |config|];
        try (unfold main; rewrite Hc; cbn [truthy negb];
             repeat match goal with
                    | |- context [if ?b then _ else _] => destruct b
                    end; reflexivity).
      rewrite (Hmain config eq_refl). reflexivity.
    + unfold main. rewrite Hc. reflexivity.
  - unfold runOnce.
    destruct (readJsonIfExists (config_file e) VNull) as [config|err] eqn:Hc.
    + destruct config as [| | | | |config|];
        try (right; unfold main; rewrite Hc; cbn [truthy negb];
             repeat match goal with
                    | |- context [if ?b then _ else _] => destruct b
                    end; reflexivity).
      left. rewrite (Hmain config eq_refl). reflexivity.
    + left. unfold main. rewrite Hc. reflexivity.
  - intros config Hc. split; [exact (Hmain config Hc)|].
    unfold runOnce. rewrite (Hmain config Hc). reflexivity.
Qed.

(** *** A check that rejects *)

(** C2 (as amended): in every state the pool can reach, under any order
    of completion, no worker has failed and the call has not rejected;
    once it has returned, the element at each index is the marker
    [{ __error: err }] only if the mapper of that index rejected with
    [err], and a value only if the mapper of that index resolved with it.
    Run with a settling of the mappers, the call returns an array in which
    an index holds the marker exactly when its own mapper rejected, and
    the value of its own mapper otherwise.  The marker is not treated as
    an offline result: [main] passes over it and adds no record to the
    snapshot for it. *)
Theorem mapWithConcurrency_isolates_errors {A B : Type} (items : list A)
  (limit : nat) (mapper : A → nat → Pool.outcome B → Prop) :
  (1 ≤ limit)%nat →
  (∀ s, rtc (step items mapper) (init items limit) s →
     (∀ w err, workers s !! w ≠ Some (Failed err))
     ∧ (∀ err, returned s ≠ Some (Throw err))
     ∧ ∀ r, returned s = Some (Return r) →
         ∀ i a, items !! i = Some a →
           match r !! i with
           | Some (Some (ErrorMarker err)) => mapper a i (Rejected err)
           | Some (Some (Value b)) => mapper a i (Resolved b)
           | _ => False
           end)
  ∧ (∀ (settle : nat → Pool.outcome B) choices,
       (length items ≤ length choices)%nat →
       ∃ r,
         mapWithConcurrency items limit settle choices = Some (Return r)
         ∧ ∀ i, (i < length items)%nat →
             (∀ err, settle i = Rejected err ↔
                     r !! i = Some (Some (ErrorMarker err)))
             ∧ (∀ b, settle i = Resolved b ↔ r !! i = Some (Some (Value b))))
  ∧ (∀ nextStatus err,
       add_status nextStatus (Some (ErrorMarker err)) = Return nextStatus).
Proof.
  intros Hlimit. split; [|split].
  - intros s Hreach.
    pose proof (PoolFacts.inv_reachable items limit mapper s Hreach) as Hinv.
    split; [apply (PoolFacts.inv_no_failure items mapper s Hinv)|]. split.
    + intros err Herr.
      destruct (PoolFacts.returned_cases items mapper s Hinv)
        as [[Hn _]|[Hr _]]; congruence.
    + intros r Hret i a Ha.
      destruct (PoolFacts.returned_results items limit mapper s r
                  Hlimit Hreach Hret) as (_ & _ & Hcells).
      destruct (Hcells i a Ha) as (o & Hm & ->).
      destruct o; assumption.
  - intros settle choices Hlen. eexists. split.
    + apply PoolFacts.mapWithConcurrency_eq; assumption.
    + intros i Hi.
      rewrite list_lookup_fmap, lookup_seq_lt by assumption. simpl.
      split; intros x; (split; [intros ->; reflexivity|]);
        destruct (settle i); simpl; congruence.
  - reflexivity.
Qed.

End WithHost.

(** *** A tick on the reference host *)

(** A text with its apostrophes turned into double quotes. *)
Fixpoint requote (s : string) : string :=
  match s with
  | EmptyString => EmptyString
  | String c s =>
      String (if Ascii.eqb c "'"%char then "034"%char else c) (requote s)
  end.

(** Four targets: one with a URL, one with a port that [socket.connect]
    refuses, one disabled, and one without an id. *)
Definition sample_config_text : string :=
  requote
    ("[{'id':'web','url':'http://a'},"
       ++ "{'id':'bad','host':'h','port':70000},"
       ++ "{'id':'off','enabled':false,'host':'h','port':25565},"
       ++ "{'host':'h','port':1}]").

(** The previous snapshot, with details for two of them. *)
Definition sample_status_text : string :=
  requote
    ("[{'id':'web','online':false,'players':{'online':1,'max':2},"
       ++ "'version':'1.20','lastCheckAt':'then'},"
       ++ "{'id':'bad','online':true,'lastCheckAt':'then'}]").

(** The request to [web] is answered with status 200; [socket.connect]
    throws on the port of [bad]. *)
Definition sample : env :=
  {| CONFIG_PATH := "servers.config.json";
     STATUS_PATH := "status.json";
     tmpPath := ".status.json.1.0.tmp";
     config_file := ReadOk (Minecraft.Buffer_from_string sample_config_text);
     status_file := ReadOk (Minecraft.Buffer_from_string sample_status_text);
     now := "2026-01-01T00:00:00.000Z";
     http := λ _, HttpStatus 200;
     tcp := λ i, if Nat.eqb i 1 then TcpThrew RangeError else TcpConnected;
     rtt := λ _, 12%Z;
     completion_order := [3; 1; 0; 2]%nat;
     write_error := None;
     rename_error := None;
     write_left := None |}.

(** The target list, parsed. *)
Definition sample_config : list value :=
  Eval vm_compute in
    match JSON_parse (Host := RefHost.host) sample_config_text with
    | Some (VArray config) => config
    | _ => []
    end.

Definition sample_record (online : bool) : value :=
  VObject [("online", VBool online);
           ("lastCheckAt", VString "2026-01-01T00:00:00.000Z")].

(** The tick writes records for [web] and [off]: [web] loses the
    [players] and [version] of the previous snapshot, and [off] is
    disabled. *)
Lemma snapshot_postcondition_sample :
  ∃ nextStatus,
    effects (main (H := RefHost.host) sample) =
      [WriteFile ".status.json.1.0.tmp"
         (JSON_stringify (Host := RefHost.host) (VObject nextStatus)
            ++ String "010" "")%string;
       Rename ".status.json.1.0.tmp" "status.json"]
    ∧ Obj.has nextStatus "web" = true
    ∧ Obj.get nextStatus "web" = sample_record true
    ∧ main (H := RefHost.host) (with_status sample (ReadError "ENOENT")) =
        main (H := RefHost.host) sample.
Proof.
  destruct (snapshot_postcondition (H := RefHost.host) sample sample_config)
    as [nextStatus (Hmain & Hfile & Hids & _)].
  - vm_compute. reflexivity.
  - eexists. vm_compute. reflexivity.
  - vm_compute. lia.
  - reflexivity.
  - reflexivity.
  - assert (Hweb : checked (H := RefHost.host) sample sample_config 0 "web"
                     {| online := true; rttMs := Some 12%Z; players := None;
                        version := None; disabled := false;
                        skipped := false |}).
    { eexists. split; [reflexivity|]. split; [reflexivity|].
      split; [discriminate|]. split; [vm_compute; discriminate|].
      vm_compute. reflexivity. }
    destruct (Hids "web") as [Hhas Hget]; [discriminate|].
    exists nextStatus. split; [rewrite Hmain; reflexivity|].
    split; [|split].
    + apply Hhas. eauto.
    + apply (Hget 0%nat _ Hweb).
      intros j server Hj Hid.
      destruct j as [|[|[|[|j]]]]; [reflexivity|..];
        vm_compute in Hj; try discriminate;
        injection Hj as <-; vm_compute in Hid; discriminate.
    + apply Hfile. eexists. vm_compute. reflexivity.
Defined.

(** The target [bad] carries a non-blank string id, and the tick writes
    no record for it: [socket.connect] refuses its port, so its check
    rejects and the pool keeps an error marker that [main] passes over. *)
Lemma snapshot_misses_rejected_check :
  readJsonIfExists (H := RefHost.host) (config_file sample) VNull =
    Return (VArray sample_config)
  ∧ (∃ server,
       sample_config !! 1%nat = Some server
       ∧ own server f_id = VString "bad"
       ∧ own server f_port = VNumber (num 70000))
  ∧ ∃ nextStatus,
      nextStatus = [("web", sample_record true); ("off", sample_record false)]
      ∧ Obj.has nextStatus "bad" = false
      ∧ main (H := RefHost.host) sample =
          {| effects :=
               [WriteFile ".status.json.1.0.tmp"
                  (JSON_stringify (Host := RefHost.host) (VObject nextStatus)
                     ++ String "010" "")%string;
                Rename ".status.json.1.0.tmp" "status.json"];
             exitCode := None;
             settled := Some (Return tt) |}.
Proof.
  split; [vm_compute; reflexivity|].
  split; [eexists; repeat split; vm_compute; reflexivity|].
  eexists. split; [reflexivity|].
  split; vm_compute; reflexivity.
Qed.

(** C2 as stated fails on the sample tick: the check of [bad] rejects
    and the pool stores the marker at its index, but the marker has no
    [online] and no [id], and [main] passes over it: the snapshot built
    from the results holds nothing under [bad], neither an offline record
    nor an error flag, whereas the disabled target [off] is recorded
    offline. *)
Lemma rejected_check_is_not_recorded_offline :
  ∃ results nextStatus,
    mapWithConcurrency sample_config CONCURRENCY
      (settle (H := RefHost.host) sample ∅ (now sample) sample_config)
      (completion_order sample) = Some (Return results)
    ∧ results !! 1%nat = Some (Some (ErrorMarker RangeError))
    ∧ build_status (H := RefHost.host) results [] = Return nextStatus
    ∧ Obj.has nextStatus "bad" = false
    ∧ Obj.get nextStatus "bad" = VUndefined
    ∧ Obj.get nextStatus "off" = sample_record false
    ∧ effects (main (H := RefHost.host) sample) =
        [WriteFile ".status.json.1.0.tmp"
           (JSON_stringify (Host := RefHost.host) (VObject nextStatus)
              ++ String "010" "")%string;
         Rename ".status.json.1.0.tmp" "status.json"].
Proof.
  eexists _, _. split; [vm_compute; reflexivity|].
  split; [reflexivity|]. split; [vm_compute; reflexivity|].
  repeat split; vm_compute; reflexivity.
Qed.

(** The same tick with a previous snapshot cut short. *)
Definition sample_cut : env :=
  with_status sample (ReadOk (Minecraft.Buffer_from_string "[{")).

Lemma unparsable_snapshot_aborts_sample :
  effects (runOnce (H := RefHost.host) sample_cut) = []
  ∧ exitCode (runOnce (H := RefHost.host) sample_cut) = Some 1%Z
  ∧ settled (main (H := RefHost.host) sample_cut) = Some (Throw SyntaxError).
Proof.
  destruct (unparsable_snapshot_aborts (H := RefHost.host) sample_cut
              (Minecraft.Buffer_from_string "[{") eq_refl)
    as (Heffects & _ & Hmain).
  - vm_compute. reflexivity.
  - destruct (Hmain sample_config) as [Hm Hr].
    + vm_compute. reflexivity.
    + split; [assumption|]. rewrite Hr, Hm. split; reflexivity.
Defined.

(** The pool of the same tick: the check of [bad] rejects, and its index
    alone holds a marker. *)
Lemma mapWithConcurrency_isolates_errors_sample :
  ∃ r,
    mapWithConcurrency sample_config CONCURRENCY
      (settle (H := RefHost.host) sample ∅ (now sample) sample_config)
      (completion_order sample) = Some (Return r)
    ∧ r !! 1%nat = Some (Some (ErrorMarker RangeError))
    ∧ r !! 3%nat = Some (Some (Value VNull)).
Proof.
  pose (settled := settle (H := RefHost.host) sample ∅ (now sample)
                     sample_config).
  destruct (mapWithConcurrency_isolates_errors (H := RefHost.host)
              sample_config CONCURRENCY (λ _ i o, o = settled i))
    as (_ & Hrun & _); [unfold CONCURRENCY; lia|].
  destruct (Hrun settled (completion_order sample)) as (r & Heq & Hcells);
    [simpl; lia|].
  exists r. split; [exact Heq|]. split.
  - apply (Hcells 1%nat); [simpl; lia|]. vm_compute. reflexivity.
  - apply (Hcells 3%nat); [simpl; lia|]. vm_compute. reflexivity.
Defined.

End TickFacts.

(** ** The entry point of the script *)

Module Entry.

Import Js Tick.

(** The async functions that the top level of the script calls.  Each
    call runs at once up to its first [await] and returns a pending
    promise, to which the top level attaches the handler that sets the
    exit code to 1. *)
Inductive call : Type :=
| RunOnce
| RunWatch
| Main.

(** [args.has(flag)], [args] being the set of the command-line
    arguments. *)
Definition has (args : list string) (flag : string) : bool :=
  existsb (String.eqb flag) args.

Definition watch (args : list string) : bool :=
  has args "--watch" || has args "-w".

(** The calls of the top level, in program order:
    [(watch ? runWatch() : runOnce()).catch(...)] under [Entry point],
    and [main().catch(...)] at the end of the file. *)
Definition top_level (args : list string) : list call :=
  [if watch args then RunWatch else RunOnce; Main].

(** The ticks that a call starts before it first suspends: [runOnce]
    awaits [main()], [runWatch] awaits [runOnce()] (and sets its interval
    afterwards), [main] is a tick itself.  A tick started this way is
    suspended at the read of the target list when the call returns. *)
Definition ticks_started (c : call) : nat :=
  match c with
  | RunOnce => 1
  | RunWatch => 1
  | Main => 1
  end.

(** The number of ticks in flight when the top level has run. *)
Definition in_flight (args : list string) : nat :=
  list_sum (map ticks_started (top_level args)).

(** What these ticks leave behind, the tick number [k] running in the
    environment [envs k]; both handlers are the one of [runOnce]. *)
Definition process `{Host} (args : list string) (envs : nat → env)
  : list outcome :=
  map (λ k, runOnce (envs k)) (seq 0 (in_flight args)).

(** The renames onto [dst] that a tick performs. *)
Definition renames_onto (dst : string) (eff : effect) : bool :=
  match eff with
  | Rename _ d => String.eqb d dst
  | WriteFile _ _ => false
  end.

Definition writes_to (dst : string) (o : outcome) : nat :=
  length (List.filter (renames_onto dst) (effects o)).

(** C6: without [--watch] and [-w], the top level calls [runOnce()] and
    then [main()]: two ticks are in flight when it has run, not one, and
    the process leaves the effects of both. *)
Theorem two_ticks_without_watch `{Host} (args : list string) :
  watch args = false →
  top_level args = [RunOnce; Main]
  ∧ in_flight args = 2%nat
  ∧ ∀ envs, process args envs = [runOnce (envs 0%nat); runOnce (envs 1%nat)].
Proof.
  intros Hw. unfold process, in_flight, top_level. rewrite Hw.
  repeat split.
Qed.

(** Run without arguments on the sample tick, the script renames a
    temporary file onto the snapshot twice. *)
Lemma two_ticks_sample :
  watch [] = false
  ∧ in_flight [] = 2%nat
  ∧ map (writes_to "status.json")
      (process (H := RefHost.host) [] (λ _, TickFacts.sample)) = [1; 1]%nat.
Proof.
  destruct (two_ticks_without_watch (H := RefHost.host) [] eq_refl)
    as (_ & Hn & Hp).
  split; [reflexivity|]. split; [exact Hn|].
  rewrite Hp. vm_compute. reflexivity.
Defined.

End Entry.

(** ** More on the varint codec *)

Module VarintCodec.

Import JsInt Varint.

(** The number of bytes the encoder writes for a value of [k + 1] base-128
    digits. *)
Lemma writeVarInt_loop_digits_length (k : nat) (v : Z) :
  0 <= v →
  128 ^ Z.of_nat k <= v ∨ k = 0%nat →
  v < 128 ^ (Z.of_nat k + 1) →
  v < 2 ^ 32 →
  Buf.length (writeVarInt_loop [] v) = Z.of_nat k + 1.
Proof.
  revert v. induction k as [|k IH]; intros v H0 Hlo Hhi H32.
  - rewrite writeVarInt_loop_digits by lia.
    change (128 ^ (Z.of_nat 0 + 1)) with 128 in Hhi.
    destruct (Z.ltb_spec v 128); [reflexivity|lia].
  - destruct Hlo as [Hlo|]; [|discriminate].
    replace (Z.of_nat (S k)) with (Z.of_nat k + 1) in Hlo by lia.
    replace (Z.of_nat (S k) + 1) with (Z.succ (Z.of_nat k + 1)) in Hhi by lia.
    rewrite Z.pow_succ_r in Hhi by lia.
    assert (H128 : 128 <= 128 ^ (Z.of_nat k + 1)).
    { change 128 with (128 ^ 1) at 1. apply Z.pow_le_mono_r; lia. }
    rewrite writeVarInt_loop_digits by lia.
    destruct (Z.ltb_spec v 128); [lia|].
    unfold Buf.length in *. cbn [List.length].
    rewrite Nat2Z.inj_succ, (IH (v / 128)).
    + lia.
    + apply Z.div_pos; lia.
    + destruct k as [|k]; [right; reflexivity|left].
      replace (Z.of_nat (S k)) with (Z.of_nat k + 1) in * by lia.
      apply Z.div_le_lower_bound; [lia|].
      replace (Z.of_nat k + 1 + 1) with (Z.succ (Z.of_nat k + 1)) in Hlo by lia.
      rewrite Z.pow_succ_r in Hlo by lia. lia.
    + apply Z.div_lt_upper_bound; lia.
    + apply Z.div_lt_upper_bound; lia.
Qed.

(** The bytes of an encoding, as the decoder tests them. *)
Lemma writeVarInt_flags (v : Z) :
  let out := writeVarInt v in
  continues (byte_at out (Buf.length out - 1)) = false
  ∧ ∀ i, 0 <= i < Buf.length out - 1 → continues (byte_at out i) = true.
Proof.
  cbv zeta.
  destruct (readVarInt_writeVarInt_int32 v []) as [Hread _].
  rewrite app_nil_r in Hread. unfold readVarInt in Hread.
  destruct (readVarInt_loop_Some _ _ _ _ _ Hread)
    as (_ & _ & _ & Hlast & Hrest).
  cbn [size] in Hlast, Hrest. split.
  - exact Hlast.
  - intros i Hi. apply (Hrest i). lia.
Qed.

Lemma byte_at_range (buf : list byte) (i : Z) : 0 <= byte_at buf i < 256.
Proof.
  unfold byte_at. destruct (Buf.get buf i); [apply Buf.to_Z_range|lia].
Qed.

(** X1: a signed 32-bit integer survives [writeVarInt] followed by
    [readVarInt], wherever the encoding lies in a buffer: the decoder,
    started at the first byte of the encoding, returns the integer and the
    number of bytes of the encoding, whatever precedes and follows.  A
    negative integer takes five bytes. *)
Theorem readVarInt_writeVarInt_signed (pre post : list byte) (v : Z) :
  - 2 ^ 31 <= v < 2 ^ 31 →
  readVarInt (pre ++ writeVarInt v ++ post) (Buf.length pre) =
    Some {| value := v; size := Buf.length (writeVarInt v) |}
  ∧ (v < 0 → Buf.length (writeVarInt v) = 5).
Proof.
  intros Hv. split.
  - rewrite readVarInt_encoded_at, ToInt32_small by assumption. reflexivity.
  - intros Hneg. rewrite writeVarInt_eq.
    assert (Hu : ToUint32 v = v + 2 ^ 32).
    { unfold ToUint32. symmetry. apply (Z.mod_unique _ _ (-1)); lia. }
    apply (writeVarInt_loop_digits_length 4); rewrite Hu; simpl; lia.
Qed.

Lemma readVarInt_writeVarInt_signed_minus_one :
  map Buf.to_Z (writeVarInt (-1)) = [0xff; 0xff; 0xff; 0xff; 0x0f]
  ∧ readVarInt (Buf.from [0x07] ++ writeVarInt (-1) ++ Buf.from [0x2a]) 1 =
      Some {| value := -1; size := 5 |}.
Proof.
  split; [vm_compute; reflexivity|].
  exact (proj1 (readVarInt_writeVarInt_signed
                  (Buf.from [0x07]) (Buf.from [0x2a]) (-1) ltac:(lia))).
Defined.

(** X2: the length of [writeVarInt(value)] is the number of base-128
    digits of [value >>> 0]: one byte below [2^7], two below [2^14], three
    below [2^21], four below [2^28], five otherwise.  Every byte but the
    last has its high bit set, and the last has not. *)
Theorem writeVarInt_length (v : Z) :
  let u := ToUint32 v in
  let out := writeVarInt v in
  Buf.length out =
    (if u <? 2 ^ 7 then 1
     else if u <? 2 ^ 14 then 2
     else if u <? 2 ^ 21 then 3
     else if u <? 2 ^ 28 then 4
     else 5)
  ∧ byte_at out (Buf.length out - 1) < 128
  ∧ ∀ i, 0 <= i < Buf.length out - 1 → 128 <= byte_at out i.
Proof.
  cbv zeta. split.
  - rewrite writeVarInt_eq. pose proof (ToUint32_range v) as Hu.
    destruct (Z.ltb_spec (ToUint32 v) (2 ^ 7));
      [apply (writeVarInt_loop_digits_length 0); simpl; lia|].
    destruct (Z.ltb_spec (ToUint32 v) (2 ^ 14));
      [apply (writeVarInt_loop_digits_length 1); simpl; lia|].
    destruct (Z.ltb_spec (ToUint32 v) (2 ^ 21));
      [apply (writeVarInt_loop_digits_length 2); simpl; lia|].
    destruct (Z.ltb_spec (ToUint32 v) (2 ^ 28));
      [apply (writeVarInt_loop_digits_length 3); simpl; lia|].
    apply (writeVarInt_loop_digits_length 4); simpl; lia.
  - destruct (writeVarInt_flags v) as [Hlast Hrest]. split.
    + rewrite continues_byte in Hlast by apply byte_at_range.
      apply negb_false_iff, Z.ltb_lt in Hlast. exact Hlast.
    + intros i Hi. specialize (Hrest i Hi).
      rewrite continues_byte in Hrest by apply byte_at_range.
      apply negb_true_iff, Z.ltb_ge in Hrest. exact Hrest.
Qed.

Lemma readVarInt_loop_local (buf buf' : list byte) (offset : Z) (r : varint) :
  ∀ (m : nat) (numRead result : Z),
    m = Z.to_nat (6 - numRead) →
    readVarInt_loop buf offset numRead result = Some r →
    offset + size r <= Buf.length buf' →
    (∀ i, numRead <= i < size r →
          byte_at buf' (offset + i) = byte_at buf (offset + i)) →
    readVarInt_loop buf' offset numRead result = Some r.
Proof.
  induction m as [m IH] using lt_wf_ind.
  intros numRead result Hm Hread Hlen Hsame.
  destruct (readVarInt_loop_Some _ _ _ _ _ Hread) as (Hsize & _).
  rewrite readVarInt_loop_eq in Hread. rewrite readVarInt_loop_eq.
  destruct (offset + numRead >=? Buf.length buf); [discriminate|].
  assert (Hin : (offset + numRead >=? Buf.length buf') = false)
    by (rewrite Z.geb_leb; apply Z.leb_gt; lia).
  rewrite Hin.
  destruct (numRead + 1 >? 5) eqn:Hfive; [discriminate|].
  rewrite (Hsame numRead) by lia.
  destruct (continues (byte_at buf (offset + numRead))); [|exact Hread].
  assert (Hlt : numRead + 1 <= 5).
  { destruct (Z.gtb_spec (numRead + 1) 5); [discriminate|lia]. }
  pose proof (readVarInt_loop_Some _ _ _ _ _ Hread) as (Hsize' & _).
  apply (IH (Z.to_nat (6 - (numRead + 1)))); try assumption; try lia.
  intros i Hi. apply Hsame. lia.
Qed.

(** X3: [readVarInt] looks at no byte beyond those it counts in [size]:
    when it returns a result on one buffer, it returns the same result on
    every buffer that holds the same bytes at these positions. *)
Theorem readVarInt_local (buf buf' : list byte) (offset : Z) (r : varint) :
  readVarInt buf offset = Some r →
  offset + size r <= Buf.length buf' →
  (∀ i, 0 <= i < size r →
        byte_at buf' (offset + i) = byte_at buf (offset + i)) →
  readVarInt buf' offset = Some r.
Proof.
  intros Hread Hlen Hsame. unfold readVarInt in *.
  apply (readVarInt_loop_local buf buf' offset r (Z.to_nat (6 - 0)) 0 0);
    auto.
Qed.

Lemma readVarInt_local_example :
  readVarInt (Buf.from [0xdd; 0xc7; 0x01; 0x00]) 0 =
    Some {| value := 25565; size := 3 |}
  ∧ readVarInt (Buf.from [0xdd; 0xc7; 0x01; 0xff; 0xff]) 0 =
      Some {| value := 25565; size := 3 |}.
Proof.
  assert (H : readVarInt (Buf.from [0xdd; 0xc7; 0x01; 0x00]) 0 =
                Some {| value := 25565; size := 3 |})
    by (vm_compute; reflexivity).
  split; [exact H|].
  apply (readVarInt_local _ _ 0 _ H); [vm_compute; discriminate|].
  intros i Hi. cbn [size] in Hi.
  assert (Hc : i = 0 ∨ i = 1 ∨ i = 2) by lia.
  destruct Hc as [->|[->| ->]]; reflexivity.
Defined.

(** X4: [readVarInt] does not return [null] for a negative offset: the
    element it reads there is [undefined], which the bit operators take
    for [0], so it returns the value [0] with size [1], on every buffer. *)
Theorem readVarInt_negative_offset (buf : list byte) (offset : Z) :
  offset < 0 →
  readVarInt buf offset = Some {| value := 0; size := 1 |}.
Proof.
  intros Hneg. unfold readVarInt. rewrite readVarInt_loop_eq.
  assert (Hin : (offset + 0 >=? Buf.length buf) = false)
    by (rewrite Z.geb_leb; apply Z.leb_gt; unfold Buf.length; lia).
  rewrite Hin. cbn [Z.add Z.gtb Z.compare Pos.compare Pos.compare_cont].
  assert (Hb : byte_at buf (offset + 0) = 0).
  { unfold byte_at, Buf.get. rewrite (proj2 (Z.ltb_lt _ _)) by lia.
    reflexivity. }
  rewrite Hb. reflexivity.
Qed.

Lemma readVarInt_negative_offset_example :
  readVarInt (Buf.from [0x05]) (-1) = Some {| value := 0; size := 1 |}.
Proof. apply readVarInt_negative_offset. lia. Defined.

End VarintCodec.

(** ** The packets of the status ping *)

Module HandshakeFacts.

Import JsInt Js Router Varint Minecraft.

Lemma Buf_length_app (a b : list byte) :
  Buf.length (a ++ b) = Buf.length a + Buf.length b.
Proof. unfold Buf.length. rewrite length_app. lia. Qed.

Lemma writeVarInt_size (v : Z) : 1 <= Buf.length (writeVarInt v) <= 5.
Proof. exact (proj2 (readVarInt_writeVarInt_int32 v [])). Qed.

Lemma byte_at_after (pre post : list byte) (b : byte) :
  byte_at (pre ++ b :: post) (Buf.length pre) = Buf.to_Z b.
Proof. exact (byte_at_middle pre post b). Qed.

(** X5: for a port in [0..65535] and a host name whose bytes, with the
    fourteen bytes around them, stay below [2^31],
    [buildMcHandshakePacket] returns a packet that reads back field by
    field: a length prefix that counts exactly the bytes after it, the
    packet id [0], the protocol version as an int32, the byte length of the
    host name followed by its bytes, the port in two bytes, high byte
    first, and the next state [1] as the last byte.  For any other
    integral port it throws the [RangeError] of [writeUInt16BE]. *)
Theorem buildMcHandshakePacket_frame (host : string) (port pv : Z) :
  Buf.length (Buffer_from_string host) + 14 < 2 ^ 31 →
  (0 <= port <= 65535 →
   ∃ packet s p h,
     buildMcHandshakePacket host port pv = Return packet
     ∧ readVarInt packet 0 =
         Some {| value := Buf.length packet - s; size := s |}
     ∧ readVarInt packet s = Some {| value := 0; size := 1 |}
     ∧ readVarInt packet (s + 1) = Some {| value := ToInt32 pv; size := p |}
     ∧ readVarInt packet (s + 1 + p) =
         Some {| value := Buf.length (Buffer_from_string host); size := h |}
     ∧ let q := s + 1 + p + h + Buf.length (Buffer_from_string host) in
       Buf.slice packet (s + 1 + p + h) q = Buffer_from_string host
       ∧ byte_at packet q = port / 256
       ∧ byte_at packet (q + 1) = port mod 256
       ∧ readVarInt packet (q + 2) = Some {| value := 1; size := 1 |}
       ∧ Buf.length packet = q + 3)
  ∧ (port < 0 ∨ 65535 < port →
     buildMcHandshakePacket host port pv = Throw RangeError).
Proof.
  intros Hhost. split.
  - intros Hport. unfold buildMcHandshakePacket, writeUInt16BE.
    rewrite (proj2 (Z.leb_le 0 port)), (proj2 (Z.leb_le port 65535)) by lia.
    cbn [andb mbind completion_bind]. cbv zeta.
    set (hb := Buffer_from_string host) in *.
    set (P := writeVarInt pv).
    set (HL := writeVarInt (Buf.length hb)).
    set (hi := Buf.of_Z (port / 256)). set (lo := Buf.of_Z port).
    change (writeVarInt 0) with [Buf.of_Z 0].
    change (writeVarInt 1) with [Buf.of_Z 1].
    unfold writeString. fold hb. fold HL.
    set (data := [Buf.of_Z 0] ++ P ++ (HL ++ hb) ++ [hi; lo] ++ [Buf.of_Z 1]).
    set (A := writeVarInt (Buf.length data)).
    pose proof (writeVarInt_size pv) as HP. fold P in HP.
    pose proof (writeVarInt_size (Buf.length hb)) as HHL. fold HL in HHL.
    assert (Hhb : 0 <= Buf.length hb) by (unfold Buf.length; lia).
    assert (Hdata : Buf.length data =
                      1 + Buf.length P + Buf.length HL + Buf.length hb + 3).
    { unfold data. rewrite !Buf_length_app.
      change (Buf.length [Buf.of_Z 0]) with 1.
      change (Buf.length [hi; lo]) with 2.
      change (Buf.length [Buf.of_Z 1]) with 1. lia. }
    exists (A ++ data), (Buf.length A), (Buf.length P), (Buf.length HL).
    split; [reflexivity|].
    split.
    { pose proof (proj1 (readVarInt_writeVarInt_int32 (Buf.length data) data))
        as Hframe.
      fold A in Hframe. rewrite Hframe.
      rewrite ToInt32_small, Buf_length_app by lia.
      do 2 f_equal. lia. }
    split.
    { unfold data.
      exact (readVarInt_encoded_at A _ 0). }
    split.
    { unfold data.
      replace (Buf.length A + 1) with (Buf.length (A ++ [Buf.of_Z 0]))
        by (rewrite Buf_length_app; change (Buf.length [Buf.of_Z 0]) with 1; lia).
      rewrite (app_assoc A [Buf.of_Z 0]).
      exact (readVarInt_encoded_at (A ++ [Buf.of_Z 0]) _ pv). }
    split.
    { unfold data.
      replace (Buf.length A + 1 + Buf.length P)
        with (Buf.length (A ++ [Buf.of_Z 0] ++ P))
        by (rewrite !Buf_length_app; change (Buf.length [Buf.of_Z 0]) with 1; lia).
      replace (A ++ [Buf.of_Z 0] ++ P ++ (HL ++ hb) ++ [hi; lo] ++ [Buf.of_Z 1])
        with ((A ++ [Buf.of_Z 0] ++ P)
                ++ writeVarInt (Buf.length hb) ++ hb ++ [hi; lo] ++ [Buf.of_Z 1])
        by (fold HL; rewrite <- !app_assoc; reflexivity).
      rewrite readVarInt_encoded_at, ToInt32_small by lia. reflexivity. }
    cbv zeta.
    assert (Hsplit : A ++ data =
                       (A ++ [Buf.of_Z 0] ++ P ++ HL)
                         ++ hb ++ [hi; lo] ++ [Buf.of_Z 1])
      by (unfold data; rewrite <- !app_assoc; reflexivity).
    assert (Hpre : Buf.length (A ++ [Buf.of_Z 0] ++ P ++ HL) =
                     Buf.length A + 1 + Buf.length P + Buf.length HL)
      by (rewrite !Buf_length_app; change (Buf.length [Buf.of_Z 0]) with 1;
          lia).
    split.
    { rewrite Hsplit, <- Hpre, Buf.slice_from by assumption.
      unfold Buf.length. rewrite Nat2Z.id, take_app_length. reflexivity. }
    assert (Hq : Buf.length A + 1 + Buf.length P + Buf.length HL
                   + Buf.length hb =
                 Buf.length ((A ++ [Buf.of_Z 0] ++ P ++ HL) ++ hb))
      by (rewrite Buf_length_app, Hpre; lia).
    split.
    { rewrite Hsplit, Hq, app_assoc. simpl app.
      rewrite byte_at_after. unfold hi. rewrite Buf.to_of_Z.
      apply Z.mod_small. split; [apply Z.div_pos; lia|].
      apply Z.div_lt_upper_bound; lia. }
    split.
    { replace (Buf.length A + 1 + Buf.length P + Buf.length HL
                 + Buf.length hb + 1)
        with (Buf.length (((A ++ [Buf.of_Z 0] ++ P ++ HL) ++ hb) ++ [hi]))
        by (rewrite Buf_length_app, <- Hq; change (Buf.length [hi]) with 1; lia).
      rewrite Hsplit.
      replace ((A ++ [Buf.of_Z 0] ++ P ++ HL) ++ hb ++ [hi; lo] ++ [Buf.of_Z 1])
        with ((((A ++ [Buf.of_Z 0] ++ P ++ HL) ++ hb) ++ [hi])
                ++ lo :: [Buf.of_Z 1])
        by (rewrite <- !app_assoc; reflexivity).
      rewrite byte_at_after. unfold lo. apply Buf.to_of_Z. }
    split.
    { replace (Buf.length A + 1 + Buf.length P + Buf.length HL
                 + Buf.length hb + 2)
        with (Buf.length (((A ++ [Buf.of_Z 0] ++ P ++ HL) ++ hb) ++ [hi; lo]))
        by (rewrite Buf_length_app, <- Hq; change (Buf.length [hi; lo]) with 2;
            lia).
      rewrite Hsplit.
      replace ((A ++ [Buf.of_Z 0] ++ P ++ HL) ++ hb ++ [hi; lo] ++ [Buf.of_Z 1])
        with ((((A ++ [Buf.of_Z 0] ++ P ++ HL) ++ hb) ++ [hi; lo])
                ++ writeVarInt 1 ++ [])
        by (rewrite <- !app_assoc; reflexivity).
      exact (readVarInt_encoded_at _ [] 1). }
    rewrite Buf_length_app, Hdata. lia.
  - intros Hport. unfold buildMcHandshakePacket, writeUInt16BE.
    destruct Hport.
    + rewrite (proj2 (Z.leb_gt 0 port)) by lia. reflexivity.
    + rewrite (proj2 (Z.leb_gt port 65535)) by lia.
      rewrite andb_false_r. reflexivity.
Qed.

Lemma buildMcHandshakePacket_frame_example :
  ∃ packet s p,
    buildMcHandshakePacket "mc.example.org" 25565 758 = Return packet
    ∧ readVarInt packet 0 =
        Some {| value := Buf.length packet - s; size := s |}
    ∧ readVarInt packet (s + 1) = Some {| value := 758; size := p |}.
Proof.
  destruct (proj1 (buildMcHandshakePacket_frame "mc.example.org" 25565 758
                     ltac:(vm_compute; reflexivity)) ltac:(lia))
    as (packet & s & p & h & Hbuild & Hframe & _ & Hpv & _).
  exists packet, s, p. split; [exact Hbuild|]. split; [exact Hframe|].
  exact Hpv.
Defined.

Section WithHost.
Context `{Host}.

(** *** The promise of [checkMinecraft] *)


Lemma checkMinecraft_rejected (host : string) (port : Z)
  (timeoutMs : Js.value) (start : Z) (events : list (Z * event))
  (err : error) :
  executor_error timeoutMs port = Some err →
  settled (checkMinecraft host port timeoutMs start events) =
    Some (Throw err).
Proof. intros He. unfold checkMinecraft. rewrite He. reflexivity. Qed.

Lemma checkMinecraft_snoc (host : string) (port : Z) (timeoutMs : Js.value)
  (start : Z) (events : list (Z * event)) (now : Z) (ev : event) :
  executor_error timeoutMs port = None →
  checkMinecraft host port timeoutMs start (events ++ [(now, ev)]) =
    on_event host port start now ev
      (checkMinecraft host port timeoutMs start events).
Proof.
  intros He. unfold checkMinecraft. rewrite He, fold_left_app. reflexivity.
Qed.

Lemma executor_port (timeoutMs : Js.value) (port : Z) :
  executor_error timeoutMs port = None → 0 <= port <= 65535.
Proof.
  unfold executor_error, connect_error.
  destruct (setTimeout_error timeoutMs); [discriminate|].
  destruct (Z.leb_spec 0 port); [|discriminate].
  destruct (Z.leb_spec port 65535); [|discriminate]. lia.
Qed.




Lemma on_close_markers (chunks : list (list byte)) :
  disabled (on_close chunks) = false ∧ skipped (on_close chunks) = false.
Proof.
  unfold on_close. cbv zeta.
  repeat match goal with
         | |- context [match ?x with _ => _ end] => destruct x
         end; split; reflexivity.
Qed.



(** *** A connection closed before a reply *)

Lemma on_close_short (chunks : list (list byte)) :
  Buf.length (concat chunks) <= 2 → on_close chunks = offline.
Proof.
  intros Hlen. unfold on_close. cbv zeta.
  destruct (readVarInt (concat chunks) 0) as [r1|] eqn:H1; [|reflexivity].
  destruct (readVarInt (concat chunks) (size r1)) as [r2|] eqn:H2;
    [|reflexivity].
  destruct (negb (value r2 =? 0)); [reflexivity|].
  destruct (readVarInt (concat chunks) (size r1 + size r2)) as [r3|] eqn:H3;
    [|reflexivity].
  exfalso. unfold readVarInt in H1, H2, H3.
  destruct (readVarInt_loop_Some _ _ _ _ _ H1) as (S1 & _).
  destruct (readVarInt_loop_Some _ _ _ _ _ H2) as (S2 & _).
  destruct (readVarInt_loop_Some _ _ _ _ _ H3) as (S3 & L3 & _).
  lia.
Qed.

(** The chunks that the ['data'] events deliver, in order. *)
Definition received (events : list (Z * event)) : list (list byte) :=
  omap (λ e, match snd e with Data d => Some d | _ => None end) events.

Lemma checkMinecraft_pending (host : string) (port : Z)
  (timeoutMs : Js.value) (start : Z) (events : list (Z * event)) :
  executor_error timeoutMs port = None →
  (∀ now ev, (now, ev) ∈ events → ev = Connect ∨ ∃ d, ev = Data d) →
  settled (checkMinecraft host port timeoutMs start events) = None
  ∧ chunks (checkMinecraft host port timeoutMs start events) =
      received events.
Proof.
  intros He. pose proof (executor_port timeoutMs port He) as Hport.
  induction events as [|[now ev] events IH] using rev_ind.
  - intros _. unfold checkMinecraft. rewrite He. split; reflexivity.
  - intros Hq. rewrite checkMinecraft_snoc by assumption.
    destruct IH as [Hs Hc].
    { intros t e Hin. apply (Hq t e). apply elem_of_app. left. assumption. }
    unfold received. rewrite omap_app. fold (received events).
    destruct (Hq now ev) as [->|[d ->]];
      [apply elem_of_app; right; left| |].
    + unfold on_event, buildMcHandshakePacket, writeUInt16BE.
      rewrite (proj2 (Z.leb_le 0 port)), (proj2 (Z.leb_le port 65535))
        by lia.
      simpl. rewrite app_nil_r. split; assumption.
    + simpl. rewrite Hc. split; [assumption|reflexivity].
Qed.

(** X7: when the socket of [checkMinecraft] closes after connecting and
    receiving fewer than three bytes in all, none included, the promise
    resolves with [online] false and the time of the ['close'] event since
    the start, without players or version; unless its executor threw
    (a [timeoutMs] that [socket.setTimeout] refuses, a port outside
    [0..65535]), in which case the promise was rejected at once with that
    error. *)
Theorem checkMinecraft_closed_early (host : string) (port : Z)
  (timeoutMs : Js.value) (start now : Z) (events : list (Z * event)) :
  (∀ t ev, (t, ev) ∈ events → ev = Connect ∨ ∃ d, ev = Data d) →
  Buf.length (concat (received events)) <= 2 →
  settled (checkMinecraft host port timeoutMs start
             (events ++ [(now, Close)])) =
    Some (match executor_error timeoutMs port with
          | Some err => Throw err
          | None =>
              Return {| online := false; rttMs := Some (now - start);
                        players := None; version := None;
                        disabled := false; skipped := false |}
          end).
Proof.
  intros Hq Hlen.
  destruct (executor_error timeoutMs port) as [err|] eqn:He;
    [apply checkMinecraft_rejected; assumption|].
  destruct (checkMinecraft_pending host port timeoutMs start events He Hq)
    as [Hs Hc].
  rewrite checkMinecraft_snoc by assumption. unfold on_event, finish.
  rewrite Hs, Hc, on_close_short by assumption. reflexivity.
Qed.

Lemma on_close_concat (chunks : list (list byte)) :
  on_close chunks = on_close [concat chunks].
Proof.
  unfold on_close. cbn [concat]. rewrite app_nil_r. reflexivity.
Qed.

(** X21: the reply may arrive in any number of chunks: when the socket of
    [checkMinecraft] closes after connecting and receiving data, the
    promise resolves with what the parser makes of the received bytes
    joined together, and with the time of the ['close'] event since the
    start; unless its executor threw (a [timeoutMs] that
    [socket.setTimeout] refuses, a port outside [0..65535]), in which case
    the promise was rejected at once with that error. *)
Theorem checkMinecraft_chunking (host : string) (port : Z)
  (timeoutMs : Js.value) (start now : Z) (events : list (Z * event)) :
  (∀ t ev, (t, ev) ∈ events → ev = Connect ∨ ∃ d, ev = Data d) →
  settled (checkMinecraft host port timeoutMs start
             (events ++ [(now, Close)])) =
    Some (match executor_error timeoutMs port with
          | Some err => Throw err
          | None =>
              Return
                (let reply := on_close [concat (received events)] in
                 {| online := online reply; rttMs := Some (now - start);
                    players := players reply; version := version reply;
                    disabled := false; skipped := false |})
          end).
Proof.
  intros Hq.
  destruct (executor_error timeoutMs port) as [err|] eqn:He;
    [apply checkMinecraft_rejected; assumption|].
  destruct (checkMinecraft_pending host port timeoutMs start events He Hq)
    as [Hs Hc].
  rewrite checkMinecraft_snoc by assumption. unfold on_event, finish.
  rewrite Hs, Hc. cbv zeta. rewrite <- on_close_concat.
  destruct (on_close_markers (received events)) as [-> ->]. reflexivity.
Qed.

End WithHost.


(** A server that accepts the connection and closes it after one byte. *)
Lemma checkMinecraft_closed_early_example :
  settled (checkMinecraft (H := RefHost.host) "h" 25565
             (VNumber (num 3500)) 1000
             ([(1005, Connect); (1030, Data (Buf.from [0x7b]))]
                ++ [(1042, Close)])) =
    Some (Return {| online := false; rttMs := Some 42;
                    players := None; version := None;
                    disabled := false; skipped := false |}).
Proof.
  apply (checkMinecraft_closed_early (H := RefHost.host) "h" 25565
           (VNumber (num 3500)) 1000 1042).
  - intros t ev Hin.
    apply elem_of_cons in Hin as [[= -> ->]|Hin]; [left; reflexivity|].
    apply elem_of_cons in Hin as [[= -> ->]|Hin]; [right; eauto|].
    inversion Hin.
  - vm_compute. discriminate.
Defined.

(** The reply of the round trip, cut into three chunks. *)
Lemma checkMinecraft_chunking_example :
  ∃ res,
    settled (checkMinecraft (H := RefHost.host) "h" 25565
               (VNumber (num 3500)) 1000
               ([(1005, Connect);
                 (1030, Data (take 3 (MinecraftFacts.response_packet
                                        MinecraftFacts.status_document)));
                 (1031, Data []);
                 (1032, Data (drop 3 (MinecraftFacts.response_packet
                                        MinecraftFacts.status_document)))]
                  ++ [(1042, Close)])) = Some (Return res)
    ∧ online res = true.
Proof.
  eexists. split.
  - apply (checkMinecraft_chunking (H := RefHost.host) "h" 25565
             (VNumber (num 3500)) 1000 1042).
    intros t ev Hin.
    repeat (apply elem_of_cons in Hin as [[= -> ->]|Hin];
            [first [left; reflexivity|right; eauto]|]).
    inversion Hin.
  - vm_compute. reflexivity.
Defined.

End HandshakeFacts.

(** ** What [runCheck] decides *)

Module RoutingFacts.

Import Js Router.

Section WithHost.
Context `{Host}.

Lemma runCheck_returns (server : value) (a : action) :
  runCheck server = Return a →
  is_nullish server = false
  ∧ ∃ n, Number (own server f_timeoutMs) = Return n.
Proof.
  unfold runCheck, get. destruct (is_nullish server); [discriminate|].
  cbn [mbind completion_bind].
  destruct (Number (own server f_timeoutMs)) as [n|]; [|discriminate].
  eauto.
Qed.

(** A descriptor that [shouldSkipPoll] lets through has a usable URL or a
    usable host and port. *)
Lemma shouldSkipPoll_false (server : value) :
  is_nullish server = false →
  shouldSkipPoll server = Return false →
  ∃ hp, pickHostPort server = Return hp
        ∧ usable_url (own server f_url) || usable_host_port hp = true.
Proof.
  intros Hn. unfold shouldSkipPoll.
  rewrite !(RouterFacts.get_object server) by assumption.
  cbn [mbind completion_bind]. cbv zeta.
  destruct (pickHostPort server) as [hp|err].
  - cbn [mbind completion_bind].
    destruct (usable_url (own server f_url) || usable_host_port hp) eqn:E;
      [intros _; exists hp; split; [reflexivity|exact E]|].
    cbn [negb].
    destruct (or_else (own server f_ip) (own server f_host));
      try discriminate.
    repeat (match goal with
            | |- context [match ?x with _ => _ end] =>
                is_var x; destruct x; try discriminate
            end).
  - cbn [mbind completion_bind].
    destruct (or_else (own server f_ip) (own server f_host));
      try discriminate.
    repeat (match goal with
            | |- context [match ?x with _ => _ end] =>
                is_var x; destruct x; try discriminate
            end).
Qed.

Definition disabled_result : CheckResult :=
  {| online := false; rttMs := None; players := None; version := None;
     disabled := true; skipped := false |}.

Definition skipped_result : CheckResult :=
  {| online := false; rttMs := None; players := None; version := None;
     disabled := false; skipped := true |}.

(** X8: whenever [runCheck] gets as far as a decision, it is one of four:
    the disabled result for a disabled descriptor; the skipped result when
    [shouldSkipPoll] says so; the HTTP checker on [server.url], which is
    then a string that starts with [http]; or the TCP checker on the host
    and port of [pickHostPort], which are then usable.  The timeout it
    hands to a checker is greater than zero.  The closing
    [return { online: false }] is never reached: a descriptor that
    [shouldSkipPoll] lets through always has a checker. *)
Theorem runCheck_cases (server : value) (a : action) :
  runCheck server = Return a →
  match a with
  | Done r =>
      (isEnabled server = false ∧ r = disabled_result)
      ∨ (isEnabled server = true
         ∧ shouldSkipPoll server = Return true
         ∧ r = skipped_result)
  | CheckHttp url t =>
      isEnabled server = true
      ∧ shouldSkipPoll server = Return false
      ∧ url = own server f_url
      ∧ usable_url url = true
      ∧ gt0 t = true
  | CheckTcp hp t =>
      isEnabled server = true
      ∧ shouldSkipPoll server = Return false
      ∧ usable_url (own server f_url) = false
      ∧ pickHostPort server = Return hp
      ∧ usable_host_port hp = true
      ∧ gt0 t = true
  end.
Proof.
  intros Hrun.
  destruct (runCheck_returns server a Hrun) as (Hn & n & Ht).
  rewrite (RouterFacts.runCheck_timeout server n) in Hrun by assumption.
  cbv zeta in Hrun.
  assert (Hpos : gt0 (if gt0 n then n else DEFAULT_TIMEOUT_MS) = true).
  { destruct (gt0 n) eqn:Hg; [assumption|reflexivity]. }
  destruct (isEnabled server) eqn:He; cbn [negb] in Hrun.
  2: { injection Hrun as <-. left. split; reflexivity. }
  destruct (shouldSkipPoll server) as [skip|] eqn:Hskip; [|discriminate].
  cbn [mbind completion_bind] in Hrun.
  destruct skip.
  { injection Hrun as <-. right. repeat split; reflexivity. }
  destruct (shouldSkipPoll_false server Hn Hskip) as (hp & Hhp & Huse).
  unfold chooseChecker in Hrun.
  rewrite (RouterFacts.get_object server) in Hrun by assumption.
  cbn [mbind completion_bind] in Hrun.
  destruct (usable_url (own server f_url)) eqn:Hurl.
  - cbn [mbind completion_bind] in Hrun.
    injection Hrun as <-. repeat split; assumption.
  - rewrite Hhp in Hrun. cbn [mbind completion_bind orb] in *.
    rewrite Huse in Hrun. cbn [mbind completion_bind] in Hrun.
    injection Hrun as <-. repeat split; assumption.
Qed.

(** *** A port without a host *)

(** A port that converts to a number above zero is truthy, on a host
    whose [Number("")] is not above zero. *)
Lemma positive_port_truthy (port : value) (n : number) :
  gt0 (StringToNumber "") = false →
  Number port = Return n →
  gt0 n = true →
  port ≠ VUndefined →
  truthy port = true.
Proof.
  intros Hempty Hnum Hpos Hdef.
  destruct port as [| |[|]|m|s|l|props]; try reflexivity.
  - contradiction.
  - injection Hnum as <-. discriminate.
  - injection Hnum as <-. discriminate.
  - injection Hnum as <-. destruct m as [[|]| | |]; try reflexivity;
      discriminate.
  - destruct s; [|reflexivity].
    injection Hnum as <-. congruence.
Qed.

Lemma truthy_or_else_r (a b : value) :
  truthy b = true → truthy (or_else a b) = true.
Proof.
  intros Hb. unfold or_else. destruct (truthy a) eqn:Ha; assumption.
Qed.

(** X9: for a descriptor (not [null] or [undefined]) whose [port]
    converts to a number, on a host where [Number("")] is not above zero
    (as in JavaScript, where it is [0]), the host and port of
    [pickHostPort] are usable exactly when [port] is present and converts
    to a finite number above zero: such a port is truthy, so a descriptor
    without [ip] and [host] gets the loopback address [127.0.0.1]. *)
Theorem usable_port_suffices (server : value) (n : number) :
  is_nullish server = false →
  gt0 (StringToNumber "") = false →
  Number (own server f_port) = Return n →
  ∃ hp,
    pickHostPort server = Return hp
    ∧ (usable_host_port hp = true ↔
       own server f_port ≠ VUndefined
       ∧ Number_isFinite (VNumber n) = true
       ∧ gt0 n = true)
    ∧ (usable_host_port hp = true →
       truthy (or_else (own server f_ip) (own server f_host)) = false →
       hp_host hp = VString "127.0.0.1").
Proof.
  intros Hn Hempty Hnum. exists (RouterFacts.picked server n).
  split; [apply RouterFacts.pickHostPort_object; assumption|].
  assert (Hiff : usable_host_port (RouterFacts.picked server n) = true ↔
                 own server f_port ≠ VUndefined
                 ∧ Number_isFinite (VNumber n) = true
                 ∧ gt0 n = true).
  { unfold usable_host_port, RouterFacts.picked.
    cbn [hp_host hp_port]. split.
    - intros Hu. apply andb_true_iff in Hu as [_ Hp].
      destruct (own server f_port); try discriminate;
        apply andb_true_iff in Hp as [Hf Hg];
        (split; [discriminate|split; assumption]).
    - intros (Hdef & Hf & Hg).
      pose proof (positive_port_truthy _ n Hempty Hnum Hg Hdef) as Ht.
      rewrite Ht, truthy_or_else_r by reflexivity.
      destruct (own server f_port); try contradiction;
        rewrite Hf, Hg; reflexivity. }
  split; [exact Hiff|].
  intros Hu Hblank. apply Hiff in Hu as (Hdef & _ & Hg).
  pose proof (positive_port_truthy _ n Hempty Hnum Hg Hdef) as Ht.
  unfold RouterFacts.picked. cbn [hp_host]. rewrite Ht.
  unfold or_else at 1. rewrite Hblank. reflexivity.
Qed.

End WithHost.

(** A descriptor with a port only is handed to the TCP checker with the
    default timeout. *)
Lemma runCheck_cases_port_only :
  ∃ hp t,
    runCheck (H := RefHost.host) RouterFacts.port_only =
      Return (CheckTcp hp t)
    ∧ pickHostPort (H := RefHost.host) RouterFacts.port_only = Return hp
    ∧ usable_host_port hp = true
    ∧ gt0 t = true.
Proof.
  assert (Hrun : runCheck (H := RefHost.host) RouterFacts.port_only =
                   Return (CheckTcp {| hp_host := VString "127.0.0.1";
                                       hp_port := Some (num 25565) |}
                             DEFAULT_TIMEOUT_MS))
    by (vm_compute; reflexivity).
  pose proof (runCheck_cases (H := RefHost.host) _ _ Hrun)
    as (_ & _ & _ & Hhp & Huse & Hpos).
  eexists _, _. split; [exact Hrun|]. split; [exact Hhp|].
  split; [exact Huse|exact Hpos].
Defined.

Lemma usable_port_suffices_port_only :
  ∃ hp,
    pickHostPort (H := RefHost.host) RouterFacts.port_only = Return hp
    ∧ usable_host_port hp = true
    ∧ hp_host hp = VString "127.0.0.1".
Proof.
  destruct (usable_port_suffices (H := RefHost.host) RouterFacts.port_only
              (num 25565) eq_refl)
    as (hp & Hhp & Hiff & Hloop).
  - vm_compute. reflexivity.
  - vm_compute. reflexivity.
  - assert (Hu : usable_host_port hp = true).
    { apply Hiff. split; [discriminate|]. split; reflexivity. }
    exists hp. split; [exact Hhp|]. split; [exact Hu|].
    apply Hloop; [exact Hu|reflexivity].
Defined.

End RoutingFacts.

(** ** The pool while it runs *)

Module PoolBounds.

Import Js Pool.

Local Open Scope nat_scope.

Section Pool.
Context {A B : Type}.
Variable items : list A.
Variable limit : nat.
Variable mapper : A → nat → outcome B → Prop.

Local Abbreviation step := (Pool.step items mapper).
Local Abbreviation init := (Pool.init items limit).

Lemma length_omap_le {T U : Type} (f : T → option U) (l : list T) :
  length (omap f l) ≤ length l.
Proof.
  induction l as [|x l IH]; [reflexivity|].
  change (omap f (x :: l))
    with (match f x with Some y => y :: omap f l | None => omap f l end).
  destruct (f x); cbn [length]; lia.
Qed.

Lemma length_awaiting (s : pool B) : length (awaiting s) ≤ length (workers s).
Proof.
  unfold awaiting.
  etransitivity; [apply length_omap_le|]. rewrite length_imap. reflexivity.
Qed.

(** X10: in every state the pool can reach, the number of mappers that
    have been called and have not settled is at most the limit (and at
    most the number of items); no two workers wait for the same index, and
    an index a worker waits for lies within the items and has no result
    yet. *)
Theorem pool_in_flight (s : pool B) :
  rtc step init s →
  length (awaiting s) ≤ min limit (length items)
  ∧ (∀ w w' idx,
       workers s !! w = Some (Awaiting idx) →
       workers s !! w' = Some (Awaiting idx) → w = w')
  ∧ (∀ w idx,
       workers s !! w = Some (Awaiting idx) →
       idx < length items ∧ results s !! idx = Some None).
Proof.
  intros Hreach.
  pose proof (PoolFacts.inv_reachable items limit mapper s Hreach) as Hinv.
  split; [|split].
  - rewrite <- (PoolFacts.workers_reachable items limit mapper s Hreach).
    apply length_awaiting.
  - apply (PoolFacts.inv_unique items mapper s Hinv).
  - intros w idx Hw.
    destruct (PoolFacts.inv_awaiting items mapper s Hinv w idx Hw)
      as (_ & Hidx & Hhole).
    split; assumption.
Qed.

(** X11: the pool keeps its workers busy: in every reachable state in
    which an item has not been handed to a mapper yet (the counter [i] is
    below the number of items), each of the [min(limit, items.length)]
    workers is waiting for a mapper. *)
Theorem pool_keeps_workers_busy (s : pool B) :
  rtc step init s →
  cursor s < length items →
  length (workers s) = min limit (length items)
  ∧ ∀ w st, workers s !! w = Some st → ∃ idx, st = Awaiting idx.
Proof.
  intros Hreach Hcur.
  pose proof (PoolFacts.inv_reachable items limit mapper s Hreach) as Hinv.
  split; [apply (PoolFacts.workers_reachable items limit mapper s Hreach)|].
  intros w st Hw. destruct st as [idx| |e].
  - eauto.
  - pose proof (PoolFacts.inv_finished items mapper s Hinv w Hw). lia.
  - destruct (PoolFacts.inv_no_failure items mapper s Hinv w e Hw).
Qed.

Lemma holes_none (r : list (option (cell B))) :
  (∀ i, i < length r → ∃ c, r !! i = Some (Some c)) →
  PoolFacts.holes r = 0.
Proof.
  induction r as [|x r IH]; intros Hall; [reflexivity|].
  destruct (Hall 0) as [c Hc]; [simpl; lia|].
  simpl in Hc. injection Hc as ->. simpl. apply IH.
  intros i Hi. apply (Hall (S i)). simpl. lia.
Qed.

(** X12: every settlement of a mapper fills exactly one hole of
    [results]: after [n] settlements, [n] results are stored and
    [items.length - n] holes are left.  With a limit of at least one, the
    call has returned exactly when [n] is the number of items. *)
Theorem pool_settlements_counted (n : nat) (s : pool B) :
  nsteps step n init s →
  n + PoolFacts.holes (results s) = length items
  ∧ (1 ≤ limit → returned s ≠ None ↔ n = length items).
Proof.
  intros Hn.
  pose proof (PoolFacts.nsteps_holes items limit mapper n s Hn) as Hcount.
  split; [exact Hcount|].
  intros Hlimit.
  assert (Hreach : rtc step init s) by (eapply rtc_nsteps_2; eassumption).
  pose proof (PoolFacts.inv_reachable items limit mapper s Hreach) as Hinv.
  split.
  - intros Hret.
    destruct (PoolFacts.returned_cases items mapper s Hinv)
      as [[Hnone _]|[Hr _]]; [contradiction|].
    destruct (PoolFacts.returned_results items limit mapper s _
                Hlimit Hreach Hr) as (_ & Hlen & Hcells).
    rewrite holes_none in Hcount; [lia|].
    intros i Hi. rewrite Hlen in Hi.
    destruct (lookup_lt_is_Some_2 items i Hi) as [a Ha].
    destruct (Hcells i a Ha) as (o & _ & Hc). eauto.
  - intros ->.
    destruct (PoolFacts.returned_cases items mapper s Hinv)
      as [[_ (w & idx & Hw)]|[Hr _]]; [|congruence].
    destruct (PoolFacts.inv_awaiting items mapper s Hinv w idx Hw)
      as (_ & _ & Hhole).
    apply PoolFacts.holes_positive in Hhole. lia.
Qed.

Lemma run_idle (settle : nat → outcome B) (choices : list nat) (s : pool B) :
  workers s = [] → run items settle choices s = s.
Proof.
  intros Hw. destruct choices as [|c choices]; [reflexivity|].
  cbn [run]. unfold awaiting. rewrite Hw. reflexivity.
Qed.

(** X13: with a limit of zero, or with no item, the pool has no worker:
    no mapper is called and the call returns at once, with an array of
    [items.length] holes. *)
Theorem pool_without_workers (settle : nat → outcome B)
  (choices : list nat) :
  limit = 0 ∨ items = [] →
  mapWithConcurrency items limit settle choices =
    Some (Return (replicate (length items) None))
  ∧ ∀ s, ¬ step init s.
Proof.
  intros Hzero.
  assert (Hmin : min limit (length items) = 0)
    by (destruct Hzero as [->| ->]; simpl; lia).
  assert (Hinit : (init : pool B) =
                    {| cursor := 0;
                       results := replicate (length items) None;
                       workers := [] |}).
  { unfold Pool.init. rewrite Hmin. reflexivity. }
  split.
  - unfold mapWithConcurrency. rewrite Hinit, run_idle by reflexivity.
    reflexivity.
  - intros s Hstep. rewrite Hinit in Hstep.
    inversion Hstep as [w idx a o s1 s2 Hw]. subst.
    simpl in Hw. rewrite lookup_nil in Hw. discriminate.
Qed.

End Pool.

(** *** Three items, two workers *)

Definition demo_items : list string := ["a"; "b"; "c"].

Definition demo_mapper (_ : string) (i : nat) (o : outcome nat) : Prop :=
  o = PoolFacts.settle_demo i.

(** The state once the mapper of index 1 has settled, before that of
    index 0. *)
Definition demo_state : pool nat :=
  run demo_items PoolFacts.settle_demo [1] (Pool.init demo_items 2).

Lemma demo_step :
  Pool.step demo_items demo_mapper (Pool.init demo_items 2) demo_state.
Proof.
  apply (step_resume demo_items demo_mapper 1 1 "b"
           (PoolFacts.settle_demo 1)); reflexivity.
Qed.

Lemma pool_in_flight_demo :
  length (awaiting demo_state) ≤ 2
  ∧ ∀ w idx,
      workers demo_state !! w = Some (Awaiting idx) →
      idx < 3 ∧ results demo_state !! idx = Some None.
Proof.
  destruct (pool_in_flight demo_items 2 demo_mapper demo_state
              (rtc_once _ _ demo_step)) as (Hle & _ & Hholes).
  split; [exact Hle|exact Hholes].
Defined.

Lemma pool_keeps_workers_busy_demo :
  length (workers (Pool.init demo_items 2 : pool nat)) = 2
  ∧ ∃ idx, Awaiting 1 = Awaiting idx.
Proof.
  destruct (pool_keeps_workers_busy demo_items 2 demo_mapper
              (Pool.init demo_items 2) (rtc_refl _ _) ltac:(simpl; lia))
    as [Hlen Hbusy].
  split; [exact Hlen|]. apply (Hbusy 1 (Awaiting 1)). reflexivity.
Defined.

Lemma pool_settlements_counted_demo :
  1 + PoolFacts.holes (results demo_state) = 3
  ∧ returned demo_state = None.
Proof.
  destruct (pool_settlements_counted demo_items 2 demo_mapper 1 demo_state
              (nsteps_once _ _ demo_step)) as [Hcount Hret].
  split; [exact Hcount|reflexivity].
Defined.

Lemma pool_without_workers_demo :
  mapWithConcurrency demo_items 0 PoolFacts.settle_demo [0; 0; 0] =
    Some (Return [None; None; None]).
Proof.
  exact (proj1 (pool_without_workers demo_items 0 demo_mapper
                  PoolFacts.settle_demo [0; 0; 0] (or_introl eq_refl))).
Defined.

End PoolBounds.

(** ** What a tick does to the file system *)

Module TickEffects.

Import Js Router Pool Tick TickFacts.

Section WithHost.
Context `{Host}.

Lemma with_catch_effects (o : outcome) : effects (with_catch o) = effects o.
Proof.
  unfold with_catch. destruct (settled o) as [[u|err]|]; reflexivity.
Qed.

Lemma with_catch_throw (o : outcome) (err : error) :
  settled o = Some (Throw err) → exitCode (with_catch o) = Some 1%Z.
Proof. intros Hs. unfold with_catch. rewrite Hs. reflexivity. Qed.

(** X14: whatever the files hold and whatever the network does, one tick
    leaves one of four traces on the file system: none; the temporary file
    with a part of the text (possibly empty), when [fsp.writeFile] failed
    after creating it (exit code 1); the temporary file with the whole
    text, when the rename failed (exit code 1); or the temporary file with
    the whole text, then its rename onto the snapshot.  So the snapshot is
    replaced only by the rename of a fully written file, and no other path
    is written. *)
Theorem runOnce_effects (e : env) :
  effects (runOnce e) = []
  ∨ ∃ nextStatus,
      let text :=
        (JSON_stringify (VObject nextStatus) ++ String "010" "")%string in
      (∃ n err,
         write_error e = Some err
         ∧ write_left e = Some n
         ∧ effects (runOnce e) =
             [WriteFile (tmpPath e) (String.substring 0 n text)]
         ∧ exitCode (runOnce e) = Some 1%Z)
      ∨ (effects (runOnce e) = [WriteFile (tmpPath e) text]
         ∧ write_error e = None
         ∧ (∃ err, rename_error e = Some err)
         ∧ exitCode (runOnce e) = Some 1%Z)
      ∨ (effects (runOnce e) =
           [WriteFile (tmpPath e) text; Rename (tmpPath e) (STATUS_PATH e)]
         ∧ write_error e = None
         ∧ rename_error e = None).
Proof.
  unfold runOnce.
  destruct (effects (main e)) as [|eff effs] eqn:Heff;
    [left; rewrite with_catch_effects; assumption|right].
  revert Heff. unfold main.
  destruct (readJsonIfExists (config_file e) VNull) as [config|];
    [|discriminate].
  destruct (negb (truthy config)); [discriminate|].
  destruct config as [| | | | |config|]; try discriminate.
  destruct (readJsonIfExists (status_file e) (VArray [])); [|discriminate].
  destruct (mapWithConcurrency _ _ _ _) as [[results|]|]; try discriminate.
  destruct (build_status results []) as [nextStatus|]; [|discriminate].
  unfold atomicWriteJson.
  destruct (write_error e) as [werr|] eqn:Hw.
  - destruct (write_left e) as [n|] eqn:Hl; [|discriminate].
    intros _. exists nextStatus. left. exists n, werr.
    repeat split; reflexivity.
  - destruct (rename_error e) as [rerr|] eqn:Hr.
    + intros _. exists nextStatus. right. left. split; [reflexivity|].
      split; [reflexivity|]. split; [eauto|reflexivity].
    + intros _. exists nextStatus. right. right.
      rewrite with_catch_effects. repeat split.
Qed.



(** X16: with an empty target list, a tick whose reads and write succeed
    replaces the snapshot by the empty object, whatever the previous
    snapshot held and without waiting for any check. *)
Theorem empty_config_empties_snapshot (e : env) :
  readJsonIfExists (config_file e) VNull = Return (VArray []) →
  returns (readJsonIfExists (status_file e) (VArray [])) →
  write_error e = None →
  rename_error e = None →
  runOnce e =
    {| effects :=
         [WriteFile (tmpPath e)
            (JSON_stringify (VObject []) ++ String "010" "")%string;
          Rename (tmpPath e) (STATUS_PATH e)];
       exitCode := None;
       settled := Some (Return tt) |}.
Proof.
  intros Hc Hs Hw Hr. unfold runOnce.
  rewrite (main_writes e []) by (try assumption; simpl; lia).
  reflexivity.
Qed.

(** The same environment with the checks completing in another order. *)
Definition with_order (e : env) (order : list nat) : env :=
  {| CONFIG_PATH := CONFIG_PATH e; STATUS_PATH := STATUS_PATH e;
     tmpPath := tmpPath e; config_file := config_file e;
     status_file := status_file e; now := now e; http := http e;
     tcp := tcp e; rtt := rtt e; completion_order := order;
     write_error := write_error e; rename_error := rename_error e;
     write_left := write_left e |}.

(** X20: what a tick does and how it ends do not depend on the order in
    which its checks complete: two runs that differ in that order only,
    each long enough for every check to complete, have the same effects,
    exit code and settlement. *)
Theorem tick_order_independent (e : env) (config : list value)
  (order : list nat) :
  readJsonIfExists (config_file e) VNull = Return (VArray config) →
  (length config ≤ length (completion_order e))%nat →
  (length config ≤ length order)%nat →
  main (with_order e order) = main e.
Proof.
  intros Hconfig Hlen Hlen'. unfold main.
  cbn [with_order config_file status_file now completion_order STATUS_PATH].
  rewrite Hconfig. cbn [truthy negb].
  destruct (readJsonIfExists (status_file e) (VArray [])) as [raw|];
    [|reflexivity].
  rewrite !PoolFacts.mapWithConcurrency_eq
    by (try assumption; unfold CONCURRENCY; lia).
  reflexivity.
Qed.

End WithHost.

(** A tick over the empty target list, no check completing. *)
Definition empty_list : env :=
  {| CONFIG_PATH := "servers.config.json";
     STATUS_PATH := "servers.status.json";
     tmpPath := ".servers.status.json.1.0.tmp";
     config_file := ReadOk (Minecraft.Buffer_from_string "[]");
     status_file := status_file sample;
     now := "2026-01-01T00:00:00.000Z";
     http := λ _, HttpFailed;
     tcp := λ _, TcpError;
     rtt := λ _, 0%Z;
     completion_order := [];
     write_error := None;
     rename_error := None;
     write_left := None |}.

Lemma empty_config_empties_snapshot_example :
  effects (runOnce (H := RefHost.host) empty_list) =
    [WriteFile ".servers.status.json.1.0.tmp"
       ("{}" ++ String "010" "")%string;
     Rename ".servers.status.json.1.0.tmp" "servers.status.json"].
Proof.
  rewrite (empty_config_empties_snapshot (H := RefHost.host) empty_list).
  - reflexivity.
  - vm_compute. reflexivity.
  - eexists. vm_compute. reflexivity.
  - reflexivity.
  - reflexivity.
Defined.

Lemma tick_order_independent_sample :
  main (H := RefHost.host) (with_order sample [0; 0; 0; 0; 7]%nat) =
    main (H := RefHost.host) sample.
Proof.
  apply (tick_order_independent (H := RefHost.host) sample sample_config).
  - vm_compute. reflexivity.
  - vm_compute. lia.
  - vm_compute. lia.
Defined.

End TickEffects.

(** ** The index of the previous snapshot, and why a check rejects *)

Module TickRecords.

Import Js Router Pool Tick TickFacts.

(** The items that [makeStatusIndex] files under [id]. *)
Definition indexed (id : string) (item : value) : bool :=
  truthy item &&
  match own item f_id with
  | VString s => String.eqb s id
  | _ => false
  end.

Lemma makeStatusIndex_fold (statusArr : list value) (id : string)
  (map : gmap string value) :
  fold_left
    (λ map item,
       if truthy item then
         match own item f_id with
         | VString id => <[id := item]> map
         | _ => map
         end
       else map)
    statusArr map !! id =
    match last (List.filter (indexed id) statusArr) with
    | Some item => Some item
    | None => map !! id
    end.
Proof.
  revert map. induction statusArr as [|item l IH]; intros map;
    [reflexivity|].
  cbn [fold_left List.filter]. rewrite IH. unfold indexed at 2.
  destruct (truthy item); cbn [andb]; [|reflexivity].
  destruct (own item f_id) as [| | | |s| |]; try reflexivity.
  destruct (String.eqb_spec s id) as [->|Hne].
  - rewrite last_cons, lookup_insert_eq.
    destruct (last (List.filter (indexed id) l)); reflexivity.
  - rewrite lookup_insert_ne by assumption. reflexivity.
Qed.

(** X17: [makeStatusIndex] files each item that is truthy and has a string
    [id] under that id, a later item replacing an earlier one with the
    same id: looking an id up yields the last such item of the array, and
    nothing when there is none.  Every item found carries the id it is
    found under. *)
Theorem makeStatusIndex_lookup (statusArr : list value) (id : string) :
  makeStatusIndex statusArr !! id = last (List.filter (indexed id) statusArr)
  ∧ ∀ item,
      makeStatusIndex statusArr !! id = Some item →
      item ∈ statusArr ∧ truthy item = true ∧ own item f_id = VString id.
Proof.
  assert (Hlookup : makeStatusIndex statusArr !! id =
                      last (List.filter (indexed id) statusArr)).
  { unfold makeStatusIndex. rewrite makeStatusIndex_fold, lookup_empty.
    destruct (last (List.filter (indexed id) statusArr)); reflexivity. }
  split; [exact Hlookup|].
  intros item Hitem. rewrite Hlookup in Hitem.
  apply last_Some in Hitem as [l' Hl'].
  assert (Hin : In item (List.filter (indexed id) statusArr))
    by (rewrite Hl'; apply in_or_app; right; left; reflexivity).
  apply filter_In in Hin as [Hin Hidx].
  split; [apply list_elem_of_In; assumption|].
  unfold indexed in Hidx. apply andb_true_iff in Hidx as [Ht Hid].
  split; [assumption|].
  destruct (own item f_id) as [| | | |s| |]; try discriminate.
  apply String.eqb_eq in Hid as ->. reflexivity.
Qed.

Section WithHost.
Context `{Host}.

Lemma pickHostPort_throw (server : value) (err : error) :
  is_nullish server = false →
  pickHostPort server = Throw err →
  Number (own server f_port) = Throw err.
Proof.
  intros Hn Hp.
  destruct (Number (own server f_port)) as [n|e] eqn:Hnum.
  - rewrite (RouterFacts.pickHostPort_object server n) in Hp by assumption.
    discriminate.
  - rewrite (RouterFacts.pickHostPort_throws server e) in Hp by assumption.
    congruence.
Qed.

Lemma shouldSkipPoll_throw (server : value) (err : error) :
  is_nullish server = false →
  shouldSkipPoll server = Throw err →
  Number (own server f_port) = Throw err.
Proof.
  intros Hn. unfold shouldSkipPoll.
  rewrite !(RouterFacts.get_object server) by assumption.
  cbn [mbind completion_bind]. cbv zeta.
  destruct (pickHostPort server) as [hp|e] eqn:Hp.
  - cbn [mbind completion_bind].
    destruct (or_else (own server f_ip) (own server f_host));
      try discriminate.
    repeat (match goal with
            | |- context [match ?x with _ => _ end] =>
                is_var x; destruct x; try discriminate
            end).
  - apply (pickHostPort_throw server e Hn) in Hp.
    cbn [mbind completion_bind].
    destruct (or_else (own server f_ip) (own server f_host));
      try (intros [= <-]; assumption).
    repeat (match goal with
            | |- context [match ?x with _ => _ end] =>
                is_var x; destruct x;
                try discriminate; try (intros [= <-]; assumption)
            end).
Qed.

Lemma runCheck_throw (server : value) (err : error) :
  runCheck server = Throw err →
  (is_nullish server = true ∧ err = TypeError)
  ∨ (is_nullish server = false
     ∧ Number (own server f_timeoutMs) = Throw err)
  ∨ (is_nullish server = false ∧ Number (own server f_port) = Throw err).
Proof.
  destruct (is_nullish server) eqn:Hn.
  - unfold runCheck.
    rewrite (RouterFacts.get_nullish server f_timeoutMs) by assumption.
    cbn [mbind completion_bind]. intros [= <-]. left. split; reflexivity.
  - destruct (Number (own server f_timeoutMs)) as [n|e] eqn:Ht.
    + rewrite (RouterFacts.runCheck_timeout server n) by assumption.
      cbv zeta. intros Hrun. right. right. split; [reflexivity|].
      destruct (negb (isEnabled server)); [discriminate|].
      destruct (shouldSkipPoll server) as [skip|e] eqn:Hskip.
      * cbn [mbind completion_bind] in Hrun.
        destruct skip; [discriminate|].
        unfold chooseChecker in Hrun.
        rewrite (RouterFacts.get_object server) in Hrun by assumption.
        cbn [mbind completion_bind] in Hrun.
        destruct (usable_url (own server f_url)); [discriminate|].
        destruct (pickHostPort server) as [hp|e] eqn:Hp.
        -- cbn [mbind completion_bind] in Hrun.
           destruct (usable_host_port hp);
             cbn [mbind completion_bind] in Hrun; discriminate.
        -- cbn [mbind completion_bind] in Hrun. injection Hrun as ->.
           apply pickHostPort_throw; assumption.
      * cbn [mbind completion_bind] in Hrun. injection Hrun as ->.
        apply shouldSkipPoll_throw; assumption.
    + unfold runCheck.
      rewrite (RouterFacts.get_object server f_timeoutMs) by assumption.
      cbn [mbind completion_bind]. rewrite Ht.
      cbn [mbind completion_bind]. intros [= <-]. right. left.
      split; reflexivity.
Qed.

(** X18: the check of a target rejects in four cases only: the target is
    [null] or [undefined]; its [timeoutMs] does not convert to a number;
    its [port] does not convert to a number; or [runCheck] handed it to
    the TCP checker and the executor of [checkTcp] threw
    ([socket.setTimeout] or [socket.connect]), or the timer of
    [withTimeout] fired before the socket reported.  A target handed to
    the HTTP checker never makes its check reject. *)
Theorem runCheck_io_rejects (e : env) (i : nat) (server : value)
  (err : error) :
  runCheck_io e i server = Throw err →
  (is_nullish server = true ∧ err = TypeError)
  ∨ (is_nullish server = false
     ∧ Number (own server f_timeoutMs) = Throw err)
  ∨ (is_nullish server = false ∧ Number (own server f_port) = Throw err)
  ∨ (∃ hp t,
       runCheck server = Return (CheckTcp hp t)
       ∧ (tcp e i = TcpThrew err
          ∨ (tcp e i = TcpGuardTimeout ∧ err = Error "tcp-check-timeout"))).
Proof.
  unfold runCheck_io.
  destruct (runCheck server) as [a|e0] eqn:Hrun.
  - cbn [mbind completion_bind]. destruct a as [r|url t|hp t];
      try discriminate.
    intros Htcp. right. right. right. exists hp, t. split; [reflexivity|].
    unfold checkTcp in Htcp.
    destruct (tcp e i); try discriminate; injection Htcp as <-; auto.
  - cbn [mbind completion_bind]. intros [= <-].
    destruct (runCheck_throw server e0 Hrun) as [Hc|[Hc|Hc]]; auto.
Qed.

(** *** The records of the snapshot *)

Lemma key_of_set (o : list (string * value)) (k k' : string) (v : value) :
  k' ∈ map fst (Obj.set o k v) → k' = k ∨ k' ∈ map fst o.
Proof.
  induction o as [|[k0 v0] o IH]; cbn [Obj.set map fst].
  - intros Hin. apply list_elem_of_singleton in Hin. left. exact Hin.
  - destruct (String.eqb_spec k0 k) as [->|Hne]; cbn [map fst]; intros Hin.
    + right. exact Hin.
    + apply elem_of_cons in Hin as [->|Hin]; [right; left|].
      destruct (IH Hin) as [->|Hin']; [left; reflexivity|].
      right. right. exact Hin'.
Qed.

Lemma entry_of_set (o : list (string * value)) (k k' : string)
  (v v' : value) :
  (k', v') ∈ Obj.set o k v → (k' = k ∧ v' = v) ∨ (k', v') ∈ o.
Proof.
  induction o as [|[k0 v0] o IH]; cbn [Obj.set].
  - intros Hin. apply list_elem_of_singleton in Hin.
    injection Hin as -> ->. left. split; reflexivity.
  - destruct (String.eqb_spec k0 k) as [->|Hne]; intros Hin.
    + apply elem_of_cons in Hin as [[= -> ->]|Hin];
        [left; split; reflexivity|right; right; exact Hin].
    + apply elem_of_cons in Hin as [Heq|Hin]; [right; rewrite Heq; left|].
      destruct (IH Hin) as [Hnew|Hold]; [left; exact Hnew|].
      right. right. exact Hold.
Qed.

Lemma NoDup_set (o : list (string * value)) (k : string) (v : value) :
  NoDup (map fst o) → NoDup (map fst (Obj.set o k v)).
Proof.
  induction o as [|[k0 v0] o IH]; cbn [Obj.set map fst]; intros Hnd.
  - apply NoDup_singleton.
  - apply NoDup_cons in Hnd as [Hk0 Hnd].
    destruct (String.eqb_spec k0 k) as [->|Hne]; cbn [map fst].
    + apply NoDup_cons. split; assumption.
    + apply NoDup_cons. split; [|apply IH; assumption].
      intros Hin. apply key_of_set in Hin as [->|Hin]; contradiction.
Qed.

Lemma length_set (o : list (string * value)) (k : string) (v : value) :
  (length (Obj.set o k v) ≤ S (length o))%nat.
Proof.
  induction o as [|[k0 v0] o IH]; cbn [Obj.set length]; [lia|].
  destruct (String.eqb k0 k); cbn [length]; lia.
Qed.

(** What holds of the object [nextStatus] while [main] fills it. *)
Definition well_formed (e : env) (config : list value)
  (nextStatus : list (string * value)) : Prop :=
  NoDup (map fst nextStatus)
  ∧ ∀ k v,
      (k, v) ∈ nextStatus →
      k ≠ "__proto__"
      ∧ ∃ i result,
          checked e config i k result ∧ v = record_of result (now e).

Lemma well_formed_add (e : env) (config : list value) (i : nat)
  (nextStatus : list (string * value)) :
  well_formed e config nextStatus →
  well_formed e config
    (add_emitted nextStatus (emitted e (default VUndefined (config !! i)) i))
  ∧ (length (add_emitted nextStatus
               (emitted e (default VUndefined (config !! i)) i))
       ≤ S (length nextStatus))%nat.
Proof.
  intros [Hnd Hrec].
  destruct (emitted e (default VUndefined (config !! i)) i)
    as [[k record]|] eqn:Hem; cbn [add_emitted];
    [|split; [split; assumption|lia]].
  apply emitted_checked in Hem as (result & Hc & ->).
  unfold assign. destruct (String.eqb_spec k "__proto__") as [->|Hk];
    [split; [split; assumption|lia]|].
  split; [split|apply length_set].
  - apply NoDup_set. assumption.
  - intros k' v' Hin. apply entry_of_set in Hin as [[-> ->]|Hin].
    + split; [assumption|]. eauto.
    + apply Hrec. assumption.
Qed.

Lemma well_formed_fold (e : env) (config : list value) (l : list nat)
  (nextStatus : list (string * value)) :
  well_formed e config nextStatus →
  let final :=
    fold_left
      (λ acc i,
         add_emitted acc (emitted e (default VUndefined (config !! i)) i))
      l nextStatus in
  well_formed e config final
  ∧ (length final ≤ length nextStatus + length l)%nat.
Proof.
  revert nextStatus. induction l as [|i l IH]; intros nextStatus Hwf;
    cbv zeta.
  - split; [assumption|simpl; lia].
  - cbn [fold_left].
    destruct (well_formed_add e config i nextStatus Hwf) as [Hwf' Hlen].
    destruct (IH _ Hwf') as [Hfinal Hlen'].
    split; [exact Hfinal|]. cbv zeta in Hlen'. cbn [length]. lia.
Qed.

(** X19: in the snapshot that a tick writes (target list read as an
    array, previous snapshot read, checks completed, write succeeded) no
    key occurs twice, there are at most as many records as targets, and
    every record stands under the non-blank string id of a target whose
    check returned and consists of exactly two properties: [online], the
    boolean of that check, and [lastCheckAt], the timestamp of the tick.
    No key is [__proto__]. *)
Theorem snapshot_records (e : env) (config : list value) :
  readJsonIfExists (config_file e) VNull = Return (VArray config) →
  returns (readJsonIfExists (status_file e) (VArray [])) →
  (length config ≤ length (completion_order e))%nat →
  write_error e = None →
  rename_error e = None →
  ∃ nextStatus,
    effects (main e) =
      [WriteFile (tmpPath e)
         (JSON_stringify (VObject nextStatus) ++ String "010" "")%string;
       Rename (tmpPath e) (STATUS_PATH e)]
    ∧ NoDup (map fst nextStatus)
    ∧ (length nextStatus ≤ length config)%nat
    ∧ ∀ k v,
        (k, v) ∈ nextStatus →
        k ≠ "__proto__"
        ∧ ∃ i result,
            checked e config i k result
            ∧ v = VObject [("online", VBool (online result));
                           ("lastCheckAt", VString (now e))].
Proof.
  intros Hconfig Hstatus Hlen Hw Hr.
  exists (snapshot e config).
  split; [rewrite (main_writes e config) by assumption; reflexivity|].
  assert (Hempty : well_formed e config []).
  { split; [apply NoDup_nil_2|]. intros k v Hin. inversion Hin. }
  destruct (well_formed_fold e config (seq 0 (length config)) [] Hempty)
    as [[Hnd Hrec] Hsize].
  cbv zeta in Hsize. rewrite length_seq in Hsize. fold (snapshot e config) in *.
  split; [exact Hnd|]. split; [exact Hsize|].
  intros k v Hin. destruct (Hrec k v Hin) as (Hk & i & result & Hc & ->).
  split; [exact Hk|]. exists i, result. split; [exact Hc|].
  destruct Hc as (server & _ & _ & _ & _ & Hrun).
  destruct (runCheck_io_plain e i server result Hrun) as [Hp Hv].
  unfold record_of. rewrite Hp, Hv. reflexivity.
Qed.

End WithHost.

(** The target of the sample tick whose port [socket.connect] refuses. *)
Definition bad_target : value :=
  VObject [("id", VString "bad"); ("host", VString "h");
           ("port", VNumber (num 70000))].

Lemma runCheck_io_rejects_sample :
  ∃ hp t,
    runCheck (H := RefHost.host) bad_target = Return (CheckTcp hp t)
    ∧ tcp sample 1 = TcpThrew RangeError.
Proof.
  destruct (runCheck_io_rejects (H := RefHost.host) sample 1 bad_target
              RangeError eq_refl)
    as [[Hn _]|[[_ Ht]|[[_ Hp]|(hp & t & Hrun & Hc)]]];
    try discriminate.
  exists hp, t. split; [exact Hrun|].
  destruct Hc as [Hc|[Hc _]]; [exact Hc|discriminate].
Defined.

Lemma snapshot_records_sample :
  ∃ nextStatus,
    effects (main (H := RefHost.host) sample) =
      [WriteFile ".status.json.1.0.tmp"
         (JSON_stringify (Host := RefHost.host) (VObject nextStatus)
            ++ String "010" "")%string;
       Rename ".status.json.1.0.tmp" "status.json"]
    ∧ NoDup (map fst nextStatus)
    ∧ (length nextStatus ≤ 4)%nat.
Proof.
  destruct (snapshot_records (H := RefHost.host) sample sample_config)
    as (nextStatus & Hmain & Hnd & Hlen & _).
  - vm_compute. reflexivity.
  - eexists. vm_compute. reflexivity.
  - vm_compute. lia.
  - reflexivity.
  - reflexivity.
  - exists nextStatus. split; [exact Hmain|]. split; [exact Hnd|exact Hlen].
Defined.

End TickRecords.
